(** * metag_partitioning: the log(D_max) label-propagation engine

    A shallow embedding of [src/logSortGraph500.cpp]: the bucket scan of
    [cluster_reads_par] (naive variant) and of [cluster_reads_par_inactive]
    (retirement variant, with or without load balancing), the retirement
    step, the termination vote and [get_partition_seeds].

    Ranks are the positions of a list: the state of a run on [p] ranks is a
    list of [p] local buffers, and a collective takes the list of the
    contributions of all ranks and returns the list of what each receives. *)

From Stdlib Require Import ZArith Lia.
From stdpp Require Import base list numbers sorting.

Local Open Scope Z_scope.

(** ** Tuple model

    [Graph500Generator::tuple_type] is [std::tuple<int64_t,int64_t,int64_t>];
    the layers are addressed by [kmerTuple::kmer], [kmerTuple::Pn] and
    [kmerTuple::Pc] (configParam.hpp). *)

Record tuple_t : Type := mk_tuple { kmer : Z; Pn : Z; Pc : Z }.

Definition set_Pn (v : Z) (t : tuple_t) : tuple_t := mk_tuple (kmer t) v (Pc t).
Definition set_Pc (v : Z) (t : tuple_t) : tuple_t := mk_tuple (kmer t) (Pn t) v.

(** [std::swap(std::get<Pn>(t), std::get<Pc>(t))] *)
Definition swap_Pn_Pc (t : tuple_t) : tuple_t := mk_tuple (kmer t) (Pc t) (Pn t).

(** [const unsigned int MAX = std::numeric_limits<ReadIdType>::max()] with
    [ReadIdType = uint32_t]. *)
Definition MAX : Z := 2 ^ 32 - 1.

(** [static constexpr uint32_t inactive_partition = MAX] *)
Definition inactive_partition : Z := MAX.

(** Conversion of an [int64_t] to [uint32_t], as in
    [uint32_t prev_pn = std::get<Pn>(prev_el)]. *)
Definition to_uint32 (z : Z) : Z := z mod 2 ^ 32.

(** The tuple a default-constructed [tuple_t] holds. *)
Definition tuple_zero : tuple_t := mk_tuple 0 0 0.

#[global] Instance tuple_t_eq_dec : EqDecision tuple_t.
Proof. solve_decision. Defined.

#[global] Instance tuple_t_inhabited : Inhabited tuple_t := populate tuple_zero.

(** ** Comparators of the engine *)

(** The lambda given to [mxx::sort] in the main loop: by [Pc], then [Pn]. *)
Definition pc_pn_less (x y : tuple_t) : bool :=
  (Pc x <? Pc y) || ((Pc x =? Pc y) && (Pn x <? Pn y)).

(** The order that sort leaves a range in. *)
Definition pc_pn_le (x y : tuple_t) : Prop :=
  Pc x < Pc y \/ (Pc x = Pc y /\ Pn x <= Pn y).

(** The lambda given to the sorts of [get_partition_seeds]: by [Pc]. *)
Definition pc_less (x y : tuple_t) : bool := Pc x <? Pc y.

(** The lambda given to [std::lower_bound] and [std::unique] in
    [get_partition_seeds]. *)
Definition pc_equal (x y : tuple_t) : bool := Pc x =? Pc y.

(** Modelled from the spec: [layer_comparator<Pc, tuple_t>] of sortTuples.hpp,
    which orders two tuples by their [Pc] layer. *)
Definition pc_comp (x y : tuple_t) : bool := Pc x <? Pc y.

(** Modelled from the spec: [layer_comparator<kmerTuple::kmer, tuple_t>] of
    sortTuples.hpp, the ordering [by_key]. *)
Definition kmer_comp (x y : tuple_t) : bool := kmer x <? kmer y.

(** The reducer given to [mxx::exscan]. *)
Definition exscan_op (x y : tuple_t) : tuple_t :=
  if (Pc x <? Pc y) || ((Pc x =? Pc y) && (Pn x >? Pn y)) then y else x.

(** The reducer given to [mxx::reverse_exscan]. *)
Definition reverse_exscan_op (x y : tuple_t) : tuple_t :=
  if (Pc x >? Pc y) || ((Pc x =? Pc y) && (Pn x <? Pn y)) then y else x.

(** ** Local algorithms of the C++ standard library *)

Section std.
Context {A : Type}.

(** [std::sort] with a strict comparator, as a stable insertion sort. The
    engine reads only the layers the comparator reads, or re-sorts before
    it reads more, so the order among equivalent elements is immaterial. *)
Fixpoint insert_sorted (comp : A -> A -> bool) (x : A) (l : list A) : list A :=
  match l with
  | [] => [x]
  | y :: r => if comp y x then y :: insert_sorted comp x r
              else x :: y :: r
  end.

Fixpoint std_sort (comp : A -> A -> bool) (l : list A) : list A :=
  match l with
  | [] => []
  | x :: r => insert_sorted comp x (std_sort comp r)
  end.

(** [x] may stand before [y] in a range sorted with [comp]. *)
Definition not_after (comp : A -> A -> bool) (x y : A) : Prop := comp y x = false.

(** [std::lower_bound(first, last, val, comp)]: the binary search of
    libstdc++ and libc++, returning the index of the result in [l]. *)
Fixpoint lower_bound_loop (fuel : nat) (comp : A -> A -> bool) (l : list A)
    (val : A) (first len : nat) : nat :=
  match fuel with
  | O => first
  | S fuel' =>
      if (len =? 0)%nat then first
      else
        let half := (len / 2)%nat in
        let middle := (first + half)%nat in
        match l !! middle with
        | Some m =>
            if comp m val
            then lower_bound_loop fuel' comp l val (S middle) (len - half - 1)%nat
            else lower_bound_loop fuel' comp l val first half
        | None => first
        end
  end.

(** On the sub-range [[first, last)] of [l]. *)
Definition lower_bound (comp : A -> A -> bool) (l : list A) (first last : nat)
    (val : A) : nat :=
  lower_bound_loop (S (last - first)) comp l val first (last - first)%nat.

(** [std::upper_bound(first, last, val, comp)]. *)
Fixpoint upper_bound_loop (fuel : nat) (comp : A -> A -> bool) (l : list A)
    (val : A) (first len : nat) : nat :=
  match fuel with
  | O => first
  | S fuel' =>
      if (len =? 0)%nat then first
      else
        let half := (len / 2)%nat in
        let middle := (first + half)%nat in
        match l !! middle with
        | Some m =>
            if comp val m
            then upper_bound_loop fuel' comp l val first half
            else upper_bound_loop fuel' comp l val (S middle) (len - half - 1)%nat
        | None => first
        end
  end.

Definition upper_bound (comp : A -> A -> bool) (l : list A) (first last : nat)
    (val : A) : nat :=
  upper_bound_loop (S (last - first)) comp l val first (last - first)%nat.

(** [std::unique(first, last, pred)] followed by [erase]: of every run of
    elements equivalent to the last one kept, the first is kept. *)
Fixpoint unique_from (eqv : A -> A -> bool) (kept : A) (l : list A) : list A :=
  match l with
  | [] => []
  | x :: r => if eqv kept x then unique_from eqv kept r
              else x :: unique_from eqv x r
  end.

Definition std_unique (eqv : A -> A -> bool) (l : list A) : list A :=
  match l with
  | [] => []
  | x :: r => x :: unique_from eqv x r
  end.

(** [std::partition(first, last, pred)] for bidirectional iterators: the
    front cursor stops at the first element failing [pred], the back
    cursor at the last element satisfying it, the two are swapped, and the
    search resumes between them.  [strip_back] is the walk of the back
    cursor: it splits [l] into [a ++ [y] ++ fs] with [y] the last element
    satisfying [pred]. *)
Fixpoint strip_back (pred : A -> bool) (l : list A)
    : option (list A * A * list A) :=
  match l with
  | [] => None
  | x :: r =>
      match strip_back pred r with
      | Some (a, y, fs) => Some (x :: a, y, fs)
      | None => if pred x then Some ([], x, r) else None
      end
  end.

(** Returns the rearranged range split at the iterator [std::partition]
    returns. *)
Fixpoint partition_loop (fuel : nat) (pred : A -> bool) (l : list A)
    : list A * list A :=
  match fuel with
  | O => ([], l)
  | S fuel' =>
      match l with
      | [] => ([], [])
      | x :: r =>
          if pred x then
            let '(a, i) := partition_loop fuel' pred r in (x :: a, i)
          else
            match strip_back pred r with
            | None => ([], x :: r)
            | Some (mid, y, fs) =>
                let '(a, i) := partition_loop fuel' pred mid in
                (y :: a, i ++ x :: fs)
            end
      end
  end.

Definition std_partition (pred : A -> bool) (l : list A) : list A * list A :=
  partition_loop (length l) pred l.

(** [std::swap(v[i], v[j])] *)
Definition swap_at (v : list A) (i j : nat) : list A :=
  match v !! i, v !! j with
  | Some x, Some y => <[j := x]> (<[i := y]> v)
  | _, _ => v
  end.
End std.

(** ** The bucket scan *)

(** What a rank knows of its neighbours during one super-step: its rank and
    the size of [MPI_COMM_WORLD], its rank in and the size of the
    communicator of the ranks with a non-empty active prefix
    ([nonempty_comm], retirement variant only), and the boundary tuples the
    scans and shifts delivered. *)
Record boundary : Type := mk_boundary {
  rank : Z;
  p : Z;
  active_rank : Z;
  active_p : Z;
  prev_min : tuple_t;
  prev_el : tuple_t;
  next_max : tuple_t
}.

(** Neither of [x] and [y] is before the other under [comp]. *)
Definition equivalent (comp : tuple_t -> tuple_t -> bool) (x y : tuple_t) : bool :=
  negb (comp x y) && negb (comp y x).

Fixpoint take_while (f : tuple_t -> bool) (l : list tuple_t) : list tuple_t :=
  match l with
  | [] => []
  | x :: r => if f x then x :: take_while f r else []
  end.

Fixpoint drop_while (f : tuple_t -> bool) (l : list tuple_t) : list tuple_t :=
  match l with
  | [] => []
  | x :: r => if f x then drop_while f r else l
  end.

(** Modelled from the spec: [findRange] of sortTuples.hpp, called as
    [findRange(begin, end, *begin, pc_comp)]: the linear search for the
    bucket of [val], the first element equivalent to [val] under [comp] and
    the run of equivalent elements after it.  Returns the elements before
    [eqr.first], the bucket [[eqr.first, eqr.second)] and the rest. *)
Definition findRange (comp : tuple_t -> tuple_t -> bool) (l : list tuple_t)
    (val : tuple_t) : list tuple_t * list tuple_t * list tuple_t :=
  let before := take_while (fun x => negb (equivalent comp x val)) l in
  let from := drop_while (fun x => negb (equivalent comp x val)) l in
  (before, take_while (fun x => equivalent comp x val) from,
   drop_while (fun x => equivalent comp x val) from).

(** The inner loop over the elements of a non-converged bucket
    ([for (; it != eqr.second; ++it)]), identical in both variants but for
    the restoring of an [ALMOST_INACTIVE] label ([restore]).  Threads
    [found_flip] and [prev_pn] (a [uint32_t]). *)
Fixpoint flip_loop (restore : bool) (min_pn : Z) (found_flip : bool) (prev_pn : Z)
    (its : list tuple_t) : list tuple_t * bool :=
  match its with
  | [] => ([], found_flip)
  | it0 :: r =>
      let it := if restore && (Pn it0 =? inactive_partition - 1)
                then set_Pn (Pc it0) it0 else it0 in
      let next_pn := to_uint32 (Pn it) in
      if (Pn it =? prev_pn) || (Pn it =? Pc it) then
        if negb found_flip then
          let '(r', ff) := flip_loop restore min_pn true next_pn r in
          (set_Pc min_pn (set_Pn (Pc it) it) :: r', ff)
        else
          let '(r', ff) := flip_loop restore min_pn found_flip next_pn r in
          (set_Pc min_pn (set_Pn min_pn it) :: r', ff)
      else
        let '(r', ff) := flip_loop restore min_pn found_flip next_pn r in
        (set_Pn min_pn (swap_Pn_Pc it) :: r', ff)
  end.

(** The outcome of the scan of a range: the range as rewritten in place, the
    tuples pushed to [newtuples], and the value [done] has afterwards when it
    was [true] before. *)
Definition scanned : Type := list tuple_t * list tuple_t * bool.

(** [*(eqr.second-1)] of the bucket [first :: rest]. *)
Definition bucket_back (first : tuple_t) (rest : list tuple_t) : tuple_t :=
  default first (list.last rest).

(** The loop [for(; begin != end; )] over the local range, the same in both
    variants: find the bucket of [*begin], rewrite it, go on behind it. *)
Fixpoint scan_loop (scan_bucket : tuple_t -> list tuple_t -> scanned)
    (fuel : nat) (l : list tuple_t) : scanned :=
  match fuel with
  | O => (l, [], true)
  | S fuel' =>
      match l with
      | [] => ([], [], true)
      | x :: _ =>
          match findRange pc_comp l x with
          | (_, first :: rest, after) =>
              let '(b', new1, done1) := scan_bucket first rest in
              let '(l', new2, done2) := scan_loop scan_bucket fuel' after in
              (b' ++ l', new1 ++ new2, done1 && done2)
          | (_, [], _) => (l, [], true)
          end
      end
  end.

(** The buckets that loop visits, each as its first element and the rest. *)
Fixpoint buckets_loop (fuel : nat) (l : list tuple_t) : list (tuple_t * list tuple_t) :=
  match fuel with
  | O => []
  | S fuel' =>
      match l with
      | [] => []
      | x :: _ =>
          match findRange pc_comp l x with
          | (_, first :: rest, after) => (first, rest) :: buckets_loop fuel' after
          | (_, [], _) => []
          end
      end
  end.

Definition buckets (l : list tuple_t) : list (tuple_t * list tuple_t) :=
  buckets_loop (length l) l.

Module naive.

(** "get smallest Pn in bucket" *)
Definition min_pn (bd : boundary) (first : tuple_t) : Z :=
  if (rank bd >? 0) && (Pc (prev_min bd) =? Pc first)
  then Pn (prev_min bd) else Pn first.

(** "get largest Pn in bucket" *)
Definition max_pn (bd : boundary) (first : tuple_t) (rest : list tuple_t) : Z :=
  if (rank bd <? p bd - 1) && (Pc (next_max bd) =? Pc first)
  then Pn (next_max bd) else Pn (bucket_back first rest).

(** [rank == 0 || (rank > 0 && Pc(first) != Pc(prev_el))] *)
Definition starts_here (bd : boundary) (first : tuple_t) : bool :=
  (rank bd =? 0) || ((rank bd >? 0) && negb (Pc first =? Pc (prev_el bd))).

(** "remove single element buckets" *)
Definition is_single (bd : boundary) (first : tuple_t) (rest : list tuple_t) : bool :=
  bool_decide (rest = []) && starts_here bd first.

(** The bucket is neither single nor converged: the scan reaches
    [done = false]. *)
Definition unconverged (bd : boundary) (first : tuple_t) (rest : list tuple_t) : bool :=
  negb (is_single bd first rest) && negb (min_pn bd first =? max_pn bd first rest).

(** The rewriting of a bucket that is neither single nor converged, from
    [done = false] to the [push_back] of the flipped copy, with the label
    [min_pn]. *)
Definition flip_bucket (bd : boundary) (min_pn : Z) (first : tuple_t)
    (rest : list tuple_t) : scanned :=
  let '(skipped, its, prev_pn) :=
    if starts_here bd first
    then ([first], rest, to_uint32 min_pn)
    else ([], first :: rest, to_uint32 (Pn (prev_el bd))) in
  let '(its', found_flip) := flip_loop false min_pn false prev_pn its in
  let bucket' := skipped ++ its' in
  let newtuples :=
    if found_flip then []
    else [swap_Pn_Pc (default first (list.head bucket'))] in
  (bucket', newtuples, false).

(** One iteration of [for(; begin != end; )] of [cluster_reads_par], on
    the bucket [first :: rest]. *)
Definition scan_bucket (bd : boundary) (first : tuple_t) (rest : list tuple_t)
    : scanned :=
  let min_pn := min_pn bd first in
  let max_pn := max_pn bd first rest in
  if is_single bd first rest then
    ([set_Pc (Pn first) first], [], true)
  else if min_pn =? max_pn then
    (map (fun it => set_Pc (Pn it) it) (first :: rest), [], true)
  else
    flip_bucket bd min_pn first rest.

Definition scan (bd : boundary) (l : list tuple_t) : scanned :=
  scan_loop (scan_bucket bd) (length l) l.

End naive.

Module retire.

Definition min_pn (bd : boundary) (first : tuple_t) : Z :=
  if (active_rank bd >? 0) && (Pc (prev_min bd) =? Pc first)
  then Pn (prev_min bd) else Pn first.

Definition max_pn (bd : boundary) (first : tuple_t) (rest : list tuple_t) : Z :=
  if (active_rank bd <? active_p bd - 1) && (Pc (next_max bd) =? Pc first)
  then Pn (next_max bd) else Pn (bucket_back first rest).

(** [active_rank == 0 || (active_rank > 0 && Pc(first) != Pc(prev_el))] *)
Definition starts_here (bd : boundary) (first : tuple_t) : bool :=
  (active_rank bd =? 0)
  || ((active_rank bd >? 0) && negb (Pc first =? Pc (prev_el bd))).

(** [rank == 0 || (rank > 0 && Pc(first) != Pc(prev_el))], the test
    before the inner loop. *)
Definition skips_first (bd : boundary) (first : tuple_t) : bool :=
  (rank bd =? 0) || ((rank bd >? 0) && negb (Pc first =? Pc (prev_el bd))).

Definition is_single (bd : boundary) (first : tuple_t) (rest : list tuple_t) : bool :=
  bool_decide (rest = []) && starts_here bd first.

(** The bucket is neither single nor converged: the scan reaches
    [done = false]. *)
Definition unconverged (bd : boundary) (first : tuple_t) (rest : list tuple_t) : bool :=
  negb (is_single bd first rest) && negb (min_pn bd first =? max_pn bd first rest).

(** [if (min_pn > Pc(first)) min_pn = Pc(first)] *)
Definition lowered_min_pn (bd : boundary) (first : tuple_t) : Z :=
  if min_pn bd first >? Pc first then Pc first else min_pn bd first.

(** The rewriting of a bucket that is neither single nor converged, from
    [done = false] on, with the label [min_pn]. *)
Definition flip_bucket (bd : boundary) (min_pn : Z) (first : tuple_t)
    (rest : list tuple_t) : scanned :=
  let '(skipped, its, prev_pn) :=
    if skips_first bd first
    then ([if Pn first >? min_pn then set_Pn min_pn first else first],
          rest, to_uint32 min_pn)
    else ([], first :: rest, to_uint32 (Pn (prev_el bd))) in
  let '(its', found_flip) := flip_loop true min_pn false prev_pn its in
  let bucket' := skipped ++ its' in
  let newtuples :=
    if found_flip then []
    else [swap_Pn_Pc (default first (list.head bucket'))] in
  (bucket', newtuples, false).

(** One iteration of [for(; begin != pend; )] of
    [cluster_reads_par_inactive], on the bucket [first :: rest]. *)
Definition scan_bucket (bd : boundary) (first : tuple_t) (rest : list tuple_t)
    : scanned :=
  let min_pn0 := min_pn bd first in
  let max_pn := max_pn bd first rest in
  if is_single bd first rest then
    if Pn first =? inactive_partition - 1
    then ([set_Pn inactive_partition first], [], true)
    else ([set_Pc (Pn first) first], [], true)
  else if min_pn0 =? max_pn then
    if max_pn =? inactive_partition - 1 then
      (map (set_Pn inactive_partition) (first :: rest), [], true)
    else if Pc first =? max_pn then
      (map (set_Pn (inactive_partition - 1)) (first :: rest), [], true)
    else
      (map (fun it => set_Pc (Pn it) it) (first :: rest), [], true)
  else
    flip_bucket bd (lowered_min_pn bd first) first rest.

Definition scan (bd : boundary) (l : list tuple_t) : scanned :=
  scan_loop (scan_bucket bd) (length l) l.

End retire.

(** ** The collective layer

    The operations of mxx the engine calls, by their contracts.  A rank on
    the boundary of a scan or shift receives a value the contract leaves
    unspecified: [undef]. *)

Section mxx.
Context {A : Type}.
Variable undef : A.

(** [mxx::exscan(x, op, comm)]: rank [i] receives the reduction of the
    contributions of the ranks below it. *)
Definition exscan (op : A -> A -> A) (xs : list A) : list A :=
  imap (fun i _ => match take i xs with
                   | [] => undef
                   | x :: r => foldl op x r
                   end) xs.

(** [mxx::reverse_exscan(x, op, comm)]: the same from the last rank down. *)
Definition reverse_exscan (op : A -> A -> A) (xs : list A) : list A :=
  reverse (exscan op (reverse xs)).

(** [mxx::right_shift(x, comm)]: rank [i] receives from rank [i-1]. *)
Definition right_shift (xs : list A) : list A :=
  take (length xs) (undef :: xs).

(** [mxx::left_shift(x, comm)]: rank [i] receives from rank [i+1].  The
    retirement variant calls it for [next_el], which it never reads. *)
Definition left_shift (xs : list A) : list A :=
  match xs with
  | [] => []
  | _ :: r => r ++ [undef]
  end.

(** Cuts [l] into consecutive pieces of the given sizes. *)
Fixpoint chunks (sizes : list nat) (l : list A) : list (list A) :=
  match sizes with
  | [] => []
  | n :: ns => take n l :: chunks ns (drop n l)
  end.

(** [mxx::sort(begin, end, comp, comm, false)]: the ranges of all ranks
    are sorted as one sequence, and every rank keeps the size of its
    range. *)
Definition mxx_sort (comp : A -> A -> bool) (vs : list (list A)) : list (list A) :=
  chunks (map length vs) (std_sort comp (concat vs)).

(** The sizes of a block decomposition of [n] elements over [np] ranks. *)
Definition block_sizes (n np : nat) : list nat :=
  map (fun r => (n / np + (if r <? n mod np then 1 else 0))%nat) (seq 0 np).

(** [mxx::block_decompose(vector, comm)] *)
Definition block_decompose (vs : list (list A)) : list (list A) :=
  chunks (block_sizes (length (concat vs)) (length vs)) (concat vs).

(** [mxx::allgatherv(x, comm)] *)
Definition allgatherv (xss : list (list A)) : list (list A) :=
  replicate (length xss) (concat xss).

(** [mxx::all2all(buf, send_counts, comm)]: rank [r] cuts its buffer by
    its counts and sends the [j]-th piece to rank [j], which receives the
    pieces in the order of the sending ranks. *)
Definition all2all (bufs : list (list A)) (counts : list (list nat)) : list (list A) :=
  let msgs := zip_with (fun buf cnt => chunks cnt buf) bufs counts in
  imap (fun j _ => concat (map (fun m => default [] (m !! j)) msgs)) bufs.

(** [mxx::gather_vectors(x, comm)], to rank 0. *)
Definition gather_vectors (xss : list (list A)) : list (list A) :=
  imap (fun r _ => if (r =? 0)%nat then concat xss else []) xss.
End mxx.

(** [mxx::test_all(done)]: what every rank receives. *)
Definition test_all (flags : list bool) : list bool :=
  replicate (length flags) (forallb id flags).

(** ** Boundary state of a super-step *)

(** [*(end-1)] of a range that is not empty.  The ranges of the naive
    variant never shrink; the retirement variant reads the boundary state of
    the ranks with a non-empty range only. *)
Definition back (v : list tuple_t) : tuple_t := default tuple_zero (list.last v).

(** [last_min = *std::lower_bound(begin, end, *(end-1), pc_comp)] *)
Definition last_min (v : list tuple_t) : tuple_t :=
  default tuple_zero (v !! lower_bound pc_comp v 0 (length v) (back v)).

(** [first_max = *(std::upper_bound(begin, end, *begin, pc_comp)-1)] *)
Definition first_max (v : list tuple_t) : tuple_t :=
  default tuple_zero
    (v !! (upper_bound pc_comp v 0 (length v) (default tuple_zero (v !! 0%nat)) - 1)%nat).

(** ** The main loop *)

(** How a run of the loop on all ranks ends. *)
Inductive outcome (W : Type) : Type :=
  | Finished (ws : W) (countIterations : nat)
  | Desynchronised
  | OutOfFuel.
Arguments Finished {W} ws countIterations.
Arguments Desynchronised {W}.
Arguments OutOfFuel {W}.

Section main_loop.
Context {W : Type}.
(** One pass of the body on all ranks: the new state and the [done] flag
    of every rank. *)
Variable superstep : W -> W * list bool.

(** [while (keepGoing) { ...; keepGoing = !mxx::test_all(done); countIterations++; }]
    on every rank.  A rank leaves when its own [keepGoing] is false. *)
Fixpoint while_keepGoing (fuel : nat) (countIterations : nat) (ws : W) : outcome W :=
  match fuel with
  | O => OutOfFuel
  | S fuel' =>
      let '(ws', dones) := superstep ws in
      let keepGoing := map negb (test_all dones) in
      if forallb negb keepGoing then Finished ws' (S countIterations)
      else if forallb id keepGoing
           then while_keepGoing fuel' (S countIterations) ws'
           else Desynchronised
  end.

(** The state after [k] passes of the body. *)
Fixpoint after_supersteps (k : nat) (ws : W) : W :=
  match k with
  | O => ws
  | S k' => after_supersteps k' (superstep ws).1
  end.

(** Every rank votes [done] in the pass that starts from [ws]. *)
Definition all_done (ws : W) : Prop := Forall (fun d => d = true) (superstep ws).2.

(** The loop ends by the vote and by nothing else: no run ends with ranks in
    disagreement, and a run ends after pass [k] exactly when [k] is the first
    pass in which every rank votes [done]. *)
Definition exits_on_vote : Prop :=
  forall (fuel n : nat) (ws : W),
    while_keepGoing fuel n ws <> Desynchronised
    /\ forall (ws' : W) (m : nat),
         while_keepGoing fuel n ws = Finished ws' m <->
         exists k, (k < fuel)%nat /\ m = (n + k + 1)%nat
                   /\ ws' = after_supersteps (S k) ws
                   /\ all_done (after_supersteps k ws)
                   /\ forall j, (j < k)%nat -> ~ all_done (after_supersteps j ws).
End main_loop.

(** ** Seed extraction *)

(** The "local unique" loop of [get_partition_seeds]. *)
Fixpoint local_unique_from (prev : tuple_t) (v : list tuple_t) : list tuple_t :=
  match v with
  | [] => []
  | x :: r => if Pc prev <? Pc x then x :: local_unique_from x r
              else local_unique_from prev r
  end.

Definition local_unique (v : list tuple_t) : list tuple_t :=
  match v with
  | [] => []
  | x :: r => x :: local_unique_from x r
  end.

(** "compute the send count": the loop over the splitters, then "last 1". *)
Fixpoint send_counts_loop (seeds splitters : list tuple_t) (i b : nat)
    (send_counts : list nat) : list nat :=
  match splitters with
  | [] => <[i := (length seeds - b)%nat]> send_counts
  | s :: r =>
      let e := lower_bound pc_equal seeds b (length seeds) s in
      send_counts_loop seeds r (S i) e (<[i := (e - b)%nat]> send_counts)
  end.

Definition compute_send_counts (np : nat) (seeds splitters : list tuple_t) : list nat :=
  match seeds with
  | [] => replicate np 0%nat
  | _ => send_counts_loop seeds splitters 0 0 (replicate np 0%nat)
  end.

(** [get_partition_seeds(vector, comm)] on all ranks: the seeds every rank
    returns, and the vectors as the call leaves them. *)
Definition get_partition_seeds (vs : list (list tuple_t))
    : list (list tuple_t) * list (list tuple_t) :=
  let np := length vs in
  let vs1 := map (map (fun t => set_Pn (Pc t) t)) vs in
  let vs2 := if (1 <? np)%nat
             then mxx_sort pc_less (block_decompose vs1)
             else map (std_sort pc_less) vs1 in
  let seeds := map local_unique vs2 in
  if (1 <? np)%nat then
    let splitters :=
      allgatherv (imap (fun r s => match s with
                                   | x :: _ => if (0 <? r)%nat then [x] else []
                                   | [] => []
                                   end) seeds) in
    let send_counts := zip_with (compute_send_counts np) seeds splitters in
    let seeds' := all2all seeds send_counts in
    (map (fun s => std_unique pc_equal (std_sort pc_less s)) seeds', vs2)
  else (seeds, vs2).

(** What rank 0 writes to the seed file, one [Pc] per line. *)
Definition seed_file (seeds : list (list tuple_t)) : list Z :=
  let gathered := if (1 <? length seeds)%nat then gather_vectors seeds else seeds in
  map Pc (default [] (gathered !! 0%nat)).

(** ** The engine on all ranks *)

(** The state of the retirement variant on one rank: [localVector] and the
    offset of [pend] in it. *)
Definition rank_state : Type := list tuple_t * nat.

(** Step 4 of the retirement variant on one rank, first half: "insert at
    end and swap into active part of vector".  [v] is [localVector] after the
    scan, [active_size] the offset of [pend]; returns the vector and the
    offset of the new [pend]. *)
Definition insert_and_swap (v : list tuple_t) (active_size : nat)
    (newtuples : list tuple_t) : rank_state :=
  let nnew := length newtuples in
  let inactive_size := (length v - active_size)%nat in
  let v1 := v ++ newtuples in
  let nswap := (nnew `min` inactive_size)%nat in
  let v2 := foldl (fun w i => swap_at w (active_size + i) (length w - 1 - i))
                  v1 (seq 0 nswap) in
  (v2, (active_size + nnew)%nat).

(** The predicate given to [std::partition]. *)
Definition is_active (t : tuple_t) : bool := negb (Pn t =? inactive_partition).

(** Second half:
    [pend = std::partition(localVector.begin(), pend, Pn != inactive_partition)]. *)
Definition retire_inactive (s : rank_state) : rank_state :=
  let '(act, inact) := std_partition is_active (take s.2 s.1) in
  (act ++ inact ++ drop s.2 s.1, length act).

Definition append_and_retire (v : list tuple_t) (active_size : nat)
    (newtuples : list tuple_t) : rank_state :=
  retire_inactive (insert_and_swap v active_size newtuples).

(** [Graph500Generator::generate]: [result] is the edge array [make_graph]
    returns on the rank. *)
Definition generate (result : list (Z * Z)) : list tuple_t :=
  omap (fun e => if negb (e.1 =? -1) then Some (mk_tuple e.1 e.1 e.2) else None) result.

(** "remove the MAX thing after k-mer reduce"; [std::numeric_limits<int>::max()-Pn]
    with [Pn] the index of the layer. *)
Definition remove_max (t : tuple_t) : tuple_t :=
  if Pn t >=? (2 ^ 31 - 1) - 1 then set_Pn (Pc t) t else t.

(** How a run of the program ends. *)
Inductive run (R : Type) : Type :=
  | SeedsWritten (seeds : R) (countIterations : nat)
  | AssertionFailed (stage : nat)
  | RanksDisagree
  | StillRunning.
Arguments SeedsWritten {R} seeds countIterations.
Arguments AssertionFailed {R} stage.
Arguments RanksDisagree {R}.
Arguments StillRunning {R}.

Section engine.
(** What boundary ranks receive from scans and shifts. *)
Variable undef : tuple_t.
(** [KmerReduceAndMarkAsInactive<tuple_t>] of sortTuples.hpp, applied to the
    ranges of all ranks after the sort by k-mer. *)
Variable KmerReduceAndMarkAsInactive : list (list tuple_t) -> list (list tuple_t).
(** [mxx::block_decompose_partitions(begin, pend, end, comm)] on all ranks. *)
Variable block_decompose_partitions : list rank_state -> list rank_state.

(** The boundary state of a rank of the naive variant: the scans and
    shifts run on [MPI_COMM_WORLD]. *)
Definition naive_boundary (vs : list (list tuple_t)) (r : nat) : boundary :=
  mk_boundary (Z.of_nat r) (Z.of_nat (length vs))
    (Z.of_nat r) (Z.of_nat (length vs))
    (exscan undef exscan_op (map last_min vs) !!! r)
    (right_shift undef (map back vs) !!! r)
    (reverse_exscan undef reverse_exscan_op (map first_max vs) !!! r).

(** The body of [while (keepGoing)] of [cluster_reads_par]. *)
Definition naive_superstep (ws : list (list tuple_t)) : list (list tuple_t) * list bool :=
  let vs := mxx_sort pc_pn_less ws in
  let res := imap (fun r v => naive.scan (naive_boundary vs r) v) vs in
  (map (fun s => s.1.1 ++ s.1.2) res, map snd res).

(** The boundary state of a rank of the retirement variant: the scans and
    shifts run on [nonempty_comm], the ranks of colour 1. *)
Definition inactive_boundary (vs : list (list tuple_t)) (r : nat) : boundary :=
  let colour := fun v : list tuple_t => bool_decide (v <> []) in
  let mine := colour (vs !!! r) in
  let active_rank := length (filter (fun v => colour v = mine) (take r vs)) in
  let active_p := length (filter (fun v => colour v = mine) vs) in
  let group := filter (fun v => colour v = true) vs in
  if mine then
    mk_boundary (Z.of_nat r) (Z.of_nat (length vs))
      (Z.of_nat active_rank) (Z.of_nat active_p)
      (exscan undef exscan_op (map last_min group) !!! active_rank)
      (right_shift undef (map back group) !!! active_rank)
      (reverse_exscan undef reverse_exscan_op (map first_max group) !!! active_rank)
  else
    mk_boundary (Z.of_nat r) (Z.of_nat (length vs))
      (Z.of_nat active_rank) (Z.of_nat active_p)
      tuple_zero tuple_zero tuple_zero.

(** The body of [while (keepGoing)] of [cluster_reads_par_inactive]. *)
Definition inactive_superstep (load_balance : bool) (ws : list rank_state)
    : list rank_state * list bool :=
  let vs := mxx_sort pc_pn_less (map (fun s => take s.2 s.1) ws) in
  let res := imap (fun r v => retire.scan (inactive_boundary vs r) v) vs in
  let ws1 :=
    zip_with (fun (s : rank_state) (sc : scanned) =>
                append_and_retire (sc.1.1 ++ drop s.2 s.1) (length sc.1.1) sc.1.2)
             ws res in
  let ws2 := if load_balance then block_decompose_partitions ws1 else ws1 in
  (ws2, map snd res).

(** What precedes the loop in both variants: [assert(localVector.size() > 0)]
    on every rank, the sort by k-mer, the k-mer reduction and the removal of
    its marker.  [None] when the assertion fails on a rank. *)
Definition kmer_phase (generated : list (list tuple_t)) : option (list (list tuple_t)) :=
  if forallb (fun v => (0 <? length v)%nat) generated then
    Some (map (map remove_max)
            (KmerReduceAndMarkAsInactive (mxx_sort kmer_comp generated)))
  else None.

(** [cluster_reads_par] on all ranks, from the edge arrays of [make_graph],
    to the content of the seed file. *)
Definition cluster_reads_par (fuel : nat) (edges : list (list (Z * Z))) : run (list Z) :=
  match kmer_phase (map generate edges) with
  | None => AssertionFailed 0
  | Some ws =>
      match while_keepGoing naive_superstep fuel 0 ws with
      | Finished ws' n => SeedsWritten (seed_file (get_partition_seeds ws').1) n
      | Desynchronised => RanksDisagree
      | OutOfFuel => StillRunning
      end
  end.

(** [cluster_reads_par_inactive] on all ranks. *)
Definition cluster_reads_par_inactive (load_balance : bool) (fuel : nat)
    (edges : list (list (Z * Z))) : run (list Z) :=
  match kmer_phase (map generate edges) with
  | None => AssertionFailed 0
  | Some ws =>
      match while_keepGoing (inactive_superstep load_balance) fuel 0
              (map (fun v => (v, length v)) ws) with
      | Finished ws' n => SeedsWritten (seed_file (get_partition_seeds (map fst ws')).1) n
      | Desynchronised => RanksDisagree
      | OutOfFuel => StillRunning
      end
  end.
End engine.

(** ** The k-mer reduction *)

(** The smallest [Pc] of a run, starting from [m]. *)
Fixpoint min_Pc (m : Z) (run : list tuple_t) : Z :=
  match run with
  | [] => m
  | x :: r => min_Pc (Z.min m (Pc x)) r
  end.

Fixpoint kmer_reduce_loop (fuel : nat) (l : list tuple_t) : list tuple_t :=
  match fuel with
  | O => l
  | S fuel' =>
      match l with
      | [] => []
      | x :: _ =>
          let same := fun y => equivalent kmer_comp y x in
          let run := take_while same l in
          map (set_Pn (min_Pc (Pc x) run)) run
          ++ kmer_reduce_loop fuel' (drop_while same l)
      end
  end.

(** Modelled from the spec: [KmerReduceAndMarkAsInactive<tuple_t>] of
    sortTuples.hpp, which src/ calls and does not hold.  The ranges of all
    ranks are sorted by k-mer; in every maximal run of equal k-mer, across
    the boundaries of the ranks, [Pn] becomes the smallest [Pc] of the run
    (section 4.3 of the specification, step 2).  A marker the reduction
    leaves in [Pn] is replaced by [Pc] by the caller ([remove_max]). *)
Definition KmerReduceAndMarkAsInactive_spec (vs : list (list tuple_t))
    : list (list tuple_t) :=
  chunks (map length vs) (kmer_reduce_loop (length (concat vs)) (concat vs)).

(** ** Predicates of the properties *)




(** What both rewritings of a bucket keep: the tuples stay where they are
    with their k-mer, and at most one tuple is pushed, with the k-mer of the
    first tuple of the bucket. *)
Definition keeps_bucket (first : tuple_t) (rest : list tuple_t) (sc : scanned) : Prop :=
  Forall2 (fun t t' => kmer t' = kmer t) (first :: rest) sc.1.1
  /\ Forall (fun n => kmer n = kmer first) sc.1.2
  /\ (length sc.1.2 <= 1)%nat.

(** Two boundary states that differ at most in the values the scan of the
    naive variant does not read: [prev_min] and [prev_el] on rank 0,
    [next_max] on the last rank. *)
Definition naive_guarded (bd bd' : boundary) : Prop :=
  rank bd = rank bd' /\ p bd = p bd'
  /\ (rank bd <> 0 -> prev_min bd = prev_min bd' /\ prev_el bd = prev_el bd')
  /\ (rank bd < p bd - 1 -> next_max bd = next_max bd').

(** Two boundary states of a rank of [nonempty_comm] that differ at most in
    the values the first and the last rank of [nonempty_comm] receive, on a
    rank that is rank 0 of the world if it is rank 0 of [nonempty_comm]. *)
Definition retire_guarded (bd bd' : boundary) : Prop :=
  rank bd = rank bd' /\ active_rank bd = active_rank bd'
  /\ active_p bd = active_p bd'
  /\ (rank bd <> 0 -> active_rank bd > 0)
  /\ (active_rank bd > 0 -> prev_min bd = prev_min bd' /\ prev_el bd = prev_el bd')
  /\ (active_rank bd < active_p bd - 1 -> next_max bd = next_max bd').

(** The vector of a rank is split at [pend]: [pend] lies within it, no tuple
    before [pend] is retired, every tuple behind it is. *)
Definition split_at_pend (s : rank_state) : Prop :=
  (s.2 <= length s.1)%nat
  /\ Forall (fun t => Pn t <> inactive_partition) (take s.2 s.1)
  /\ Forall (fun t => Pn t = inactive_partition) (drop s.2 s.1).

(** Both labels of a tuple satisfy [P]. *)
Definition labelled (P : Z -> Prop) (t : tuple_t) : Prop := P (Pn t) /\ P (Pc t).

(** * statAndCompare: comparing two partitioning outputs *)

(** A [std::multimap<partitionIdType, KmerIdType>] is the list of its
    elements [(p_id, kmer)] in the order of iteration, which is by key,
    elements of equivalent key in the order they were inserted. *)

(** [multimap::insert(value)]: at the upper bound of the keys equivalent to
    the key of [kv]. *)
Fixpoint multimap_insert (m : list (Z * Z)) (kv : Z * Z) : list (Z * Z) :=
  match m with
  | [] => [kv]
  | e :: r => if kv.1 <? e.1 then kv :: e :: r else e :: multimap_insert r kv
  end.

(** The range from [multimap::upper_bound(k)] to [end()]. *)
Fixpoint multimap_upper_bound (k : Z) (m : list (Z * Z)) : list (Z * Z) :=
  match m with
  | [] => []
  | e :: r => if k <? e.1 then e :: r else multimap_upper_bound k r
  end.

(** The loop [for (iter = begin(); iter != end(); iter = upper_bound(iter->first))
    ++countPartitions], on the range from [iter] to [end()]. *)
Fixpoint count_partitions (fuel : nat) (m : list (Z * Z)) : nat :=
  match fuel with
  | O => O
  | S fuel' =>
      match m with
      | [] => O
      | e :: _ => S (count_partitions fuel' (multimap_upper_bound e.1 m))
      end
  end.

(** [createPartitionKmerMap(filename, pidKmersMap)] on the pairs
    [kmer p_id] that [infile >> kmer >> p_id] extracts from the file, in the
    order of the file: the map, and the number of partitions printed. *)
Definition createPartitionKmerMap (file : list (Z * Z)) : list (Z * Z) * nat :=
  let pidKmersMap := foldl (fun m rec => multimap_insert m (rec.2, rec.1)) [] file in
  (pidKmersMap, count_partitions (length pidKmersMap) pidKmersMap).

(** [resultsAreSame] of [main]: [pid_KmersMap1 == pid_KmersMap2]. *)
Definition resultsAreSame (file1 file2 : list (Z * Z)) : bool :=
  bool_decide ((createPartitionKmerMap file1).1 = (createPartitionKmerMap file2).1).

(** The records [while (infile >> kmer >> p_id)] extracts from a file of
    unsigned decimal numerals separated by white space, [kmer] being a
    [uint64_t] and [p_id] a [uint32_t]: the extraction of a numeral that does
    not fit its type fails, and the loop ends at the first failure or when
    the numerals run out. *)
Fixpoint read_records (numerals : list N) : list (Z * Z) :=
  match numerals with
  | kmer :: p_id :: rest =>
      if ((kmer <? 2 ^ 64) && (p_id <? 2 ^ 32))%N
      then (Z.of_N kmer, Z.of_N p_id) :: read_records rest
      else []
  | _ => []
  end.

(** [main] of statAndCompare on the numerals of its two files: [true] when
    it prints SUCCESS. *)
Definition statAndCompare_main (file1 file2 : list N) : bool :=
  resultsAreSame (read_records file1) (read_records file2).

(** The order of iteration of a multimap. *)
Definition by_key (a b : Z * Z) : Prop := a.1 <= b.1.

(** * Properties *)

(** ** Rewriting of one bucket *)

Lemma flip_loop_label restore m ff prev its :
  Forall (fun t' => Pn t' = m \/ Pc t' = m) (flip_loop restore m ff prev its).1.
Proof.
  revert ff prev. induction its as [|it0 r IH]; intros ff prev; simpl; [constructor|].
  set (it := if restore && (Pn it0 =? inactive_partition - 1) then _ else _).
  destruct ((Pn it =? prev) || (Pn it =? Pc it)).
  - destruct ff; simpl.
    + specialize (IH true (to_uint32 (Pn it))).
      destruct (flip_loop restore m true (to_uint32 (Pn it)) r); simpl in *.
      constructor; auto.
    + specialize (IH true (to_uint32 (Pn it))).
      destruct (flip_loop restore m true (to_uint32 (Pn it)) r); simpl in *.
      constructor; auto.
  - specialize (IH ff (to_uint32 (Pn it))).
    destruct (flip_loop restore m ff (to_uint32 (Pn it)) r); simpl in *.
    constructor; auto.
Qed.

(** The converged rule of the retirement variant, on the part of a bucket
    that a rank holds and does not treat as a single element, when the
    smallest and the largest [Pn] the rank computes agree: if the common [Pn]
    is [inactive_partition-1] every [Pn] becomes [inactive_partition];
    otherwise, if the [Pc] of the bucket equals it, every [Pn] becomes
    [inactive_partition-1]; otherwise every [Pc] becomes the [Pn] of its
    tuple.  No tuple is pushed and [done] is left alone. *)
Lemma retire_converged_rule (bd : boundary) (first : tuple_t) (rest : list tuple_t) :
  retire.is_single bd first rest = false ->
  retire.min_pn bd first = retire.max_pn bd first rest ->
  retire.scan_bucket bd first rest =
    (map (fun it =>
            if retire.max_pn bd first rest =? inactive_partition - 1
            then mk_tuple (kmer it) inactive_partition (Pc it)
            else if Pc first =? retire.max_pn bd first rest
                 then mk_tuple (kmer it) (inactive_partition - 1) (Pc it)
                 else mk_tuple (kmer it) (Pn it) (Pn it))
         (first :: rest),
     [], true).
Proof.
  intros Hsingle Heq. unfold retire.scan_bucket. rewrite Hsingle.
  rewrite Heq, Z.eqb_refl.
  destruct (retire.max_pn bd first rest =? inactive_partition - 1); [done|].
  destruct (Pc first =? retire.max_pn bd first rest); done.
Qed.

(** C2. The claim fails for a converged bucket whose first tuple is the last
    tuple of a rank.  Two ranks hold, sorted, the tuples
    [(kmer, Pn, Pc) = (1,4,4)] and [(2,4,4)]: one bucket of two tuples, with
    smallest and largest [Pn] equal to its [Pc].  Rank 0 holds one tuple of
    the bucket, and the bucket starts on it: the test "remove single element
    buckets", which looks at the previous rank only, takes it for a single
    element and leaves its [Pn] at 4.  Rank 1, where the bucket is shared
    with the left neighbour, applies the converged rule and sets the [Pn] of
    its tuple to [inactive_partition-1].  On one rank the same bucket is
    rewritten as a whole. *)
Theorem single_rule_splits_converged_bucket (undef : tuple_t)
    (bdp : list rank_state -> list rank_state) :
  let A := inactive_partition - 1 in
  let vs := [[mk_tuple 1 4 4]; [mk_tuple 2 4 4]] in
  mxx_sort pc_pn_less vs = vs
  /\ buckets (concat vs) = [(mk_tuple 1 4 4, [mk_tuple 2 4 4])]
  /\ retire.is_single (inactive_boundary undef vs 0) (mk_tuple 1 4 4) [] = true
  /\ retire.is_single (inactive_boundary undef vs 1) (mk_tuple 2 4 4) [] = false
  /\ retire.min_pn (inactive_boundary undef vs 1) (mk_tuple 2 4 4) = 4
  /\ retire.max_pn (inactive_boundary undef vs 1) (mk_tuple 2 4 4) [] = 4
  /\ (inactive_superstep undef bdp false
        [([mk_tuple 1 4 4], 1%nat); ([mk_tuple 2 4 4], 1%nat)]).1
     = [([mk_tuple 1 4 4], 1%nat); ([mk_tuple 2 A 4], 1%nat)]
  /\ (inactive_superstep undef bdp false
        [([mk_tuple 1 4 4; mk_tuple 2 4 4], 2%nat)]).1
     = [([mk_tuple 1 A 4; mk_tuple 2 A 4], 2%nat)].
Proof. vm_compute. repeat split; reflexivity. Qed.

(** C9. In a bucket that is neither single nor converged the retirement
    variant rewrites with the label [min (Pc of the bucket) (smallest Pn)]:
    every tuple the inner loop rewrites carries that label in [Pn] or in
    [Pc].  The naive variant rewrites with the smallest [Pn] itself, which is
    the [Pn] of the first tuple of the bucket or of [prev_min]. *)
Theorem lowered_label_in_retirement_only (bd : boundary) (first : tuple_t)
    (rest : list tuple_t) :
  (retire.is_single bd first rest = false ->
   retire.min_pn bd first <> retire.max_pn bd first rest ->
   let label := Z.min (Pc first) (retire.min_pn bd first) in
   retire.scan_bucket bd first rest = retire.flip_bucket bd label first rest
   /\ Forall (fun t' => Pn t' = label \/ Pc t' = label)
        (drop 1 (retire.scan_bucket bd first rest).1.1))
  /\ (naive.is_single bd first rest = false ->
      naive.min_pn bd first <> naive.max_pn bd first rest ->
      let label := naive.min_pn bd first in
      naive.scan_bucket bd first rest = naive.flip_bucket bd label first rest
      /\ Forall (fun t' => Pn t' = label \/ Pc t' = label)
           (drop 1 (naive.scan_bucket bd first rest).1.1))
  /\ (naive.min_pn bd first = Pn first \/ naive.min_pn bd first = Pn (prev_min bd)).
Proof.
  assert (Hlow : retire.lowered_min_pn bd first
                 = Z.min (Pc first) (retire.min_pn bd first)).
  { unfold retire.lowered_min_pn.
    destruct (Z.gtb_spec (retire.min_pn bd first) (Pc first)); lia. }
  split; [|split].
  - intros Hs Hne label. unfold retire.scan_bucket.
    rewrite Hs. apply Z.eqb_neq in Hne. rewrite Hne, Hlow. fold label.
    split; [done|].
    unfold retire.flip_bucket.
    destruct (retire.skips_first bd first).
    + pose proof (flip_loop_label true label false (to_uint32 label) rest) as H.
      destruct (flip_loop true label false (to_uint32 label) rest); apply H.
    + pose proof (flip_loop_label true label false (to_uint32 (Pn (prev_el bd)))
                    (first :: rest)) as H.
      destruct (flip_loop true label false _ (first :: rest)) as [its' ff].
      simpl in *. destruct its'; [constructor|]. simpl. rewrite drop_0.
      by inversion H.
  - intros Hs Hne label. unfold naive.scan_bucket.
    rewrite Hs. apply Z.eqb_neq in Hne. rewrite Hne. fold label.
    split; [done|].
    unfold naive.flip_bucket.
    destruct (naive.starts_here bd first).
    + pose proof (flip_loop_label false label false (to_uint32 label) rest) as H.
      destruct (flip_loop false label false (to_uint32 label) rest); apply H.
    + pose proof (flip_loop_label false label false (to_uint32 (Pn (prev_el bd)))
                    (first :: rest)) as H.
      destruct (flip_loop false label false _ (first :: rest)) as [its' ff].
      simpl in *. destruct its'; [constructor|]. simpl. rewrite drop_0.
      by inversion H.
  - unfold naive.min_pn. destruct (_ && _); auto.
Qed.

Lemma lowered_label_in_retirement_only_witness :
  let bd := mk_boundary 0 1 0 1 tuple_zero tuple_zero tuple_zero in
  retire.scan_bucket bd (mk_tuple 10 6 5) [mk_tuple 11 7 5]
    = retire.flip_bucket bd 5 (mk_tuple 10 6 5) [mk_tuple 11 7 5]
  /\ naive.scan_bucket bd (mk_tuple 10 6 5) [mk_tuple 11 7 5]
    = naive.flip_bucket bd 6 (mk_tuple 10 6 5) [mk_tuple 11 7 5].
Proof.
  intros bd.
  destruct (lowered_label_in_retirement_only bd (mk_tuple 10 6 5) [mk_tuple 11 7 5])
    as (Hr & Hn & _).
  split.
  - apply Hr; [reflexivity | vm_compute; discriminate].
  - apply Hn; [reflexivity | vm_compute; discriminate].
Defined.

(** ** The assertion on the generated buffer *)

(** C8. When the buffer [generate] fills is empty on some rank, both
    variants fail the assertion that precedes the sort by k-mer, whatever the
    k-mer reduction is; when it is empty on no rank, neither variant ends in
    a failed assertion. *)
Theorem empty_buffer_asserts (undef : tuple_t)
    (KmerReduce : list (list tuple_t) -> list (list tuple_t))
    (bdp : list rank_state -> list rank_state)
    (load_balance : bool) (fuel : nat) (edges : list (list (Z * Z))) :
  ((exists r result, edges !! r = Some result /\ generate result = []) ->
   kmer_phase KmerReduce (map generate edges) = None
   /\ cluster_reads_par undef KmerReduce fuel edges = AssertionFailed 0
   /\ cluster_reads_par_inactive undef KmerReduce bdp load_balance fuel edges
      = AssertionFailed 0)
  /\ (Forall (fun result => generate result <> []) edges ->
      forall stage,
        cluster_reads_par undef KmerReduce fuel edges <> AssertionFailed stage
        /\ cluster_reads_par_inactive undef KmerReduce bdp load_balance fuel edges
           <> AssertionFailed stage).
Proof.
  split.
  - intros (r & result & Hr & Hempty).
    assert (Hk : kmer_phase KmerReduce (map generate edges) = None).
    { unfold kmer_phase.
      destruct (forallb _ (map generate edges)) eqn:Hall; [|done].
      rewrite forallb_forall in Hall.
      specialize (Hall (generate result)).
      rewrite Hempty in Hall. simpl in Hall.
      exfalso. enough (false = true) by done. apply Hall.
      apply in_map_iff. exists result. split; [done|].
      apply list_elem_of_In. by eapply list_elem_of_lookup_2. }
    unfold cluster_reads_par, cluster_reads_par_inactive. by rewrite Hk.
  - intros Hall stage.
    assert (Hk : exists ws, kmer_phase KmerReduce (map generate edges) = Some ws).
    { unfold kmer_phase.
      assert (Hf : forallb (fun v => (0 <? length v)%nat) (map generate edges) = true).
      { apply forallb_forall. intros v Hv.
        apply in_map_iff in Hv as (result & <- & Hin).
        rewrite List.Forall_forall in Hall. specialize (Hall _ Hin).
        destruct (generate result); [done|]. reflexivity. }
      rewrite Hf. eauto. }
    destruct Hk as [ws Hk].
    unfold cluster_reads_par, cluster_reads_par_inactive. rewrite Hk.
    split.
    + by destruct (while_keepGoing _ _ _ _).
    + by destruct (while_keepGoing _ _ _ _).
Qed.

Lemma empty_buffer_asserts_witness :
  cluster_reads_par tuple_zero id 5 [[(1, 2)]; [(-1, 7)]] = AssertionFailed 0
  /\ cluster_reads_par tuple_zero id 5 [[(1, 2)]; [(3, 7)]] <> AssertionFailed 0.
Proof.
  split.
  - apply (proj1 (empty_buffer_asserts tuple_zero id id false 5 [[(1, 2)]; [(-1, 7)]])).
    exists 1%nat, [(-1, 7)]. split; reflexivity.
  - apply (proj2 (empty_buffer_asserts tuple_zero id id false 5 [[(1, 2)]; [(3, 7)]])).
    repeat constructor; discriminate.
Defined.

(** ** Seed extraction fails to merge a straddling seed *)

(** C7. Two ranks hold tuples whose [Pc] are 1, 3, 5 and 5, 7: the bucket
    of 5 straddles the two ranks.  The search for the splitter compares with
    [==], rank 0 sends all its seeds to rank 1 and rank 1 sends its seed 5 to
    rank 0, and the seed file holds 5 twice. *)
Theorem splitter_search_duplicates_seed :
  let vs := [[mk_tuple 1 1 1; mk_tuple 2 3 3; mk_tuple 3 5 5];
             [mk_tuple 4 5 5; mk_tuple 5 7 7]] in
  (get_partition_seeds vs).1
    = [[mk_tuple 4 5 5];
       [mk_tuple 1 1 1; mk_tuple 2 3 3; mk_tuple 3 5 5; mk_tuple 5 7 7]]
  /\ seed_file (get_partition_seeds vs).1 = [5; 1; 3; 5; 7]
  /\ ~ NoDup (seed_file (get_partition_seeds vs).1).
Proof.
  intros vs.
  assert (H : seed_file (get_partition_seeds vs).1 = [5; 1; 3; 5; 7])
    by (vm_compute; reflexivity).
  split; [vm_compute; reflexivity|]. split; [exact H|].
  rewrite H. intros Hnd. inversion Hnd as [|x l Hnotin _]; subst.
  apply Hnotin. do 2 apply list_elem_of_further. apply list_elem_of_here.
Qed.

(** ** A boundary value read under the wrong rank *)

(** C6. Rank 0 has retired all its tuples, rank 1 holds the bucket of
    [Pc = 0].  Rank 1 is the first rank of [nonempty_comm] and receives
    unspecified values for [prev_min] and [prev_el]; the bucket starts on it
    ([active_rank == 0]), but the test before the inner loop asks for
    [rank == 0] and compares with the [Pc] of [prev_el], so the outcome of the
    super-step changes with the value received. *)
Theorem first_nonempty_rank_reads_undef :
  let ws : list rank_state :=
    [([mk_tuple 1 inactive_partition 9], 0%nat);
     ([mk_tuple 2 0 0; mk_tuple 3 5 0], 2%nat)] in
  let vs := [[]; [mk_tuple 2 0 0; mk_tuple 3 5 0]] in
  active_rank (inactive_boundary tuple_zero vs 1) = 0
  /\ retire.starts_here (inactive_boundary tuple_zero vs 1) (mk_tuple 2 0 0) = true
  /\ retire.skips_first (inactive_boundary tuple_zero vs 1) (mk_tuple 2 0 0) = false
  /\ (inactive_superstep tuple_zero id false ws).1
     = [([mk_tuple 1 inactive_partition 9], 0%nat);
        ([mk_tuple 2 0 0; mk_tuple 3 0 5], 2%nat)]
  /\ (inactive_superstep (mk_tuple 0 0 1) id false ws).1
     = [([mk_tuple 1 inactive_partition 9], 0%nat);
        ([mk_tuple 2 0 0; mk_tuple 3 0 5; mk_tuple 2 0 0], 3%nat)].
Proof. vm_compute. repeat split; reflexivity. Qed.

(** ** The retirement step *)

Section partition_facts.
Context {A : Type}.
Implicit Types (pred : A -> bool) (l : list A).

Lemma strip_back_Some pred l a y fs :
  strip_back pred l = Some (a, y, fs) ->
  l = a ++ y :: fs /\ pred y = true /\ Forall (fun x => pred x = false) fs.
Proof.
  revert a y fs. induction l as [|x r IH]; intros a y fs; simpl; [done|].
  destruct (strip_back pred r) as [[[a' y'] fs']|] eqn:Hr.
  - intros [= <- <- <-]. destruct (IH _ _ _ eq_refl) as (-> & Hy & Hfs). done.
  - destruct (pred x) eqn:Hx; [|done].
    intros [= <- <- <-]. split; [done|]. split; [done|].
    clear IH Hx. revert Hr. induction r as [|z r IH]; simpl; [constructor|].
    destruct (strip_back pred r) as [[[? ?] ?]|]; [done|].
    destruct (pred z) eqn:Hz; [done|]. intros _. constructor; auto.
Qed.

Lemma strip_back_None pred l :
  strip_back pred l = None -> Forall (fun x => pred x = false) l.
Proof.
  induction l as [|x r IH]; simpl; [constructor|].
  destruct (strip_back pred r) as [[[? ?] ?]|]; [done|].
  destruct (pred x) eqn:Hx; [done|]. intros _. constructor; auto.
Qed.

Lemma partition_loop_spec fuel pred l a i :
  (length l <= fuel)%nat ->
  partition_loop fuel pred l = (a, i) ->
  Permutation (a ++ i) l
  /\ Forall (fun x => pred x = true) a
  /\ Forall (fun x => pred x = false) i.
Proof.
  revert l a i. induction fuel as [|fuel IH]; intros l a i Hlen; simpl.
  { destruct l; [|simpl in Hlen; lia]. intros [= <- <-]. by repeat constructor. }
  destruct l as [|x r]; [intros [= <- <-]; by repeat constructor|].
  simpl in Hlen. destruct (pred x) eqn:Hx.
  - destruct (partition_loop fuel pred r) as [a' i'] eqn:Hp.
    intros [= <- <-]. destruct (IH r a' i') as (Hperm & Ha & Hi); [lia|done|].
    split; [simpl; by constructor|]. split; [by constructor|done].
  - destruct (strip_back pred r) as [[[mid y] fs]|] eqn:Hs.
    + destruct (strip_back_Some _ _ _ _ _ Hs) as (-> & Hy & Hfs).
      destruct (partition_loop fuel pred mid) as [a' i'] eqn:Hp.
      intros [= <- <-].
      destruct (IH mid a' i') as (Hperm & Ha & Hi);
        [rewrite length_app in Hlen; lia|done|].
      split; [|split].
      * simpl. rewrite (app_assoc a' i'), Hperm.
        rewrite <- !Permutation_middle. apply perm_swap.
      * by constructor.
      * apply list.Forall_app. split; [done|by constructor].
    + intros [= <- <-]. split; [done|]. split; [constructor|].
      constructor; [done|by apply strip_back_None].
Qed.

Lemma std_partition_spec pred l a i :
  std_partition pred l = (a, i) ->
  Permutation (a ++ i) l
  /\ Forall (fun x => pred x = true) a
  /\ Forall (fun x => pred x = false) i.
Proof. by apply partition_loop_spec. Qed.

Lemma filter_all pred l :
  Forall (fun x => pred x = true) l -> filter pred l = l.
Proof.
  induction 1 as [|x l Hx _ IH]; [done|].
  rewrite filter_cons_True by (by rewrite Hx). by rewrite IH.
Qed.

Lemma filter_none pred l :
  Forall (fun x => pred x = false) l -> filter pred l = [].
Proof.
  induction 1 as [|x l Hx _ IH]; [done|].
  rewrite filter_cons_False by (rewrite Hx; intros []). done.
Qed.
End partition_facts.

(** C4 as stated fails.  On one rank the sorted active range holds a single
    tuple, a single tuple with [Pn = inactive_partition-1] and a bucket of
    two; the scan retires the second tuple and pushes one flipped tuple.
    [std::partition] swaps the retired tuple with the last tuple of the
    range, the appended one, which thereby overtakes the two active tuples
    that preceded it. *)
Lemma partition_reorders_active :
  let bd := mk_boundary 0 1 0 1 tuple_zero tuple_zero tuple_zero in
  let sc := retire.scan bd [mk_tuple 1 5 1; mk_tuple 2 (inactive_partition - 1) 2;
                            mk_tuple 3 3 4; mk_tuple 4 6 4] in
  let spliced := insert_and_swap sc.1.1 4 sc.1.2 in
  let retired := append_and_retire sc.1.1 4 sc.1.2 in
  spliced.1 = [mk_tuple 1 5 5; mk_tuple 2 inactive_partition 2;
               mk_tuple 3 3 4; mk_tuple 4 3 6; mk_tuple 3 4 3]
  /\ filter is_active (take spliced.2 spliced.1)
    = [mk_tuple 1 5 5; mk_tuple 3 3 4; mk_tuple 4 3 6; mk_tuple 3 4 3]
  /\ take retired.2 retired.1
    = [mk_tuple 1 5 5; mk_tuple 3 4 3; mk_tuple 3 3 4; mk_tuple 4 3 6]
  /\ take retired.2 retired.1 <> filter is_active (take spliced.2 spliced.1).
Proof. vm_compute. repeat split; [reflexivity..|discriminate]. Qed.

(** C4, amended.  After the new tuples are appended and swapped into the
    active range, [std::partition] rearranges the range [[begin, pend)] so
    that the tuples before the new [pend] are, as a multiset, the tuples of
    the range with [Pn != inactive_partition], the tuples from the new [pend]
    to the old one all have [Pn == inactive_partition], and the vector behind
    the old [pend] is untouched.  The order of the active tuples is not
    promised. *)
Theorem partition_retires_inactive (v : list tuple_t) (active_size : nat)
    (newtuples : list tuple_t) :
  let spliced := insert_and_swap v active_size newtuples in
  let retired := append_and_retire v active_size newtuples in
  Permutation (take retired.2 retired.1)
              (filter is_active (take spliced.2 spliced.1))
  /\ Forall (fun t => Pn t <> inactive_partition) (take retired.2 retired.1)
  /\ Forall (fun t => Pn t = inactive_partition)
       (take (spliced.2 - retired.2) (drop retired.2 retired.1))
  /\ (retired.2 <= spliced.2)%nat
  /\ Permutation (take spliced.2 retired.1) (take spliced.2 spliced.1)
  /\ drop spliced.2 retired.1 = drop spliced.2 spliced.1.
Proof.
  intros spliced retired. unfold retired, append_and_retire. fold spliced.
  destruct spliced as [w pend]. unfold retire_inactive. simpl.
  destruct (std_partition is_active (take pend w)) as [act inact] eqn:Hp.
  destruct (std_partition_spec _ _ _ _ Hp) as (Hperm & Hact & Hinact).
  simpl.
  assert (Hlen : (length act + length inact = length (take pend w))%nat).
  { rewrite <- length_app. by apply Permutation_length. }
  assert (Hle : (length (take pend w) <= pend)%nat) by (rewrite length_take; lia).
  rewrite take_app_length, drop_app_length.
  assert (Hfilter : filter is_active (take pend w) ≡ₚ act).
  { rewrite <- Hperm, list.filter_app, (filter_all _ _ Hact), (filter_none _ _ Hinact).
    by rewrite app_nil_r. }
  split; [by rewrite Hfilter|]. split.
  { eapply list.Forall_impl; [exact Hact|]. intros t Ht. unfold is_active in Ht.
    apply negb_true_iff, Z.eqb_neq in Ht. done. }
  split.
  { rewrite take_app. apply list.Forall_app. split.
    - apply Forall_take. eapply list.Forall_impl; [exact Hinact|].
      intros t Ht. unfold is_active in Ht.
      apply negb_false_iff, Z.eqb_eq in Ht. done.
    - replace (pend - length act - length inact)%nat with
        (pend - length (take pend w))%nat by lia.
      rewrite length_take.
      destruct (decide (pend <= length w)%nat).
      + replace (pend - pend `min` length w)%nat with 0%nat by lia. constructor.
      + rewrite drop_ge by lia. rewrite take_nil. constructor. }
  split; [lia|].
  rewrite app_assoc.
  destruct (decide (pend <= length w)%nat) as [Hpw|Hpw].
  - assert (length (act ++ inact) = pend).
    { rewrite length_app, Hlen, length_take. lia. }
    rewrite take_app_length', drop_app_length' by done. by split.
  - rewrite (drop_ge w) by lia. rewrite app_nil_r.
    assert (length (act ++ inact) = length w).
    { rewrite length_app, Hlen, length_take. lia. }
    rewrite !take_ge, drop_ge by lia.
    rewrite take_ge in Hperm by lia. by split.
Qed.

(** ** Sorting and redistribution *)

Section sort_facts.
Context {A : Type} (comp : A -> A -> bool).

Hypothesis comp_asym : forall x y, comp x y = true -> comp y x = false.
Hypothesis not_after_trans : forall x y z,
  not_after comp x y -> not_after comp y z -> not_after comp x z.

Lemma insert_sorted_Permutation x l : insert_sorted comp x l ≡ₚ x :: l.
Proof.
  induction l as [|y r IH]; simpl; [done|].
  destruct (comp y x); [|done]. rewrite IH. apply perm_swap.
Qed.

Lemma std_sort_Permutation l : std_sort comp l ≡ₚ l.
Proof.
  induction l as [|x r IH]; simpl; [done|].
  by rewrite insert_sorted_Permutation, IH.
Qed.

Lemma insert_sorted_sorted x l :
  StronglySorted (not_after comp) l -> StronglySorted (not_after comp) (insert_sorted comp x l).
Proof.
  induction 1 as [|y r Hr IH Hy]; simpl; [by repeat constructor|].
  destruct (comp y x) eqn:Hyx.
  - constructor; [done|].
    rewrite insert_sorted_Permutation. constructor; [|done].
    by apply comp_asym.
  - constructor; [by constructor|]. constructor; [done|].
    eapply list.Forall_impl; [exact Hy|]. intros z Hz.
    by apply (not_after_trans x y z).
Qed.

Lemma std_sort_sorted l : StronglySorted (not_after comp) (std_sort comp l).
Proof.
  induction l as [|x r IH]; simpl; [constructor|]. by apply insert_sorted_sorted.
Qed.
End sort_facts.

Lemma StronglySorted_weaken {A : Type} (R R' : A -> A -> Prop) (l : list A) :
  (forall x y, R x y -> R' x y) -> StronglySorted R l -> StronglySorted R' l.
Proof.
  intros HR. induction 1 as [|x l Hl IH Hx]; constructor; [done|].
  eapply list.Forall_impl; [exact Hx|]. auto.
Qed.

Lemma pc_less_sorted (l : list tuple_t) :
  StronglySorted (fun x y => Pc x <= Pc y) (std_sort pc_less l).
Proof.
  eapply StronglySorted_weaken; [|apply (std_sort_sorted pc_less)].
  - intros x y. unfold not_after, pc_less. lia.
  - unfold pc_less. intros x y. lia.
  - unfold not_after, pc_less. intros x y z. lia.
Qed.

Section chunk_facts.
Context {A : Type}.
Implicit Types (l : list A) (sizes : list nat).

Lemma concat_chunks sizes l :
  (length l <= sum_list sizes)%nat -> concat (chunks sizes l) = l.
Proof.
  revert l. induction sizes as [|n ns IH]; intros l Hl; simpl in *.
  - destruct l; [done|simpl in Hl; lia].
  - rewrite IH; [apply take_drop|]. rewrite length_drop. lia.
Qed.

Lemma length_chunks sizes l :
  (sum_list sizes <= length l)%nat -> map length (chunks sizes l) = sizes.
Proof.
  revert l. induction sizes as [|n ns IH]; intros l Hl; simpl in *; [done|].
  rewrite length_take, IH; [f_equal; lia|]. rewrite length_drop. lia.
Qed.

Lemma length_concat_sum (vs : list (list A)) :
  length (concat vs) = sum_list (map length vs).
Proof.
  induction vs as [|v vs IH]; simpl; [done|]. by rewrite length_app, IH.
Qed.
End chunk_facts.

Lemma sum_block_sizes (n np : nat) :
  (0 < np)%nat -> sum_list (block_sizes n np) = n.
Proof.
  intros Hnp. unfold block_sizes.
  pose proof (Nat.mod_upper_bound n np ltac:(lia)) as Hm.
  pose proof (Nat.div_mod_eq n np) as Hq.
  generalize dependent (n mod np)%nat. generalize dependent (n / np)%nat.
  intros q m Hm Hq.
  assert (H : forall k, sum_list (map (fun r => (q + (if r <? m then 1 else 0))%nat)
                                  (seq 0 k))
                   = (k * q + k `min` m)%nat).
  { induction k as [|k IH]; [done|].
    rewrite seq_S, map_app, sum_list_with_app, IH.
    change (sum_list_with id (map ?f [(0 + k)%nat])) with (f k + 0)%nat.
    cbv beta. destruct (Nat.ltb_spec k m); lia. }
  rewrite H. nia.
Qed.

Lemma mxx_sort_concat {A : Type} (comp : A -> A -> bool) (vs : list (list A)) :
  concat (mxx_sort comp vs) = std_sort comp (concat vs).
Proof.
  unfold mxx_sort. apply concat_chunks.
  rewrite <- length_concat_sum.
  apply Nat.eq_le_incl, Permutation_length, std_sort_Permutation.
Qed.

Lemma mxx_sort_lengths {A : Type} (comp : A -> A -> bool) (vs : list (list A)) :
  map length (mxx_sort comp vs) = map length vs.
Proof.
  unfold mxx_sort. apply length_chunks.
  rewrite <- length_concat_sum.
  apply Nat.eq_le_incl, Permutation_length. symmetry. apply std_sort_Permutation.
Qed.

Lemma block_decompose_concat {A : Type} (vs : list (list A)) :
  (0 < length vs)%nat -> concat (block_decompose vs) = concat vs.
Proof.
  intros Hp. unfold block_decompose. apply concat_chunks.
  by rewrite sum_block_sizes.
Qed.

Lemma block_decompose_lengths {A : Type} (vs : list (list A)) :
  (0 < length vs)%nat ->
  map length (block_decompose vs) = block_sizes (length (concat vs)) (length vs).
Proof.
  intros Hp. unfold block_decompose. apply length_chunks.
  by rewrite sum_block_sizes.
Qed.

(** ** Seed extraction rewrites the buffer of its caller *)

(** C10. [get_partition_seeds] leaves the vectors it was given changed: every
    tuple, retired or not, has [Pn = Pc]; the tuples are those given, with
    [Pn] so overwritten, in another order; on more than one rank the vectors
    are cut in blocks and sorted by [Pc] across the ranks, on one rank the
    vector is sorted by [Pc].  A vector holding a retired tuple before an
    active one comes back different. *)
Theorem seed_extraction_rewrites_buffer (vs : list (list tuple_t)) :
  let after := (get_partition_seeds vs).2 in
  let pn_to_pc := fun t => mk_tuple (kmer t) (Pc t) (Pc t) in
  Forall (Forall (fun t => Pn t = Pc t)) after
  /\ Permutation (concat after) (map pn_to_pc (concat vs))
  /\ ((1 < length vs)%nat ->
      StronglySorted (fun x y => Pc x <= Pc y) (concat after)
      /\ map length after = block_sizes (length (concat vs)) (length vs))
  /\ ((length vs <= 1)%nat ->
      Forall2 (fun v v' => Permutation v' (map pn_to_pc v)
                           /\ StronglySorted (fun x y => Pc x <= Pc y) v')
              vs after)
  /\ (get_partition_seeds [[mk_tuple 2 inactive_partition 7; mk_tuple 1 3 3]]).2
     = [[mk_tuple 1 3 3; mk_tuple 2 7 7]]
  /\ (get_partition_seeds [[mk_tuple 9 inactive_partition 9];
                           [mk_tuple 1 1 1; mk_tuple 2 2 2]]).2
     = [[mk_tuple 1 1 1; mk_tuple 2 2 2]; [mk_tuple 9 9 9]].
Proof.
  intros after pn_to_pc.
  set (vs1 := map (map (fun t => set_Pn (Pc t) t)) vs).
  assert (Hvs1 : concat vs1 = map pn_to_pc (concat vs)).
  { unfold vs1. clear. induction vs as [|v vs IH]; simpl; [done|].
    by rewrite map_app, IH. }
  assert (Hafter : after = if (1 <? length vs)%nat
                           then mxx_sort pc_less (block_decompose vs1)
                           else map (std_sort pc_less) vs1).
  { unfold after, get_partition_seeds. fold vs1.
    by destruct (1 <? length vs)%nat. }
  assert (Hlen1 : length vs1 = length vs) by (unfold vs1; by rewrite length_map).
  assert (Hperm : Permutation (concat after) (map pn_to_pc (concat vs))).
  { rewrite Hafter, <- Hvs1. destruct (Nat.ltb_spec 1 (length vs)).
    - rewrite mxx_sort_concat, std_sort_Permutation.
      rewrite block_decompose_concat by lia. done.
    - clear. induction vs1 as [|v vs1 IH]; simpl; [done|].
      by rewrite std_sort_Permutation, IH. }
  split.
  { apply Forall_concat. rewrite Hperm. apply List.Forall_map.
    apply Forall_true. done. }
  split; [done|]. split; [|split; [|split; vm_compute; reflexivity]].
  - intros Hp. rewrite Hafter. apply Nat.ltb_lt in Hp as Hp'. rewrite Hp'.
    rewrite mxx_sort_concat, mxx_sort_lengths.
    split; [apply pc_less_sorted|].
    rewrite block_decompose_lengths by lia.
    by rewrite Hlen1, Hvs1, length_map.
  - intros Hp. rewrite Hafter.
    replace (1 <? length vs)%nat with false by (symmetry; apply Nat.ltb_ge; lia).
    unfold vs1. clear. induction vs as [|v vs IH]; simpl; constructor; [|done].
    split; [apply std_sort_Permutation|apply pc_less_sorted].
Qed.

Lemma seed_extraction_rewrites_buffer_witness :
  let vs := [[mk_tuple 2 inactive_partition 7]; [mk_tuple 1 3 3; mk_tuple 4 1 5]] in
  let v1 := [[mk_tuple 2 inactive_partition 7; mk_tuple 1 3 3]] in
  (StronglySorted (fun x y => Pc x <= Pc y) (concat (get_partition_seeds vs).2)
   /\ map length (get_partition_seeds vs).2 = [2%nat; 1%nat])
  /\ Forall2 (fun v v' =>
                Permutation v' (map (fun t => mk_tuple (kmer t) (Pc t) (Pc t)) v)
                /\ StronglySorted (fun x y => Pc x <= Pc y) v')
             v1 (get_partition_seeds v1).2.
Proof.
  intros vs v1. split.
  - apply (proj1 (proj2 (proj2 (seed_extraction_rewrites_buffer vs)))).
    vm_compute. lia.
  - apply (proj1 (proj2 (proj2 (proj2 (seed_extraction_rewrites_buffer v1))))).
    vm_compute. lia.
Defined.

(** ** The loop over the buckets *)

Lemma equivalent_pc (x y : tuple_t) : equivalent pc_comp y x = true <-> Pc y = Pc x.
Proof. unfold equivalent, pc_comp. lia. Qed.

Lemma take_drop_while (f : tuple_t -> bool) (l : list tuple_t) :
  take_while f l ++ drop_while f l = l.
Proof. induction l as [|x r IH]; simpl; [done|]. destruct (f x); simpl; congruence. Qed.

Lemma length_drop_while (f : tuple_t -> bool) (l : list tuple_t) :
  (length (drop_while f l) <= length l)%nat.
Proof. induction l as [|x r IH]; simpl; [done|]. destruct (f x); simpl; lia. Qed.

Lemma take_while_Forall (f : tuple_t -> bool) (l : list tuple_t) :
  Forall (fun x => f x = true) (take_while f l).
Proof.
  induction l as [|x r IH]; simpl; [constructor|].
  destruct (f x) eqn:Hx; by constructor.
Qed.

Lemma findRange_head (x : tuple_t) (r : list tuple_t) :
  findRange pc_comp (x :: r) x
  = ([], x :: take_while (fun y => equivalent pc_comp y x) r,
     drop_while (fun y => equivalent pc_comp y x) r).
Proof.
  unfold findRange. cbn [take_while drop_while].
  rewrite (proj2 (equivalent_pc x x) eq_refl). cbn [negb take_while drop_while].
  by rewrite (proj2 (equivalent_pc x x) eq_refl).
Qed.

Lemma scan_loop_buckets (sb : tuple_t -> list tuple_t -> scanned) (fuel : nat)
    (l : list tuple_t) :
  (length l <= fuel)%nat ->
  scan_loop sb fuel l
  = (concat (map (fun b => (sb b.1 b.2).1.1) (buckets_loop fuel l)),
     concat (map (fun b => (sb b.1 b.2).1.2) (buckets_loop fuel l)),
     forallb (fun b => (sb b.1 b.2).2) (buckets_loop fuel l)).
Proof.
  revert l. induction fuel as [|fuel IH]; intros l Hl.
  { destruct l; [done|simpl in Hl; lia]. }
  destruct l as [|x r]; [done|].
  cbn [scan_loop buckets_loop]. rewrite findRange_head.
  set (rest := take_while _ r). set (after := drop_while _ r).
  rewrite (IH after).
  2:{ pose proof (length_drop_while (fun y => equivalent pc_comp y x) r).
      simpl in Hl. unfold after. lia. }
  simpl. by destruct (sb x rest) as [[b' new1] done1].
Qed.

Lemma buckets_loop_concat (fuel : nat) (l : list tuple_t) :
  (length l <= fuel)%nat ->
  concat (map (fun b => b.1 :: b.2) (buckets_loop fuel l)) = l.
Proof.
  revert l. induction fuel as [|fuel IH]; intros l Hl.
  { destruct l; [done|simpl in Hl; lia]. }
  destruct l as [|x r]; [done|].
  cbn [buckets_loop]. rewrite findRange_head. simpl.
  rewrite IH.
  - by rewrite take_drop_while.
  - pose proof (length_drop_while (fun y => equivalent pc_comp y x) r).
    simpl in Hl. lia.
Qed.

Lemma buckets_loop_same_pc (fuel : nat) (l : list tuple_t) :
  Forall (fun b => Forall (fun t => Pc t = Pc b.1) b.2) (buckets_loop fuel l).
Proof.
  revert l. induction fuel as [|fuel IH]; intros l; [constructor|].
  destruct l as [|x r]; [constructor|].
  cbn [buckets_loop]. rewrite findRange_head. constructor; [|apply IH].
  simpl. eapply list.Forall_impl; [apply take_while_Forall|].
  intros t Ht. by apply equivalent_pc.
Qed.

Lemma naive_bucket_done (bd : boundary) (first : tuple_t) (rest : list tuple_t) :
  (naive.scan_bucket bd first rest).2 = negb (naive.unconverged bd first rest).
Proof.
  unfold naive.scan_bucket, naive.unconverged.
  destruct (naive.is_single bd first rest); [done|].
  destruct (naive.min_pn bd first =? naive.max_pn bd first rest); [done|].
  unfold naive.flip_bucket.
  by destruct (naive.starts_here bd first); destruct (flip_loop _ _ _ _ _).
Qed.

Lemma retire_bucket_done (bd : boundary) (first : tuple_t) (rest : list tuple_t) :
  (retire.scan_bucket bd first rest).2 = negb (retire.unconverged bd first rest).
Proof.
  unfold retire.scan_bucket, retire.unconverged.
  destruct (retire.is_single bd first rest).
  { by destruct (Pn first =? inactive_partition - 1). }
  destruct (retire.min_pn bd first =? retire.max_pn bd first rest).
  { destruct (retire.max_pn bd first rest =? inactive_partition - 1); [done|].
    by destruct (Pc first =? retire.max_pn bd first rest). }
  unfold retire.flip_bucket.
  by destruct (retire.skips_first bd first); destruct (flip_loop _ _ _ _ _).
Qed.

Lemma forallb_done_Exists {A : Type} (done_of unconv : A -> bool) (bs : list A) :
  (forall b, done_of b = negb (unconv b)) ->
  forallb done_of bs = false <-> Exists (fun b => unconv b = true) bs.
Proof.
  intros Hb. induction bs as [|b bs IH]; simpl.
  - split; [done|]. by inversion 1.
  - rewrite Exists_cons, <- IH, andb_false_iff, Hb.
    destruct (unconv b); simpl; intuition congruence.
Qed.

Lemma naive_scan_done (bd : boundary) (l : list tuple_t) :
  (naive.scan bd l).2 = false <->
  Exists (fun b => naive.unconverged bd b.1 b.2 = true) (buckets l).
Proof.
  unfold naive.scan, buckets. rewrite scan_loop_buckets by done. simpl.
  apply (forallb_done_Exists _ (fun b => naive.unconverged bd b.1 b.2)).
  intros b. apply naive_bucket_done.
Qed.

Lemma retire_scan_done (bd : boundary) (l : list tuple_t) :
  (retire.scan bd l).2 = false <->
  Exists (fun b => retire.unconverged bd b.1 b.2 = true) (buckets l).
Proof.
  unfold retire.scan, buckets. rewrite scan_loop_buckets by done. simpl.
  apply (forallb_done_Exists _ (fun b => retire.unconverged bd b.1 b.2)).
  intros b. apply retire_bucket_done.
Qed.

(** ** The vote *)

Lemma forallb_replicate {A : Type} (f : A -> bool) (n : nat) (x : A) :
  forallb f (replicate n x) = (n =? 0)%nat || f x.
Proof.
  induction n as [|n IH]; [done|]. simpl. rewrite IH.
  destruct (f x), (n =? 0)%nat; done.
Qed.

Lemma forallb_id_Forall (dones : list bool) :
  forallb id dones = true <-> Forall (fun d => d = true) dones.
Proof.
  induction dones as [|d ds IH]; simpl.
  - split; [constructor|done].
  - rewrite andb_true_iff, IH, Forall_cons. done.
Qed.

Lemma keepGoing_replicate (dones : list bool) :
  map negb (test_all dones) = replicate (length dones) (negb (forallb id dones)).
Proof.
  unfold test_all. generalize (forallb id dones). intros a.
  induction (length dones) as [|n IH]; simpl; congruence.
Qed.

Lemma vote_all_leave (dones : list bool) :
  forallb negb (map negb (test_all dones)) = forallb id dones.
Proof.
  rewrite keepGoing_replicate, forallb_replicate, negb_involutive.
  destruct dones as [|d ds]; [done|]. done.
Qed.

Lemma vote_all_stay (dones : list bool) :
  forallb id dones = false -> forallb id (map negb (test_all dones)) = true.
Proof.
  intros H. rewrite keepGoing_replicate, forallb_replicate, H. simpl.
  apply orb_true_r.
Qed.

Lemma while_keepGoing_exits {W : Type} (superstep : W -> W * list bool) :
  exits_on_vote superstep.
Proof.
  intros fuel. induction fuel as [|fuel IH]; intros n ws.
  { split; [done|]. intros ws' m. split; [done|]. intros (k & Hk & _). lia. }
  cbn [while_keepGoing].
  destruct (superstep ws) as [ws1 dones] eqn:Hstep.
  rewrite vote_all_leave.
  assert (Hall : all_done superstep ws <-> forallb id dones = true).
  { unfold all_done. rewrite Hstep. simpl. by rewrite forallb_id_Forall. }
  destruct (forallb id dones) eqn:Hd.
  - split; [done|]. intros ws' m. split.
    + intros [= <- <-]. exists 0%nat. simpl. rewrite Hstep. simpl.
      split; [lia|]. split; [lia|]. split; [done|].
      split; [by apply Hall|]. intros j Hj. lia.
    + intros (k & Hk & -> & -> & Hdone & Hfirst).
      destruct k as [|k].
      * simpl. rewrite Hstep. simpl. f_equal. lia.
      * exfalso. apply (Hfirst 0%nat); [lia|]. simpl. by apply Hall.
  - rewrite vote_all_stay by done.
    destruct (IH (S n) ws1) as [Hsync Hfin]. split; [done|].
    intros ws' m. rewrite Hfin. split.
    + intros (k & Hk & -> & -> & Hdone & Hfirst).
      exists (S k). cbn [after_supersteps]. rewrite Hstep. simpl.
      split; [lia|]. split; [lia|]. split; [done|]. split; [done|].
      intros j Hj. destruct j as [|j].
      * simpl. rewrite Hall. done.
      * cbn [after_supersteps]. rewrite Hstep. simpl. apply Hfirst. lia.
    + intros (k & Hk & -> & -> & Hdone & Hfirst).
      destruct k as [|k].
      { exfalso. simpl in Hdone. apply Hall in Hdone. done. }
      exists k. cbn [after_supersteps] in *. rewrite Hstep in *. simpl in *.
      split; [lia|]. split; [lia|]. split; [done|]. split; [done|].
      intros j Hj. specialize (Hfirst (S j) ltac:(lia)).
      cbn [after_supersteps] in Hfirst. by rewrite Hstep in Hfirst.
Qed.














(** ** How a pass moves [Pc] *)

Lemma pc_pn_less_sorted (l : list tuple_t) :
  StronglySorted pc_pn_le (std_sort pc_pn_less l).
Proof.
  eapply StronglySorted_weaken; [|apply (std_sort_sorted pc_pn_less)].
  - intros x y. unfold not_after, pc_pn_less, pc_pn_le. lia.
  - unfold pc_pn_less. intros x y. lia.
  - unfold not_after, pc_pn_less. intros x y z. lia.
Qed.

Lemma Forall2_map_self {A B : Type} (R : A -> B -> Prop) (f : A -> B) (l : list A) :
  (forall x, R x (f x)) -> Forall2 R l (map f l).
Proof. intros H. induction l; simpl; constructor; auto. Qed.

Lemma flip_loop_pc restore m ff prev its :
  Forall2 (fun t t' => Pc t' = m \/ Pc t' = Pn t) its
          (flip_loop restore m ff prev its).1.
Proof.
  revert ff prev. induction its as [|it0 r IH]; intros ff prev; simpl; [constructor|].
  destruct (restore && (Pn it0 =? inactive_partition - 1)) eqn:Hres.
  - simpl. rewrite Z.eqb_refl, orb_true_r.
    destruct ff; simpl.
    + specialize (IH true (to_uint32 (Pc it0))).
      destruct (flip_loop restore m true _ r). constructor; simpl; auto.
    + specialize (IH true (to_uint32 (Pc it0))).
      destruct (flip_loop restore m true _ r). constructor; simpl; auto.
  - destruct ((Pn it0 =? prev) || (Pn it0 =? Pc it0)).
    + destruct ff; simpl.
      * specialize (IH true (to_uint32 (Pn it0))).
        destruct (flip_loop restore m true _ r). constructor; simpl; auto.
      * specialize (IH true (to_uint32 (Pn it0))).
        destruct (flip_loop restore m true _ r). constructor; simpl; auto.
    + specialize (IH ff (to_uint32 (Pn it0))).
      destruct (flip_loop restore m ff _ r). constructor; simpl; auto.
Qed.

Lemma naive_bucket_pc (bd : boundary) (first : tuple_t) (rest : list tuple_t) :
  Forall2 (fun t t' => Pc t' = Pc t \/ Pc t' = Pn t \/ Pc t' = naive.min_pn bd first)
          (first :: rest) (naive.scan_bucket bd first rest).1.1.
Proof.
  unfold naive.scan_bucket, naive.is_single.
  destruct (bool_decide (rest = [])) eqn:Hrest; simpl.
  - apply bool_decide_eq_true in Hrest as ->.
    destruct (naive.starts_here bd first) eqn:Hs; simpl.
    { constructor; [simpl; auto|constructor]. }
    destruct (naive.min_pn bd first =? naive.max_pn bd first []); simpl.
    { constructor; [simpl; auto|constructor]. }
    unfold naive.flip_bucket. rewrite Hs.
    pose proof (flip_loop_pc false (naive.min_pn bd first) false
                  (to_uint32 (Pn (prev_el bd))) [first]) as H.
    destruct (flip_loop false _ false _ [first]). simpl in *.
    eapply Forall2_impl; [exact H|]. simpl. intuition.
  - destruct (naive.min_pn bd first =? naive.max_pn bd first rest); simpl.
    { constructor; [simpl; auto|]. apply Forall2_map_self. simpl. auto. }
    unfold naive.flip_bucket. destruct (naive.starts_here bd first).
    + pose proof (flip_loop_pc false (naive.min_pn bd first) false
                    (to_uint32 (naive.min_pn bd first)) rest) as H.
      destruct (flip_loop false _ false _ rest). simpl in *.
      constructor; [auto|]. eapply Forall2_impl; [exact H|]. simpl. intuition.
    + pose proof (flip_loop_pc false (naive.min_pn bd first) false
                    (to_uint32 (Pn (prev_el bd))) (first :: rest)) as H.
      destruct (flip_loop false _ false _ (first :: rest)). simpl in *.
      eapply Forall2_impl; [exact H|]. simpl. intuition.
Qed.

Lemma retire_bucket_pc (bd : boundary) (first : tuple_t) (rest : list tuple_t) :
  Forall2 (fun t t' => Pc t' = Pc t \/ Pc t' = Pn t
                       \/ Pc t' = retire.lowered_min_pn bd first)
          (first :: rest) (retire.scan_bucket bd first rest).1.1.
Proof.
  assert (Hflip : Forall2 (fun t t' => Pc t' = Pc t \/ Pc t' = Pn t
                             \/ Pc t' = retire.lowered_min_pn bd first)
                    (first :: rest)
                    (retire.flip_bucket bd (retire.lowered_min_pn bd first) first rest).1.1).
  { unfold retire.flip_bucket. destruct (retire.skips_first bd first).
    + pose proof (flip_loop_pc true (retire.lowered_min_pn bd first) false
                    (to_uint32 (retire.lowered_min_pn bd first)) rest) as H.
      destruct (flip_loop true _ false _ rest). simpl in *.
      constructor.
      { destruct (Pn first >? retire.lowered_min_pn bd first); simpl; auto. }
      eapply Forall2_impl; [exact H|]. simpl. intuition.
    + pose proof (flip_loop_pc true (retire.lowered_min_pn bd first) false
                    (to_uint32 (Pn (prev_el bd))) (first :: rest)) as H.
      destruct (flip_loop true _ false _ (first :: rest)). simpl in *.
      eapply Forall2_impl; [exact H|]. simpl. intuition. }
  unfold retire.scan_bucket.
  destruct (retire.is_single bd first rest) eqn:Hsingle.
  { unfold retire.is_single in Hsingle. apply andb_true_iff in Hsingle as [Hrest _].
    apply bool_decide_eq_true in Hrest as ->.
    destruct (Pn first =? inactive_partition - 1);
      (constructor; [simpl; auto|constructor]). }
  destruct (retire.min_pn bd first =? retire.max_pn bd first rest); [|done].
  destruct (retire.max_pn bd first rest =? inactive_partition - 1).
  { apply (Forall2_map_self _ (set_Pn inactive_partition) (first :: rest)).
    simpl. auto. }
  destruct (Pc first =? retire.max_pn bd first rest).
  { apply (Forall2_map_self _ (set_Pn (inactive_partition - 1)) (first :: rest)).
    simpl. auto. }
  apply (Forall2_map_self _ (fun it => set_Pc (Pn it) it) (first :: rest)).
  simpl. auto.
Qed.

Lemma Forall2_concat_buckets (R : tuple_t -> tuple_t -> Prop)
    (out : tuple_t * list tuple_t -> list tuple_t) (bs : list (tuple_t * list tuple_t)) :
  Forall (fun b => Forall2 R (b.1 :: b.2) (out b)) bs ->
  Forall2 R (concat (map (fun b => b.1 :: b.2) bs)) (concat (map out bs)).
Proof.
  induction 1 as [|b bs Hb _ IH]; [constructor|].
  cbn [map concat]. by apply Forall2_app.
Qed.

Lemma StronglySorted_concat {A : Type} (R : A -> A -> Prop) (xs : list (list A)) :
  StronglySorted R (concat xs) -> Forall (StronglySorted R) xs.
Proof.
  induction xs as [|x xs IH]; simpl; [constructor|].
  intros H. constructor.
  - by apply StronglySorted_app_1_l in H.
  - apply IH. by apply StronglySorted_app_1_r in H.
Qed.

Lemma buckets_facts (P : tuple_t -> Prop) (l : list tuple_t) :
  StronglySorted pc_pn_le l ->
  Forall P l ->
  Forall (fun b => Forall (fun t => Pc t = Pc b.1 /\ Pn b.1 <= Pn t) b.2
                   /\ Forall P (b.1 :: b.2))
         (buckets l).
Proof.
  intros Hsorted HP.
  pose proof (buckets_loop_concat (length l) l (le_n _)) as Hconcat.
  pose proof (buckets_loop_same_pc (length l) l) as Hsame.
  fold (buckets l) in Hconcat, Hsame.
  rewrite <- Hconcat in Hsorted, HP. clear Hconcat.
  apply StronglySorted_concat in Hsorted. apply Forall_concat in HP.
  induction Hsame as [|[first rest] bs Hb _ IH]; [constructor|].
  simpl in *. inversion Hsorted as [|? ? Hs1 Hs2]; subst.
  inversion HP as [|? ? HP1 HP2]; subst.
  constructor; [|by apply IH]. simpl. split; [|done].
  apply StronglySorted_cons in Hs1 as [Hle _].
  apply list.Forall_forall. intros t Ht.
  rewrite list.Forall_forall in Hle, Hb.
  specialize (Hle t Ht). specialize (Hb t Ht). unfold pc_pn_le in Hle. lia.
Qed.

(** C3 as stated fails.  On one rank, in both variants: the second tuple of
    the bucket [(Pn, Pc) = (3, 5), (7, 5)] is rewritten by the edge rule to
    [(3, 7)], and the single tuple [(5, 3)] is rewritten to [(5, 5)].  On two
    ranks, in the naive variant, the tuple of k-mer 2 goes from
    [(Pn, Pc) = (2, 2)] to [(2, 1)] in the first pass, by the flip rule, and
    to [(1, 2)] in the second, by the edge rule: its [Pc] is 2, then 1, then
    2 again. *)
Lemma edge_rule_raises_pc :
  let bd := mk_boundary 0 1 0 1 tuple_zero tuple_zero tuple_zero in
  let ws := [[mk_tuple 1 1 2; mk_tuple 1 1 1; mk_tuple 1 1 1];
             [mk_tuple 2 2 2; mk_tuple 3 0 0; mk_tuple 3 0 3]] in
  (naive.scan bd [mk_tuple 10 3 5; mk_tuple 11 7 5]).1.1
    = [mk_tuple 10 3 5; mk_tuple 11 3 7]
  /\ (retire.scan bd [mk_tuple 10 3 5; mk_tuple 11 7 5]).1.1
    = [mk_tuple 10 3 5; mk_tuple 11 3 7]
  /\ (naive.scan bd [mk_tuple 12 5 3]).1.1 = [mk_tuple 12 5 5]
  /\ (retire.scan bd [mk_tuple 12 5 3]).1.1 = [mk_tuple 12 5 5]
  /\ ~ Forall2 (fun t t' => Pc t' <= Pc t)
        [mk_tuple 10 3 5; mk_tuple 11 7 5]
        (naive.scan bd [mk_tuple 10 3 5; mk_tuple 11 7 5]).1.1
  /\ after_supersteps (naive_superstep tuple_zero) 1 ws
     = [[mk_tuple 3 0 0; mk_tuple 1 1 1; mk_tuple 1 1 1];
        [mk_tuple 1 1 2; mk_tuple 2 2 1; mk_tuple 3 0 0]]
  /\ after_supersteps (naive_superstep tuple_zero) 2 ws
     = [[mk_tuple 3 0 0; mk_tuple 3 0 0; mk_tuple 1 1 1];
        [mk_tuple 1 1 1; mk_tuple 2 1 2; mk_tuple 1 1 1]].
Proof.
  vm_compute. repeat split; try reflexivity.
  intros H. inversion H as [|? ? ? ? _ H']; subst.
  inversion H' as [|? ? ? ? Hle _]; subst. simpl in Hle. by apply Hle.
Qed.

(** C3, amended.  The scan of a range sorted by [(Pc, Pn)], with [prev_min]
    not above the tuples of its bucket, never leaves a tuple with a [Pc]
    larger than the larger of its [Pc] and its [Pn] before the scan: a tuple
    whose [Pn] was not above its [Pc] keeps or lowers its [Pc].  The tuples
    stay in place during the scan, so the two ranges correspond position by
    position. *)
Theorem pc_bounded_by_pc_and_pn (bd : boundary) (l : list tuple_t) :
  StronglySorted pc_pn_le l ->
  Forall (fun t => Pc (prev_min bd) = Pc t -> Pn (prev_min bd) <= Pn t) l ->
  Forall2 (fun t t' => Pc t' <= Z.max (Pc t) (Pn t)
                       /\ (Pn t <= Pc t -> Pc t' <= Pc t))
          l (naive.scan bd l).1.1
  /\ Forall2 (fun t t' => Pc t' <= Z.max (Pc t) (Pn t)
                          /\ (Pn t <= Pc t -> Pc t' <= Pc t))
             l (retire.scan bd l).1.1.
Proof.
  intros Hsorted Hprev.
  pose proof (buckets_facts _ l Hsorted Hprev) as Hb.
  pose proof (buckets_loop_concat (length l) l (le_n _)) as Hconcat.
  fold (buckets l) in Hconcat.
  unfold naive.scan, retire.scan. rewrite !scan_loop_buckets by done.
  fold (buckets l). cbn [fst].
  split.
  - rewrite <- Hconcat at 1. apply Forall2_concat_buckets.
    eapply list.Forall_impl; [exact Hb|]. intros [first rest] [Hrest HP]. simpl in *.
    assert (Hmin : naive.min_pn bd first <= Pn first).
    { unfold naive.min_pn. destruct (rank bd >? 0); simpl; [|lia].
      destruct (Z.eqb_spec (Pc (prev_min bd)) (Pc first)) as [Heq|]; [|lia].
      inversion HP; subst. auto. }
    assert (Hall : Forall (fun t => Pc t = Pc first /\ Pn first <= Pn t) (first :: rest)).
    { constructor; [lia|done]. }
    pose proof (naive_bucket_pc bd first rest) as H.
    revert H Hall. generalize (naive.scan_bucket bd first rest).1.1.
    generalize (first :: rest). intros ts ts' H.
    induction H as [|t t' ts ts' Ht _ IH]; [constructor|].
    intros Hall. inversion Hall as [|? ? [Hpc Hpn] Hall']; subst.
    constructor; [lia|by apply IH].
  - rewrite <- Hconcat at 1. apply Forall2_concat_buckets.
    eapply list.Forall_impl; [exact Hb|]. intros [first rest] [Hrest HP]. simpl in *.
    assert (Hmin : retire.lowered_min_pn bd first <= Pc first).
    { unfold retire.lowered_min_pn.
      destruct (Z.gtb_spec (retire.min_pn bd first) (Pc first)); lia. }
    assert (Hall : Forall (fun t => Pc t = Pc first /\ Pn first <= Pn t) (first :: rest)).
    { constructor; [lia|done]. }
    pose proof (retire_bucket_pc bd first rest) as H.
    revert H Hall. generalize (retire.scan_bucket bd first rest).1.1.
    generalize (first :: rest). intros ts ts' H.
    induction H as [|t t' ts ts' Ht _ IH]; [constructor|].
    intros Hall. inversion Hall as [|? ? [Hpc Hpn] Hall']; subst.
    constructor; [lia|by apply IH].
Qed.

Lemma pc_bounded_by_pc_and_pn_witness :
  let bd := mk_boundary 0 1 0 1 tuple_zero tuple_zero tuple_zero in
  let l := [mk_tuple 10 3 5; mk_tuple 11 5 5; mk_tuple 12 4 6] in
  Forall2 (fun t t' => Pc t' <= Z.max (Pc t) (Pn t)
                       /\ (Pn t <= Pc t -> Pc t' <= Pc t))
          l (naive.scan bd l).1.1.
Proof.
  intros bd l.
  apply (proj1 (pc_bounded_by_pc_and_pn bd l
                  ltac:(repeat constructor; unfold pc_pn_le; simpl; lia)
                  ltac:(repeat constructor; simpl; intros; discriminate))).
Defined.

(** ** The variants on two ranks *)

(** C1. Two ranks generate the edges (1,2), (2,2), (1,1) and (1,1), (3,0),
    (3,3).  After the k-mer reduction the tuples are, as [(Pn, Pc)]:
    (1,2), (1,1), (1,1), (2,2), (0,0), (0,3).  Both variants flip (2,2) to
    [(Pn, Pc) = (2,1)] in the first pass.  In the second pass of the
    retirement variant the two converged tuples of the bucket of [Pc = 1]
    carry [Pn = inactive_partition-1] and sort behind the flipped tuple,
    which becomes the last tuple of rank 0 and the only one of its bucket
    there: the single-element rule, which does not look at the next rank,
    sets its [Pc] back to 2.  The naive variant ends with the seeds 0 and 1,
    the retirement variant with 0, 1 and 2, whatever the boundary ranks
    receive from the scans and whatever fuel is left. *)
Theorem variants_disagree_on_two_ranks (undef : tuple_t)
    (bdp : list rank_state -> list rank_state) (more : nat) :
  let edges := [[(1, 2); (2, 2); (1, 1)]; [(1, 1); (3, 0); (3, 3)]] in
  let A := inactive_partition - 1 in
  kmer_phase KmerReduceAndMarkAsInactive_spec (map generate edges)
    = Some [[mk_tuple 1 1 2; mk_tuple 1 1 1; mk_tuple 1 1 1];
            [mk_tuple 2 2 2; mk_tuple 3 0 0; mk_tuple 3 0 3]]
  /\ after_supersteps (inactive_superstep undef bdp false) 1
       [([mk_tuple 1 1 2; mk_tuple 1 1 1; mk_tuple 1 1 1], 3%nat);
        ([mk_tuple 2 2 2; mk_tuple 3 0 0; mk_tuple 3 0 3], 3%nat)]
     = [([mk_tuple 3 0 0; mk_tuple 1 A 1; mk_tuple 1 A 1], 3%nat);
        ([mk_tuple 1 1 2; mk_tuple 2 2 1; mk_tuple 3 0 0], 3%nat)]
  /\ after_supersteps (inactive_superstep undef bdp false) 2
       [([mk_tuple 1 1 2; mk_tuple 1 1 1; mk_tuple 1 1 1], 3%nat);
        ([mk_tuple 2 2 2; mk_tuple 3 0 0; mk_tuple 3 0 3], 3%nat)]
     = [([mk_tuple 3 A 0; mk_tuple 3 A 0; mk_tuple 2 2 2], 3%nat);
        ([mk_tuple 1 1 1; mk_tuple 1 1 1; mk_tuple 1 1 1], 3%nat)]
  /\ cluster_reads_par undef KmerReduceAndMarkAsInactive_spec (3 + more) edges
     = SeedsWritten [0; 1] 3
  /\ cluster_reads_par_inactive undef KmerReduceAndMarkAsInactive_spec bdp false
       (3 + more) edges
     = SeedsWritten [0; 1; 2] 3.
Proof. vm_compute. repeat split; reflexivity. Qed.

(** * Further properties of the engine *)

(** ** What a scan keeps *)

Lemma flip_loop_kmer restore m ff prev its :
  Forall2 (fun t t' => kmer t' = kmer t) its (flip_loop restore m ff prev its).1.
Proof.
  revert ff prev. induction its as [|it0 r IH]; intros ff prev; simpl; [constructor|].
  set (it := if restore && (Pn it0 =? inactive_partition - 1) then _ else _).
  assert (Hk : kmer it = kmer it0) by (unfold it; by destruct (_ && _)).
  destruct ((Pn it =? prev) || (Pn it =? Pc it)).
  - destruct ff; simpl.
    + specialize (IH true (to_uint32 (Pn it))).
      destruct (flip_loop restore m true _ r). by constructor.
    + specialize (IH true (to_uint32 (Pn it))).
      destruct (flip_loop restore m true _ r). by constructor.
  - specialize (IH ff (to_uint32 (Pn it))).
    destruct (flip_loop restore m ff _ r). by constructor.
Qed.

Lemma naive_bucket_keeps (bd : boundary) (first : tuple_t) (rest : list tuple_t) :
  keeps_bucket first rest (naive.scan_bucket bd first rest).
Proof.
  unfold keeps_bucket, naive.scan_bucket.
  destruct (naive.is_single bd first rest) eqn:Hs.
  { unfold naive.is_single in Hs. apply andb_true_iff in Hs as [Hr _].
    apply bool_decide_eq_true in Hr as ->. simpl.
    split; [by repeat constructor|]. split; [constructor|lia]. }
  destruct (naive.min_pn bd first =? naive.max_pn bd first rest).
  { simpl. split; [|split; [constructor|lia]].
    constructor; [done|]. by apply Forall2_map_self. }
  unfold naive.flip_bucket. destruct (naive.starts_here bd first).
  - pose proof (flip_loop_kmer false (naive.min_pn bd first) false
                  (to_uint32 (naive.min_pn bd first)) rest) as H.
    destruct (flip_loop false _ false _ rest) as [its' ff]. simpl in *.
    split; [by constructor|].
    destruct ff; simpl; (split; [repeat constructor|lia]).
  - pose proof (flip_loop_kmer false (naive.min_pn bd first) false
                  (to_uint32 (Pn (prev_el bd))) (first :: rest)) as H.
    destruct (flip_loop false _ false _ (first :: rest)) as [its' ff].
    cbn [fst snd app] in *. split; [done|].
    inversion H as [|? y ? l' Hy Hl']; subst.
    destruct ff; simpl; (split; [repeat constructor; done|lia]).
Qed.

Lemma retire_bucket_keeps (bd : boundary) (first : tuple_t) (rest : list tuple_t) :
  keeps_bucket first rest (retire.scan_bucket bd first rest).
Proof.
  unfold keeps_bucket, retire.scan_bucket.
  destruct (retire.is_single bd first rest) eqn:Hs.
  { unfold retire.is_single in Hs. apply andb_true_iff in Hs as [Hr _].
    apply bool_decide_eq_true in Hr as ->.
    destruct (Pn first =? inactive_partition - 1); simpl;
      (split; [by repeat constructor|]; split; [constructor|lia]). }
  destruct (retire.min_pn bd first =? retire.max_pn bd first rest).
  { destruct (retire.max_pn bd first rest =? inactive_partition - 1);
      [|destruct (Pc first =? retire.max_pn bd first rest)]; simpl;
      (split; [|split; [constructor|lia]]);
      (constructor; [done|]; by apply Forall2_map_self). }
  unfold retire.flip_bucket. set (m := retire.lowered_min_pn bd first).
  destruct (retire.skips_first bd first).
  - pose proof (flip_loop_kmer true m false (to_uint32 m) rest) as H.
    destruct (flip_loop true _ false _ rest) as [its' ff]. simpl in *.
    split; [constructor; [by destruct (Pn first >? m)|done]|].
    destruct ff; simpl; (split; [repeat constructor|lia]).
    by destruct (Pn first >? m).
  - pose proof (flip_loop_kmer true m false
                  (to_uint32 (Pn (prev_el bd))) (first :: rest)) as H.
    destruct (flip_loop true _ false _ (first :: rest)) as [its' ff].
    cbn [fst snd app] in *. split; [done|].
    inversion H as [|? y ? l' Hy Hl']; subst.
    destruct ff; simpl; (split; [repeat constructor; done|lia]).
Qed.

Lemma buckets_first_in (fuel : nat) (l : list tuple_t) :
  (length l <= fuel)%nat ->
  Forall (fun b => b.1 ∈ l) (buckets_loop fuel l).
Proof.
  intros Hl. pose proof (buckets_loop_concat fuel l Hl) as Hc.
  assert (H : forall bs : list (tuple_t * list tuple_t),
             Forall (fun b => b.1 ∈ concat (map (fun b => b.1 :: b.2) bs)) bs).
  { induction bs as [|[first rest] bs IH]; [constructor|].
    constructor.
    - simpl. apply list_elem_of_here.
    - eapply list.Forall_impl; [exact IH|]. intros b Hb. cbn [map concat].
      apply list.elem_of_app. by right. }
  specialize (H (buckets_loop fuel l)). by rewrite Hc in H.
Qed.

Lemma scan_loop_keeps (sb : tuple_t -> list tuple_t -> scanned) (l : list tuple_t) :
  (forall first rest, keeps_bucket first rest (sb first rest)) ->
  Forall2 (fun t t' => kmer t' = kmer t) l (scan_loop sb (length l) l).1.1
  /\ Forall (fun n => exists t, t ∈ l /\ kmer n = kmer t) (scan_loop sb (length l) l).1.2
  /\ (length (scan_loop sb (length l) l).1.2 <= length (buckets l))%nat.
Proof.
  intros Hsb. rewrite scan_loop_buckets by done. cbn [fst snd].
  pose proof (buckets_loop_concat (length l) l (le_n _)) as Hc.
  pose proof (buckets_first_in (length l) l (le_n _)) as Hin.
  unfold buckets. split; [|split].
  - rewrite <- Hc at 1. apply Forall2_concat_buckets.
    apply list.Forall_forall. intros [first rest] _. apply Hsb.
  - apply Forall_concat, list.Forall_fmap.
    eapply list.Forall_impl; [exact Hin|]. intros [first rest] Hb. simpl in *.
    eapply list.Forall_impl; [apply Hsb|]. intros n Hn. eauto.
  - clear Hc Hin. induction (buckets_loop (length l) l) as [|[first rest] bs IH];
      [done|].
    cbn [map concat length]. rewrite length_app.
    pose proof (proj2 (proj2 (Hsb first rest))). simpl in *. lia.
Qed.

(** X1. A scan, in either variant, leaves every tuple of the range in its
    place with its k-mer, so the range keeps its length; it pushes at most
    one tuple per bucket, and every pushed tuple has the k-mer of a tuple of
    the range. *)
Theorem scan_keeps_tuples (bd : boundary) (l : list tuple_t) :
  (Forall2 (fun t t' => kmer t' = kmer t) l (naive.scan bd l).1.1
   /\ length (naive.scan bd l).1.1 = length l
   /\ Forall (fun n => exists t, t ∈ l /\ kmer n = kmer t) (naive.scan bd l).1.2
   /\ (length (naive.scan bd l).1.2 <= length (buckets l))%nat)
  /\ (Forall2 (fun t t' => kmer t' = kmer t) l (retire.scan bd l).1.1
      /\ length (retire.scan bd l).1.1 = length l
      /\ Forall (fun n => exists t, t ∈ l /\ kmer n = kmer t) (retire.scan bd l).1.2
      /\ (length (retire.scan bd l).1.2 <= length (buckets l))%nat).
Proof.
  split.
  - destruct (scan_loop_keeps (naive.scan_bucket bd) l (naive_bucket_keeps bd))
      as (H1 & H2 & H3).
    unfold naive.scan. split; [done|]. split; [|done].
    symmetry. by eapply Forall2_length.
  - destruct (scan_loop_keeps (retire.scan_bucket bd) l (retire_bucket_keeps bd))
      as (H1 & H2 & H3).
    unfold retire.scan. split; [done|]. split; [|done].
    symmetry. by eapply Forall2_length.
Qed.

(** ** A pass in which a rank votes [done] *)

Lemma naive_bucket_settled (bd : boundary) (first : tuple_t) (rest : list tuple_t) :
  naive.unconverged bd first rest = false ->
  naive.scan_bucket bd first rest
  = (map (fun t => set_Pc (Pn t) t) (first :: rest), [], true).
Proof.
  unfold naive.unconverged, naive.scan_bucket.
  destruct (naive.is_single bd first rest) eqn:Hs.
  { unfold naive.is_single in Hs. apply andb_true_iff in Hs as [Hr _].
    by apply bool_decide_eq_true in Hr as ->. }
  by destruct (naive.min_pn bd first =? naive.max_pn bd first rest).
Qed.

Lemma retire_bucket_settled (bd : boundary) (first : tuple_t) (rest : list tuple_t) :
  retire.unconverged bd first rest = false ->
  (retire.scan_bucket bd first rest).1.2 = []
  /\ Forall2 (fun t t' => t' = set_Pc (Pn t) t
                          \/ t' = set_Pn (inactive_partition - 1) t
                          \/ t' = set_Pn inactive_partition t)
             (first :: rest) (retire.scan_bucket bd first rest).1.1.
Proof.
  unfold retire.unconverged, retire.scan_bucket.
  destruct (retire.is_single bd first rest) eqn:Hs.
  { unfold retire.is_single in Hs. apply andb_true_iff in Hs as [Hr _].
    apply bool_decide_eq_true in Hr as ->. intros _.
    destruct (Pn first =? inactive_partition - 1); simpl;
      (split; [done|]); (constructor; [auto|constructor]). }
  destruct (retire.min_pn bd first =? retire.max_pn bd first rest); [|done].
  intros _.
  destruct (retire.max_pn bd first rest =? inactive_partition - 1);
    [|destruct (Pc first =? retire.max_pn bd first rest)];
    (split; [done|]); cbn [fst snd];
    [apply (Forall2_map_self _ (set_Pn inactive_partition) (first :: rest))
    |apply (Forall2_map_self _ (set_Pn (inactive_partition - 1)) (first :: rest))
    |apply (Forall2_map_self _ (fun it => set_Pc (Pn it) it) (first :: rest))];
    auto.
Qed.

Lemma forallb_done_Forall {A : Type} (done_of unconv : A -> bool) (bs : list A) :
  (forall b, done_of b = negb (unconv b)) ->
  forallb done_of bs = true -> Forall (fun b => unconv b = false) bs.
Proof.
  intros Hb. induction bs as [|b bs IH]; simpl; [constructor|].
  rewrite andb_true_iff, Hb. intros [H1 H2]. constructor; [|auto].
  by destruct (unconv b).
Qed.

Lemma naive_scan_settled (bd : boundary) (l : list tuple_t) :
  (naive.scan bd l).2 = true ->
  naive.scan bd l = (map (fun t => mk_tuple (kmer t) (Pn t) (Pn t)) l, [], true).
Proof.
  pose proof (buckets_loop_concat (length l) l (le_n _)) as Hc.
  unfold naive.scan. rewrite scan_loop_buckets by done. cbn [snd].
  intros Hd. rewrite Hd.
  apply (forallb_done_Forall _ (fun b => naive.unconverged bd b.1 b.2)) in Hd;
    [|intros b; apply naive_bucket_done].
  assert (H : concat (map (fun b => (naive.scan_bucket bd b.1 b.2).1.1)
                        (buckets_loop (length l) l))
              = map (fun t => mk_tuple (kmer t) (Pn t) (Pn t))
                    (concat (map (fun b => b.1 :: b.2) (buckets_loop (length l) l)))
              /\ concat (map (fun b => (naive.scan_bucket bd b.1 b.2).1.2)
                          (buckets_loop (length l) l)) = []).
  { clear Hc. induction Hd as [|[first rest] bs Hb _ IH]; [done|].
    destruct IH as [IH1 IH2]. cbn [map concat]. rewrite IH1, IH2.
    change ((first, rest).1) with first. change ((first, rest).2) with rest.
    simpl in Hb. rewrite (naive_bucket_settled _ _ _ Hb). cbn [fst snd].
    by rewrite map_app. }
  destruct H as [-> ->]. by rewrite Hc.
Qed.

Lemma retire_scan_settled (bd : boundary) (l : list tuple_t) :
  (retire.scan bd l).2 = true ->
  (retire.scan bd l).1.2 = []
  /\ Forall2 (fun t t' => t' = mk_tuple (kmer t) (Pn t) (Pn t)
                          \/ t' = mk_tuple (kmer t) (inactive_partition - 1) (Pc t)
                          \/ t' = mk_tuple (kmer t) inactive_partition (Pc t))
             l (retire.scan bd l).1.1.
Proof.
  pose proof (buckets_loop_concat (length l) l (le_n _)) as Hc.
  unfold retire.scan. rewrite scan_loop_buckets by done. cbn [fst snd].
  intros Hd.
  apply (forallb_done_Forall _ (fun b => retire.unconverged bd b.1 b.2)) in Hd;
    [|intros b; apply retire_bucket_done].
  split.
  - clear Hc. induction Hd as [|[first rest] bs Hb _ IH]; [done|].
    cbn [map concat]. rewrite IH.
    change ((first, rest).1) with first. change ((first, rest).2) with rest.
    simpl in Hb. by rewrite (proj1 (retire_bucket_settled _ _ _ Hb)).
  - rewrite <- Hc at 1. apply Forall2_concat_buckets.
    eapply list.Forall_impl; [exact Hd|]. intros [first rest] Hb.
    apply (retire_bucket_settled _ _ _ Hb).
Qed.

(** X2. When the scan of a range leaves [done] true, it has pushed no
    tuple.  In the naive variant it has then done nothing but copy [Pn] into
    [Pc] in every tuple; in the retirement variant every tuple has either had
    [Pn] copied into [Pc], or its [Pn] set to [inactive_partition-1] or to
    [inactive_partition], with [Pc] and the k-mer as they were. *)
Theorem settled_scan (bd : boundary) (l : list tuple_t) :
  ((naive.scan bd l).2 = true ->
   naive.scan bd l = (map (fun t => mk_tuple (kmer t) (Pn t) (Pn t)) l, [], true))
  /\ ((retire.scan bd l).2 = true ->
      (retire.scan bd l).1.2 = []
      /\ Forall2 (fun t t' => t' = mk_tuple (kmer t) (Pn t) (Pn t)
                              \/ t' = mk_tuple (kmer t) (inactive_partition - 1) (Pc t)
                              \/ t' = mk_tuple (kmer t) inactive_partition (Pc t))
                 l (retire.scan bd l).1.1).
Proof.
  split; [apply naive_scan_settled|apply retire_scan_settled].
Qed.

Lemma settled_scan_witness :
  let bd := mk_boundary 0 1 0 1 tuple_zero tuple_zero tuple_zero in
  let l := [mk_tuple 1 3 4; mk_tuple 2 5 5; mk_tuple 3 5 5] in
  naive.scan bd l = ([mk_tuple 1 3 3; mk_tuple 2 5 5; mk_tuple 3 5 5], [], true)
  /\ (retire.scan bd l).1.2 = [].
Proof.
  intros bd l. split.
  - apply (proj1 (settled_scan bd l)). reflexivity.
  - apply (proj2 (settled_scan bd l)). reflexivity.
Defined.

(** ** The state at the exit of the naive loop *)

Lemma after_supersteps_S_r {W : Type} (superstep : W -> W * list bool) (k : nat) (ws : W) :
  after_supersteps superstep (S k) ws = (superstep (after_supersteps superstep k ws)).1.
Proof.
  revert ws. induction k as [|k IH]; intros ws; [done|].
  change (after_supersteps superstep (S (S k)) ws)
    with (after_supersteps superstep (S k) (superstep ws).1).
  by rewrite IH.
Qed.

Lemma naive_superstep_settled (undef : tuple_t) (ws : list (list tuple_t)) :
  all_done (naive_superstep undef) ws ->
  (naive_superstep undef ws).1
  = map (map (fun t => mk_tuple (kmer t) (Pn t) (Pn t))) (mxx_sort pc_pn_less ws).
Proof.
  unfold all_done, naive_superstep. cbn [fst snd].
  set (vs := mxx_sort pc_pn_less ws). intros Hd.
  apply list_eq. intros r.
  rewrite !list_lookup_fmap, list_lookup_imap.
  destruct (vs !! r) as [v|] eqn:Hv; [|done]. simpl.
  rewrite list.Forall_lookup in Hd.
  specialize (Hd r (naive.scan (naive_boundary undef vs r) v).2).
  rewrite list_lookup_fmap, list_lookup_imap, Hv in Hd.
  rewrite (naive_scan_settled _ _ (Hd eq_refl)). simpl. by rewrite app_nil_r.
Qed.

(** X3. When the loop of [cluster_reads_par] exits, the state is the sorted
    state of the last pass with [Pn] copied into [Pc] in every tuple: nothing
    was pushed in that pass, and every tuple of every rank has [Pn = Pc]. *)
Theorem naive_exit_state (undef : tuple_t) (fuel n m : nat)
    (ws ws' : list (list tuple_t)) :
  while_keepGoing (naive_superstep undef) fuel n ws = Finished ws' m ->
  ws' = map (map (fun t => mk_tuple (kmer t) (Pn t) (Pn t)))
            (mxx_sort pc_pn_less
               (after_supersteps (naive_superstep undef) (m - n - 1) ws))
  /\ Forall (Forall (fun t => Pn t = Pc t)) ws'.
Proof.
  intros Hfin.
  apply (proj2 (while_keepGoing_exits (naive_superstep undef) fuel n ws)) in Hfin
    as (k & _ & -> & -> & Hdone & _).
  replace (n + k + 1 - n - 1)%nat with k by lia.
  rewrite after_supersteps_S_r, (naive_superstep_settled _ _ Hdone).
  split; [done|].
  apply list.Forall_fmap, Forall_true. intros v.
  apply list.Forall_fmap, Forall_true. done.
Qed.

Lemma naive_exit_state_witness :
  Forall (Forall (fun t => Pn t = Pc t))
         [[mk_tuple 3 0 0; mk_tuple 3 0 0; mk_tuple 1 1 1];
          [mk_tuple 1 1 1; mk_tuple 1 1 1; mk_tuple 2 1 1]].
Proof.
  apply (naive_exit_state tuple_zero 3 0 3
           [[mk_tuple 1 1 2; mk_tuple 1 1 1; mk_tuple 1 1 1];
            [mk_tuple 2 2 2; mk_tuple 3 0 0; mk_tuple 3 0 3]]).
  vm_compute. reflexivity.
Defined.

(** ** What the boundary ranks receive *)

Lemma naive_scan_bucket_guarded (bd bd' : boundary) (first : tuple_t)
    (rest : list tuple_t) :
  naive_guarded bd bd' ->
  naive.scan_bucket bd first rest = naive.scan_bucket bd' first rest.
Proof.
  intros (Hr & Hp & Hprev & Hnext).
  unfold naive.scan_bucket, naive.is_single, naive.flip_bucket, naive.starts_here,
    naive.min_pn, naive.max_pn.
  rewrite <- Hr, <- Hp.
  assert (Hmax : (rank bd <? p bd - 1) && (Pc (next_max bd) =? Pc first)
                 = (rank bd <? p bd - 1) && (Pc (next_max bd') =? Pc first)
                 /\ ((rank bd <? p bd - 1) = true -> next_max bd = next_max bd')).
  { destruct (Z.ltb_spec (rank bd) (p bd - 1)); [|done].
    by rewrite (Hnext ltac:(lia)). }
  destruct Hmax as [Hmax Hnm]. rewrite <- Hmax.
  destruct (Z.eq_dec (rank bd) 0) as [H0|H0].
  - rewrite H0. simpl.
    destruct ((0 <? p bd - 1) && (Pc (next_max bd) =? Pc first)) eqn:Hn; [|done].
    apply andb_true_iff in Hn as [Hlt _]. rewrite H0 in Hnm. by rewrite (Hnm Hlt).
  - destruct (Hprev H0) as [<- <-].
    destruct ((rank bd <? p bd - 1) && (Pc (next_max bd) =? Pc first)) eqn:Hn; [|done].
    apply andb_true_iff in Hn as [Hlt _]. by rewrite (Hnm Hlt).
Qed.

Lemma retire_scan_bucket_guarded (bd bd' : boundary) (first : tuple_t)
    (rest : list tuple_t) :
  retire_guarded bd bd' ->
  retire.scan_bucket bd first rest = retire.scan_bucket bd' first rest.
Proof.
  intros (Hr & Har & Hap & Hfirst & Hprev & Hnext).
  unfold retire.scan_bucket, retire.is_single, retire.flip_bucket,
    retire.starts_here, retire.skips_first, retire.lowered_min_pn,
    retire.min_pn, retire.max_pn.
  rewrite <- Hr, <- Har, <- Hap.
  assert (Hmax : (if (active_rank bd <? active_p bd - 1) && (Pc (next_max bd) =? Pc first)
                  then Pn (next_max bd) else Pn (bucket_back first rest))
                 = (if (active_rank bd <? active_p bd - 1)
                       && (Pc (next_max bd') =? Pc first)
                    then Pn (next_max bd') else Pn (bucket_back first rest))).
  { destruct (Z.ltb_spec (active_rank bd) (active_p bd - 1)); [|done].
    by rewrite (Hnext ltac:(lia)). }
  rewrite <- Hmax. clear Hmax Hnext.
  destruct (Z.gtb_spec (active_rank bd) 0) as [Hpos|Hpos].
  - destruct (Hprev ltac:(lia)) as [<- <-]. done.
  - destruct (Z.eq_dec (rank bd) 0) as [H0|H0]; [|specialize (Hfirst H0); lia].
    rewrite H0. simpl. done.
Qed.

Lemma scan_loop_ext (sb sb' : tuple_t -> list tuple_t -> scanned) (fuel : nat)
    (l : list tuple_t) :
  (forall first rest, sb first rest = sb' first rest) ->
  scan_loop sb fuel l = scan_loop sb' fuel l.
Proof.
  intros Hsb. revert l. induction fuel as [|fuel IH]; intros l; [done|].
  destruct l as [|x r]; [done|]. cbn [scan_loop].
  destruct (findRange pc_comp (x :: r) x) as [[before [|first rest]] after]; [done|].
  by rewrite Hsb, IH.
Qed.

Section collective_facts.
Context {A : Type} `{!Inhabited A}.
Implicit Types (xs : list A) (op : A -> A -> A).

Lemma exscan_total_indep (u u' : A) op xs (r : nat) :
  r <> 0%nat -> exscan u op xs !!! r = exscan u' op xs !!! r.
Proof.
  intros Hr. rewrite !list_lookup_total_alt. f_equal.
  unfold exscan. rewrite !list_lookup_imap.
  destruct (xs !! r) as [y|] eqn:Hy; [|done]. simpl. f_equal.
  destruct r as [|r]; [done|]. destruct xs as [|x xs]; [done|]. done.
Qed.

Lemma length_exscan (u : A) op xs : length (exscan u op xs) = length xs.
Proof. unfold exscan. apply length_imap. Qed.

Lemma reverse_exscan_total_indep (u u' : A) op xs (r : nat) :
  (S r < length xs)%nat ->
  reverse_exscan u op xs !!! r = reverse_exscan u' op xs !!! r.
Proof.
  intros Hr. rewrite !list_lookup_total_alt. f_equal.
  unfold reverse_exscan.
  rewrite !reverse_lookup by (rewrite length_exscan, length_reverse; lia).
  rewrite !length_exscan, length_reverse.
  pose proof (exscan_total_indep u u' op (reverse xs) (length xs - S r)
                ltac:(lia)) as H.
  rewrite !list_lookup_total_alt in H.
  destruct (exscan u op (reverse xs) !! (length xs - S r)%nat) as [y|] eqn:Hy;
    destruct (exscan u' op (reverse xs) !! (length xs - S r)%nat) as [y'|] eqn:Hy';
    simpl in H; try congruence.
  - apply lookup_lt_Some in Hy. apply lookup_ge_None in Hy'.
    rewrite length_exscan in Hy, Hy'. lia.
  - apply lookup_lt_Some in Hy'. apply lookup_ge_None in Hy.
    rewrite length_exscan in Hy, Hy'. lia.
Qed.

Lemma right_shift_total_indep (u u' : A) xs (r : nat) :
  r <> 0%nat -> right_shift u xs !!! r = right_shift u' xs !!! r.
Proof.
  intros Hr. rewrite !list_lookup_total_alt. f_equal. unfold right_shift.
  destruct r as [|r]; [done|].
  destruct (decide (S r < length xs)%nat).
  - by rewrite !lookup_take_lt by done.
  - by rewrite !lookup_take_ge by lia.
Qed.
End collective_facts.

(** X4. In the naive variant every read of a value delivered by [exscan],
    [right_shift] or [reverse_exscan] is guarded by the rank: a pass gives
    the same state and the same votes whatever the boundary ranks receive. *)
Theorem naive_superstep_ignores_undef (undef undef' : tuple_t)
    (ws : list (list tuple_t)) :
  naive_superstep undef ws = naive_superstep undef' ws.
Proof.
  unfold naive_superstep. set (vs := mxx_sort pc_pn_less ws).
  assert (H : imap (fun r v => naive.scan (naive_boundary undef vs r) v) vs
              = imap (fun r v => naive.scan (naive_boundary undef' vs r) v) vs);
    [|by rewrite H].
  apply imap_ext. intros r v Hv. unfold naive.scan.
  apply scan_loop_ext. intros first rest.
  apply naive_scan_bucket_guarded.
  apply lookup_lt_Some in Hv.
  unfold naive_guarded, naive_boundary. cbn.
  split; [done|]. split; [done|]. split.
  - intros Hr. assert (r <> 0%nat) by lia.
    by rewrite (exscan_total_indep undef undef'),
               (right_shift_total_indep undef undef').
  - intros Hr.
    apply reverse_exscan_total_indep. rewrite length_map. lia.
Qed.

Lemma inactive_boundary_guarded (undef undef' : tuple_t) (vs : list (list tuple_t))
    (r : nat) (v v0 : list tuple_t) :
  vs !! r = Some v -> v <> [] ->
  vs !! 0%nat = Some v0 -> v0 <> [] ->
  retire_guarded (inactive_boundary undef vs r) (inactive_boundary undef' vs r).
Proof.
  intros Hv Hne Hv0 Hne0. unfold inactive_boundary.
  rewrite (list_lookup_total_correct _ _ _ Hv).
  rewrite (bool_decide_eq_true_2 _ Hne).
  unfold retire_guarded. cbn.
  set (ar := length (filter _ (take r vs))).
  set (group := filter _ vs).
  split; [done|]. split; [done|]. split; [done|]. split; [|split].
  - intros Hr. assert (r <> 0%nat) as Hr0 by lia.
    destruct r as [|r]; [done|]. destruct vs as [|w vs']; [done|].
    simpl in Hv0. injection Hv0 as ->.
    unfold ar. cbn [take]. rewrite filter_cons_True; [simpl; lia|].
    by rewrite (bool_decide_eq_true_2 _ Hne0).
  - intros Har. assert (ar <> 0%nat) by lia.
    by rewrite (exscan_total_indep undef undef'),
               (right_shift_total_indep undef undef').
  - intros Har. apply reverse_exscan_total_indep.
    rewrite length_map. fold group. lia.
Qed.

(** X5. In the retirement variant a pass gives the same state and the same
    votes whatever the first and last rank of [nonempty_comm] receive from
    the scans and shifts, provided the active range of rank 0 is not empty
    (so that the first rank of [nonempty_comm] is rank 0 of the world). *)
Theorem inactive_superstep_ignores_undef (undef undef' : tuple_t)
    (bdp : list rank_state -> list rank_state) (load_balance : bool)
    (ws : list rank_state) (s0 : rank_state) :
  ws !! 0%nat = Some s0 ->
  take s0.2 s0.1 <> [] ->
  inactive_superstep undef bdp load_balance ws
  = inactive_superstep undef' bdp load_balance ws.
Proof.
  intros Hs0 Hne0. unfold inactive_superstep.
  set (vs := mxx_sort pc_pn_less (map (fun s => take s.2 s.1) ws)).
  assert (Hv0 : exists v0, vs !! 0%nat = Some v0 /\ v0 <> []).
  { pose proof (mxx_sort_lengths pc_pn_less (map (fun s => take s.2 s.1) ws)) as Hl.
    fold vs in Hl.
    assert (Hl0 : map length vs !! 0%nat = Some (length (take s0.2 s0.1))).
    { rewrite Hl. destruct ws as [|s ws']; [done|].
      simpl in Hs0. by injection Hs0 as ->. }
    rewrite list_lookup_fmap in Hl0.
    destruct (vs !! 0%nat) as [v0|]; [|done]. exists v0. split; [done|].
    simpl in Hl0. injection Hl0 as Hl0. intros ->.
    destruct (take s0.2 s0.1); simpl in *; [done|lia]. }
  destruct Hv0 as (v0 & Hv0 & Hv0ne).
  assert (H : imap (fun r v => retire.scan (inactive_boundary undef vs r) v) vs
              = imap (fun r v => retire.scan (inactive_boundary undef' vs r) v) vs);
    [|by rewrite H].
  apply imap_ext. intros r v Hv. unfold retire.scan.
  destruct (decide (v = [])) as [->|Hne]; [done|].
  apply scan_loop_ext. intros first rest.
  apply retire_scan_bucket_guarded.
  by eapply inactive_boundary_guarded.
Qed.

Lemma inactive_superstep_ignores_undef_witness :
  inactive_superstep tuple_zero id false
    [([mk_tuple 2 0 0; mk_tuple 3 5 0], 2%nat); ([mk_tuple 4 1 0; mk_tuple 5 2 2], 2%nat)]
  = inactive_superstep (mk_tuple 0 0 1) id false
    [([mk_tuple 2 0 0; mk_tuple 3 5 0], 2%nat); ([mk_tuple 4 1 0; mk_tuple 5 2 2], 2%nat)].
Proof.
  apply (inactive_superstep_ignores_undef tuple_zero (mk_tuple 0 0 1) id false _
           ([mk_tuple 2 0 0; mk_tuple 3 5 0], 2%nat)).
  - reflexivity.
  - simpl. discriminate.
Defined.

(** ** The splice of step 4 *)

Lemma swap_at_middle {A : Type} (p m q : list A) (x y : A) :
  swap_at (p ++ x :: m ++ y :: q) (length p) (length p + S (length m))
  = p ++ y :: m ++ x :: q.
Proof.
  unfold swap_at.
  rewrite list_lookup_middle by done.
  rewrite lookup_app_r by lia.
  replace (length p + S (length m) - length p)%nat with (S (length m)) by lia.
  simpl. rewrite list_lookup_middle by done.
  rewrite (insert_app_r_alt p _ (length p)) by lia.
  rewrite Nat.sub_diag. simpl.
  rewrite (insert_app_r_alt p) by lia.
  replace (length p + S (length m) - length p)%nat with (S (length m)) by lia.
  simpl. rewrite (insert_app_r_alt m) by lia.
  by rewrite Nat.sub_diag.
Qed.

Lemma snoc_decomp {A : Type} (l : list A) (k : nat) :
  length l = S k -> exists l' y, l = l' ++ [y] /\ length l' = k.
Proof.
  intros Hl. destruct (reverse l) as [|y r] eqn:Hr.
  - apply (f_equal length) in Hr. rewrite length_reverse in Hr. simpl in Hr. lia.
  - exists (reverse r), y.
    assert (l = reverse r ++ [y]) as ->.
    { rewrite <- (reverse_involutive l), Hr. by rewrite reverse_cons. }
    split; [done|]. rewrite length_app in Hl. simpl in Hl. lia.
Qed.

(** The swap loop of "insert at end and swap into active part of vector",
    from its [s]-th turn on: the [k] elements behind offset [a + s] change
    places with the [k] elements that end [s] before the end, each block
    reversed. *)
Lemma swap_loop_spec {A : Type} (k s a : nat) (pre xs mid ys post : list A) :
  length xs = k -> length ys = k ->
  length pre = (a + s)%nat -> length post = s ->
  foldl (fun w i => swap_at w (a + i) (length w - 1 - i))
        (pre ++ xs ++ mid ++ ys ++ post) (seq s k)
  = pre ++ reverse ys ++ mid ++ reverse xs ++ post.
Proof.
  revert s pre xs ys post.
  induction k as [|k IH]; intros s pre xs ys post Hxs Hys Hpre Hpost.
  - destruct xs; [|done]. destruct ys; [|done]. done.
  - destruct xs as [|x xs]; [done|]. simpl in Hxs.
    destruct (snoc_decomp ys k Hys) as (ys' & y & -> & Hys').
    cbn [seq foldl].
    assert (Hw : pre ++ (x :: xs) ++ mid ++ (ys' ++ [y]) ++ post
                 = pre ++ x :: (xs ++ mid ++ ys') ++ y :: post).
    { simpl. by rewrite <- !app_assoc. }
    rewrite Hw.
    replace (a + s)%nat with (length pre) by lia.
    replace (length (pre ++ x :: (xs ++ mid ++ ys') ++ y :: post) - 1 - s)%nat
      with (length pre + S (length (xs ++ mid ++ ys')))%nat
      by (rewrite !length_app; simpl; rewrite !length_app; simpl; lia).
    rewrite swap_at_middle.
    assert (Hw' : pre ++ y :: (xs ++ mid ++ ys') ++ x :: post
                  = (pre ++ [y]) ++ xs ++ mid ++ ys' ++ (x :: post)).
    { by rewrite <- !app_assoc. }
    rewrite Hw'.
    rewrite (IH (S s) (pre ++ [y]) xs ys' (x :: post));
      [|lia|done|rewrite length_app; simpl; lia|simpl; lia].
    rewrite reverse_snoc, reverse_cons. simpl. by rewrite <- !app_assoc.
Qed.

(** What [insert_and_swap] leaves, when [pend] lies within the vector:
    [act] is the range before [pend], [inact] the range behind it. *)
Lemma insert_and_swap_spec (act inact newtuples : list tuple_t) :
  let n := length newtuples in
  let k := (n `min` length inact)%nat in
  insert_and_swap (act ++ inact) (length act) newtuples
  = ((act ++ reverse (drop (n - k) newtuples) ++ take (n - k) newtuples)
       ++ drop k inact ++ reverse (take k inact),
     (length act + n)%nat).
Proof.
  intros n k. unfold insert_and_swap. f_equal.
  replace (length (act ++ inact) - length act)%nat with (length inact)
    by (rewrite length_app; lia).
  fold n. fold k.
  assert (Hv : (act ++ inact) ++ newtuples
               = act ++ take k inact ++ (drop k inact ++ take (n - k) newtuples)
                     ++ drop (n - k) newtuples ++ []).
  { rewrite app_nil_r, <- !app_assoc.
    rewrite (app_assoc (take k inact)), take_drop.
    by rewrite take_drop. }
  rewrite Hv.
  rewrite (swap_loop_spec k 0 (length act)).
  - rewrite app_nil_r, <- !app_assoc. do 2 f_equal.
    rewrite !app_assoc. f_equal.
    destruct (decide (n <= length inact)%nat) as [Hle|Hgt].
    + assert (k = n) as -> by (unfold k; lia).
      by rewrite Nat.sub_diag, take_0, app_nil_r.
    + assert (k = length inact) as -> by (unfold k; lia).
      by rewrite drop_all, app_nil_r.
  - rewrite length_take. unfold k. lia.
  - rewrite length_drop. unfold k, n. lia.
  - lia.
  - done.
Qed.

(** X6.  "insert at end and swap into active part of vector" of
    [cluster_reads_par_inactive], with [pend] inside the vector ([act] before
    it, [inact] behind it).  The new [pend] is the old one moved by the number
    of new tuples; the range before the old [pend] is untouched; the last
    [k = min(nnew, inactive_size)] new tuples follow it in reverse order, then
    the other new tuples in their order; behind the new [pend] come the
    tuples that were behind the old one, the first [k] of them moved to the
    end in reverse order.  So the range before the new [pend] holds the old
    active range and exactly the new tuples, and the range behind it exactly
    the tuples that were behind the old one. *)
Theorem insert_and_swap_splices (act inact newtuples : list tuple_t) :
  let spliced := insert_and_swap (act ++ inact) (length act) newtuples in
  let n := length newtuples in
  let k := (n `min` length inact)%nat in
  spliced.2 = (length act + n)%nat
  /\ take spliced.2 spliced.1
     = act ++ reverse (drop (n - k) newtuples) ++ take (n - k) newtuples
  /\ drop spliced.2 spliced.1 = drop k inact ++ reverse (take k inact)
  /\ take (length act) spliced.1 = act
  /\ Permutation (take spliced.2 spliced.1) (act ++ newtuples)
  /\ Permutation (drop spliced.2 spliced.1) inact.
Proof.
  intros spliced n k. unfold spliced. rewrite insert_and_swap_spec.
  fold n. fold k. cbn [fst snd].
  assert (Hlen : length (act ++ reverse (drop (n - k) newtuples)
                             ++ take (n - k) newtuples) = (length act + n)%nat).
  { rewrite !length_app, length_reverse, length_drop, length_take.
    fold n. unfold k. lia. }
  rewrite take_app_length', drop_app_length' by done.
  split; [done|]. split; [done|]. split; [done|]. split.
  { rewrite <- !app_assoc. by rewrite take_app_length. }
  split.
  - apply Permutation_app_head. rewrite reverse_Permutation.
    rewrite Permutation_app_comm. by rewrite take_drop.
  - rewrite reverse_Permutation, Permutation_app_comm. by rewrite take_drop.
Qed.

(** ** The split at [pend] *)

Lemma is_active_true (t : tuple_t) : is_active t = true <-> Pn t <> inactive_partition.
Proof. unfold is_active. rewrite negb_true_iff. apply Z.eqb_neq. Qed.

Lemma is_active_false (t : tuple_t) : is_active t = false <-> Pn t = inactive_partition.
Proof. unfold is_active. rewrite negb_false_iff. apply Z.eqb_eq. Qed.

(** Step 4 on one rank, from the scanned range [act], the range [inact]
    behind [pend] and the pushed tuples. *)
Lemma append_and_retire_spec (act inact newtuples : list tuple_t) :
  exists a i s,
    append_and_retire (act ++ inact) (length act) newtuples = (a ++ i ++ s, length a)
    /\ Permutation (a ++ i) (act ++ newtuples)
    /\ Permutation s inact
    /\ Forall (fun t => is_active t = true) a
    /\ Forall (fun t => is_active t = false) i.
Proof.
  unfold append_and_retire. rewrite insert_and_swap_spec.
  set (n := length newtuples). set (k := (n `min` length inact)%nat).
  unfold retire_inactive. cbn [fst snd].
  assert (Hlen : length (act ++ reverse (drop (n - k) newtuples)
                             ++ take (n - k) newtuples) = (length act + n)%nat).
  { rewrite !length_app, length_reverse, length_drop, length_take.
    fold n. unfold k. lia. }
  rewrite take_app_length', drop_app_length' by done.
  destruct (std_partition is_active _) as [a i] eqn:Hp.
  destruct (std_partition_spec _ _ _ _ Hp) as (Hperm & Ha & Hi).
  exists a, i, (drop k inact ++ reverse (take k inact)).
  split; [done|]. split; [|split; [|done]].
  - rewrite Hperm. apply Permutation_app_head. rewrite reverse_Permutation.
    rewrite Permutation_app_comm. by rewrite take_drop.
  - rewrite reverse_Permutation, Permutation_app_comm. by rewrite take_drop.
Qed.

(** X7.  Step 4 of [cluster_reads_par_inactive] on one rank whose tuples
    behind [pend] are all retired: no tuple is lost or repeated; the new
    [pend] lies within the vector; before it stand exactly the tuples of the
    scanned range and of the pushed tuples with [Pn != inactive_partition],
    behind it exactly those with [Pn == inactive_partition] and the tuples
    that were behind the old [pend].  So the vector is again split at
    [pend]. *)
Theorem append_and_retire_splits (act inact newtuples : list tuple_t) :
  Forall (fun t => Pn t = inactive_partition) inact ->
  let r := append_and_retire (act ++ inact) (length act) newtuples in
  (r.2 <= length r.1)%nat
  /\ Permutation r.1 (act ++ inact ++ newtuples)
  /\ Permutation (take r.2 r.1) (filter is_active (act ++ newtuples))
  /\ Permutation (drop r.2 r.1)
       (filter (fun t => negb (is_active t)) (act ++ newtuples) ++ inact)
  /\ Forall (fun t => Pn t <> inactive_partition) (take r.2 r.1)
  /\ Forall (fun t => Pn t = inactive_partition) (drop r.2 r.1).
Proof.
  intros Hinact r. unfold r.
  destruct (append_and_retire_spec act inact newtuples)
    as (a & i & s & -> & Hperm & Hs & Ha & Hi).
  cbn [fst snd]. rewrite take_app_length, drop_app_length.
  split; [rewrite length_app; lia|]. split.
  { rewrite app_assoc, Hperm, Hs, <- app_assoc.
    apply Permutation_app_head, Permutation_app_comm. }
  split.
  { rewrite <- Hperm, list.filter_app, (filter_all _ _ Ha), (filter_none _ _ Hi).
    by rewrite app_nil_r. }
  split.
  { rewrite <- Hperm, list.filter_app, Hs.
    rewrite (filter_none (fun t => negb (is_active t)) a),
            (filter_all (fun t => negb (is_active t)) i); [done|..].
    - eapply list.Forall_impl; [exact Hi|]. by intros t ->.
    - eapply list.Forall_impl; [exact Ha|]. by intros t ->. }
  split.
  { eapply list.Forall_impl; [exact Ha|]. intros t. apply is_active_true. }
  apply list.Forall_app. split.
  - eapply list.Forall_impl; [exact Hi|]. intros t. apply is_active_false.
  - by rewrite Hs.
Qed.

Lemma append_and_retire_splits_witness :
  let act := [mk_tuple 1 5 5; mk_tuple 2 inactive_partition 2] in
  let inact := [mk_tuple 7 inactive_partition 3] in
  let r := append_and_retire (act ++ inact) (length act) [mk_tuple 3 4 3] in
  Forall (fun t => Pn t = inactive_partition) inact
  /\ Forall (fun t => Pn t = inactive_partition) (drop r.2 r.1).
Proof.
  intros act inact r.
  assert (H : Forall (fun t => Pn t = inactive_partition) inact)
    by (by repeat constructor).
  split; [exact H|].
  exact (proj2 (proj2 (proj2 (proj2 (proj2
    (append_and_retire_splits act inact [mk_tuple 3 4 3] H)))))).
Defined.

Lemma append_and_retire_split_at_pend (act inact newtuples : list tuple_t) :
  Forall (fun t => Pn t = inactive_partition) inact ->
  split_at_pend (append_and_retire (act ++ inact) (length act) newtuples).
Proof.
  intros Hinact.
  destruct (append_and_retire_spec act inact newtuples)
    as (a & i & s & -> & Hperm & Hs & Ha & Hi).
  unfold split_at_pend. cbn [fst snd]. rewrite take_app_length, drop_app_length.
  split; [rewrite length_app; lia|]. split.
  { eapply list.Forall_impl; [exact Ha|]. intros t. apply is_active_true. }
  apply list.Forall_app. split.
  - eapply list.Forall_impl; [exact Hi|]. intros t. apply is_active_false.
  - by rewrite Hs.
Qed.

Lemma inactive_superstep_split (undef : tuple_t)
    (bdp : list rank_state -> list rank_state) (ws : list rank_state) :
  Forall (fun s => Forall (fun t => Pn t = inactive_partition) (drop s.2 s.1)) ws ->
  Forall split_at_pend (inactive_superstep undef bdp false ws).1.
Proof.
  intros Hws. unfold inactive_superstep. cbn [fst].
  apply list.Forall_lookup. intros r s' Hr.
  apply lookup_zip_with_Some in Hr as (s & sc & -> & Hs & _).
  apply append_and_retire_split_at_pend.
  rewrite list.Forall_lookup in Hws. exact (Hws r s Hs).
Qed.

(** X8.  The loop of [cluster_reads_par_inactive] without load balancing,
    started with every tuple behind [pend] retired (as it is at the start,
    where [pend] is [end]): after every pass, on every rank, [pend] lies
    within the vector, no tuple before [pend] has [Pn == inactive_partition]
    and every tuple behind it has. *)
Theorem retired_behind_pend (undef : tuple_t)
    (bdp : list rank_state -> list rank_state) (k : nat) (ws : list rank_state) :
  Forall (fun s => Forall (fun t => Pn t = inactive_partition) (drop s.2 s.1)) ws ->
  Forall split_at_pend
    (after_supersteps (inactive_superstep undef bdp false) (S k) ws).
Proof.
  revert ws. induction k as [|k IH]; intros ws Hws.
  - cbn [after_supersteps]. by apply inactive_superstep_split.
  - change (after_supersteps (inactive_superstep undef bdp false) (S (S k)) ws)
      with (after_supersteps (inactive_superstep undef bdp false) (S k)
              (inactive_superstep undef bdp false ws).1).
    apply IH.
    eapply list.Forall_impl; [exact (inactive_superstep_split undef bdp ws Hws)|].
    intros s (_ & _ & H). exact H.
Qed.

Lemma retired_behind_pend_witness :
  let ws := map (fun v => (v, length v))
              [[mk_tuple 1 1 2; mk_tuple 1 1 1; mk_tuple 1 1 1];
               [mk_tuple 2 2 2; mk_tuple 3 0 0; mk_tuple 3 0 3]] in
  Forall (fun s : rank_state =>
            Forall (fun t => Pn t = inactive_partition) (drop s.2 s.1)) ws
  /\ Forall split_at_pend
       (after_supersteps (inactive_superstep tuple_zero id false) 3 ws).
Proof.
  intros ws.
  assert (H : Forall (fun s : rank_state =>
            Forall (fun t => Pn t = inactive_partition) (drop s.2 s.1)) ws)
    by (by repeat constructor).
  split; [exact H|]. exact (retired_behind_pend tuple_zero id 2 ws H).
Defined.

(** ** Binary searches *)

Section search_facts.
Context {A : Type}.
Implicit Types (comp : A -> A -> bool) (l : list A).

Lemma lower_bound_loop_range fuel comp l val first len :
  (first <= lower_bound_loop fuel comp l val first len <= first + len)%nat.
Proof.
  revert first len. induction fuel as [|fuel IH]; intros first len; cbn [lower_bound_loop]; [lia|].
  destruct (len =? 0)%nat eqn:Hlen; [lia|]. apply Nat.eqb_neq in Hlen.
  assert (Hhalf : (len / 2 < len)%nat) by (apply Nat.div_lt; lia).
  destruct (l !! (first + len / 2)%nat) as [m|]; [|lia].
  destruct (comp m val).
  - specialize (IH (S (first + len / 2)) (len - len / 2 - 1)%nat). lia.
  - specialize (IH first (len / 2)%nat). lia.
Qed.

Lemma lower_bound_range comp l first last val :
  (first <= last)%nat ->
  (first <= lower_bound comp l first last val <= last)%nat.
Proof.
  intros Hle. unfold lower_bound.
  pose proof (lower_bound_loop_range (S (last - first)) comp l val first (last - first)).
  lia.
Qed.

(** The search finds the partition point of a range that is partitioned with
    respect to [fun x => comp x val]. *)
Lemma lower_bound_loop_spec fuel comp l val first len (p : nat) :
  (len < fuel)%nat -> (first <= p <= first + len)%nat ->
  (first + len <= length l)%nat ->
  (forall i x, (first <= i < p)%nat -> l !! i = Some x -> comp x val = true) ->
  (forall i x, (p <= i < first + len)%nat -> l !! i = Some x -> comp x val = false) ->
  lower_bound_loop fuel comp l val first len = p.
Proof.
  revert first len. induction fuel as [|fuel IH]; intros first len Hfuel Hp Hl Hlo Hhi;
    [lia|]. cbn [lower_bound_loop upper_bound_loop].
  destruct (len =? 0)%nat eqn:Hlen; [apply Nat.eqb_eq in Hlen; lia|].
  apply Nat.eqb_neq in Hlen.
  assert (Hhalf : (len / 2 < len)%nat) by (apply Nat.div_lt; lia).
  destruct (l !! (first + len / 2)%nat) as [m|] eqn:Hm.
  - destruct (comp m val) eqn:Hc.
    + assert (first + len / 2 < p)%nat.
      { destruct (decide (first + len / 2 < p)%nat) as [|Hn]; [done|].
        rewrite (Hhi (first + len / 2)%nat m ltac:(lia) Hm) in Hc. done. }
      apply IH; [lia|lia|lia| |].
      * intros i x Hi. apply Hlo. lia.
      * intros i x Hi. apply Hhi. lia.
    + assert (p <= first + len / 2)%nat.
      { destruct (decide (p <= first + len / 2)%nat) as [|Hn]; [done|].
        rewrite (Hlo (first + len / 2)%nat m ltac:(lia) Hm) in Hc. done. }
      apply IH; [lia|lia|lia| |].
      * intros i x Hi. apply Hlo. lia.
      * intros i x Hi. apply Hhi. lia.
  - apply lookup_ge_None in Hm. lia.
Qed.

Lemma upper_bound_loop_spec fuel comp l val first len (p : nat) :
  (len < fuel)%nat -> (first <= p <= first + len)%nat ->
  (first + len <= length l)%nat ->
  (forall i x, (first <= i < p)%nat -> l !! i = Some x -> comp val x = false) ->
  (forall i x, (p <= i < first + len)%nat -> l !! i = Some x -> comp val x = true) ->
  upper_bound_loop fuel comp l val first len = p.
Proof.
  revert first len. induction fuel as [|fuel IH]; intros first len Hfuel Hp Hl Hlo Hhi;
    [lia|]. cbn [lower_bound_loop upper_bound_loop].
  destruct (len =? 0)%nat eqn:Hlen; [apply Nat.eqb_eq in Hlen; lia|].
  apply Nat.eqb_neq in Hlen.
  assert (Hhalf : (len / 2 < len)%nat) by (apply Nat.div_lt; lia).
  destruct (l !! (first + len / 2)%nat) as [m|] eqn:Hm.
  - destruct (comp val m) eqn:Hc.
    + assert (p <= first + len / 2)%nat.
      { destruct (decide (p <= first + len / 2)%nat) as [|Hn]; [done|].
        rewrite (Hlo (first + len / 2)%nat m ltac:(lia) Hm) in Hc. done. }
      apply IH; [lia|lia|lia| |].
      * intros i x Hi. apply Hlo. lia.
      * intros i x Hi. apply Hhi. lia.
    + assert (first + len / 2 < p)%nat.
      { destruct (decide (first + len / 2 < p)%nat) as [|Hn]; [done|].
        rewrite (Hhi (first + len / 2)%nat m ltac:(lia) Hm) in Hc. done. }
      apply IH; [lia|lia|lia| |].
      * intros i x Hi. apply Hlo. lia.
      * intros i x Hi. apply Hhi. lia.
  - apply lookup_ge_None in Hm. lia.
Qed.
End search_facts.

Lemma snoc_decomp' {A : Type} (l : list A) :
  l = [] \/ exists l' y, l = l' ++ [y].
Proof.
  destruct l as [|x l]; [by left|]. right.
  destruct (snoc_decomp (x :: l) (length l) eq_refl) as (l' & y & H & _). eauto.
Qed.

Lemma back_snoc (l : list tuple_t) (x : tuple_t) : back (l ++ [x]) = x.
Proof. unfold back. by rewrite last_snoc. Qed.

(** X9.  [last_min], the tuple a rank contributes to the scan for
    [prev_min], on a range sorted by [Pc] that ends with the bucket
    [b :: bs]: [std::lower_bound(begin, end, *(end-1), pc_comp)] finds the
    first tuple of the last bucket, which on a range sorted by [(Pc, Pn)]
    carries the smallest [Pn] of that bucket. *)
Theorem last_min_first_of_last_bucket (l bs : list tuple_t) (b : tuple_t) :
  Forall (fun t => Pc t < Pc b) l -> Forall (fun t => Pc t = Pc b) bs ->
  last_min (l ++ b :: bs) = b.
Proof.
  intros Hl Hbs. unfold last_min.
  assert (Hback : Pc (back (l ++ b :: bs)) = Pc b).
  { destruct (snoc_decomp' bs) as [->|(bs' & y & ->)].
    - by rewrite (back_snoc l b).
    - replace (l ++ b :: bs' ++ [y]) with ((l ++ b :: bs') ++ [y])
        by (by rewrite <- app_assoc).
      rewrite back_snoc. apply list.Forall_app in Hbs as [_ Hy].
      by inversion Hy. }
  unfold lower_bound. rewrite Nat.sub_0_r.
  rewrite (lower_bound_loop_spec _ _ _ _ _ _ (length l)).
  - by rewrite list_lookup_middle.
  - lia.
  - rewrite length_app. lia.
  - lia.
  - intros i x Hi Hx. rewrite lookup_app_l in Hx by lia.
    unfold pc_comp. rewrite Hback. apply Z.ltb_lt.
    rewrite list.Forall_lookup in Hl. exact (Hl i x Hx).
  - intros i x Hi Hx. rewrite lookup_app_r in Hx by lia.
    unfold pc_comp. rewrite Hback. apply Z.ltb_ge.
    assert (Hall : Forall (fun t => Pc t = Pc b) (b :: bs)) by (by constructor).
    rewrite list.Forall_lookup in Hall. rewrite (Hall _ x Hx). lia.
Qed.

Lemma last_min_first_of_last_bucket_witness :
  let l := [mk_tuple 1 5 1; mk_tuple 2 3 4] in
  let b := mk_tuple 3 2 7 in
  let bs := [mk_tuple 4 6 7; mk_tuple 5 9 7] in
  Forall (fun t => Pc t < Pc b) l /\ Forall (fun t => Pc t = Pc b) bs
  /\ last_min (l ++ b :: bs) = b.
Proof.
  intros l b bs.
  assert (H1 : Forall (fun t => Pc t < Pc b) l) by (repeat constructor; simpl; lia).
  assert (H2 : Forall (fun t => Pc t = Pc b) bs) by (by repeat constructor).
  split; [exact H1|]. split; [exact H2|].
  exact (last_min_first_of_last_bucket l bs b H1 H2).
Defined.

(** X10.  [first_max], the tuple a rank contributes to the reverse scan for
    [next_max], on a range sorted by [Pc] that starts with the bucket
    [f ++ [e]]: [*(std::upper_bound(begin, end, *begin, pc_comp)-1)] is the
    last tuple of the first bucket, which on a range sorted by [(Pc, Pn)]
    carries the largest [Pn] of that bucket. *)
Theorem first_max_last_of_first_bucket (f r : list tuple_t) (e : tuple_t) :
  Forall (fun t => Pc t = Pc e) f -> Forall (fun t => Pc e < Pc t) r ->
  first_max ((f ++ [e]) ++ r) = e.
Proof.
  intros Hf Hr. unfold first_max.
  assert (Hfirst : exists x, ((f ++ [e]) ++ r) !! 0%nat = Some x /\ Pc x = Pc e).
  { destruct f as [|x f]; simpl; [by exists e|].
    exists x. split; [done|]. by inversion Hf. }
  destruct Hfirst as (x & -> & Hx).
  change (default tuple_zero (Some x)) with x.
  unfold upper_bound. rewrite Nat.sub_0_r.
  rewrite (upper_bound_loop_spec _ _ _ _ _ _ (S (length f))).
  - replace (S (length f) - 1)%nat with (length f) by lia.
    rewrite <- app_assoc. simpl. by rewrite list_lookup_middle.
  - lia.
  - rewrite !length_app. simpl. lia.
  - lia.
  - intros i y Hi Hy. rewrite lookup_app_l in Hy by (rewrite length_app; simpl; lia).
    unfold pc_comp. rewrite Hx. apply Z.ltb_ge.
    assert (Hall : Forall (fun t => Pc t = Pc e) (f ++ [e]))
      by (apply list.Forall_app; split; [done|by repeat constructor]).
    rewrite list.Forall_lookup in Hall. rewrite (Hall _ y Hy). lia.
  - intros i y Hi Hy. rewrite lookup_app_r in Hy by (rewrite length_app; simpl; lia).
    unfold pc_comp. rewrite Hx. apply Z.ltb_lt.
    rewrite list.Forall_lookup in Hr. exact (Hr _ y Hy).
Qed.

Lemma first_max_last_of_first_bucket_witness :
  let f := [mk_tuple 1 2 4; mk_tuple 2 3 4] in
  let e := mk_tuple 3 8 4 in
  let r := [mk_tuple 4 6 7; mk_tuple 5 9 9] in
  Forall (fun t => Pc t = Pc e) f /\ Forall (fun t => Pc e < Pc t) r
  /\ first_max ((f ++ [e]) ++ r) = e.
Proof.
  intros f e r.
  assert (H1 : Forall (fun t => Pc t = Pc e) f) by (by repeat constructor).
  assert (H2 : Forall (fun t => Pc e < Pc t) r) by (repeat constructor; simpl; lia).
  split; [exact H1|]. split; [exact H2|].
  exact (first_max_last_of_first_bucket f r e H1 H2).
Defined.

(** ** What the loops keep *)

Lemma kmers_of_scan (sb : tuple_t -> list tuple_t -> scanned) (v : list tuple_t) :
  (forall first rest, keeps_bucket first rest (sb first rest)) ->
  let sc := scan_loop sb (length v) v in
  length sc.1.1 = length v
  /\ map kmer sc.1.1 = map kmer v
  /\ forall x, x ∈ map kmer sc.1.2 -> x ∈ map kmer v.
Proof.
  intros Hsb sc. destruct (scan_loop_keeps sb v Hsb) as (H1 & H2 & _).
  fold sc in H1, H2. split; [symmetry; by eapply Forall2_length|]. split.
  - clear H2. induction H1 as [|t t' l l' Ht _ IH]; [done|]. simpl. by rewrite Ht, IH.
  - intros x Hx. apply list_elem_of_fmap in Hx as (n & -> & Hn).
    rewrite list.Forall_forall in H2. destruct (H2 n Hn) as (t & Ht & ->).
    by apply list_elem_of_fmap_2.
Qed.

Lemma kmers_of_concat (vs vs' : list (list tuple_t)) :
  Forall2 (fun v v' => forall x, x ∈ map kmer v' <-> x ∈ map kmer v) vs vs' ->
  forall x, x ∈ map kmer (concat vs') <-> x ∈ map kmer (concat vs).
Proof.
  induction 1 as [|v v' l l' Hv _ IH]; [done|]. intros x. simpl.
  rewrite !map_app, !list.elem_of_app, Hv, IH. done.
Qed.

Lemma naive_superstep_rank (undef : tuple_t) (ws : list (list tuple_t)) (r : nat)
    (v v' : list tuple_t) :
  ws !! r = Some v -> (naive_superstep undef ws).1 !! r = Some v' ->
  exists s bd, mxx_sort pc_pn_less ws !! r = Some s /\ length s = length v
               /\ v' = (naive.scan bd s).1.1 ++ (naive.scan bd s).1.2.
Proof.
  intros Hv. unfold naive_superstep. cbn [fst].
  rewrite list_lookup_fmap, list_lookup_imap.
  destruct (mxx_sort pc_pn_less ws !! r) as [s|] eqn:Hs; [|done].
  simpl. intros [= <-]. exists s, (naive_boundary undef (mxx_sort pc_pn_less ws) r).
  split; [done|]. split; [|done].
  pose proof (mxx_sort_lengths pc_pn_less ws) as Hlen.
  apply (f_equal (fun l => l !! r)) in Hlen.
  rewrite !list_lookup_fmap, Hs, Hv in Hlen. simpl in Hlen. congruence.
Qed.

Lemma length_naive_superstep (undef : tuple_t) (ws : list (list tuple_t)) :
  length (naive_superstep undef ws).1 = length ws.
Proof.
  unfold naive_superstep. cbn [fst]. rewrite length_map, length_imap.
  rewrite <- (length_map length), mxx_sort_lengths. by rewrite length_map.
Qed.

Lemma naive_superstep_keeps (undef : tuple_t) (ws : list (list tuple_t)) :
  Forall2 (fun v v' => (length v <= length v')%nat) ws (naive_superstep undef ws).1
  /\ forall x, x ∈ map kmer (concat (naive_superstep undef ws).1)
               <-> x ∈ map kmer (concat ws).
Proof.
  split.
  - apply Forall2_same_length_lookup. split; [by rewrite length_naive_superstep|].
    intros r v v' Hv Hv'.
    destruct (naive_superstep_rank undef ws r v v' Hv Hv') as (s & bd & _ & Hlen & ->).
    destruct (kmers_of_scan (naive.scan_bucket bd) s (naive_bucket_keeps bd)) as (H1 & _).
    unfold naive.scan. rewrite length_app, H1. lia.
  - intros x.
    transitivity (x ∈ map kmer (concat (mxx_sort pc_pn_less ws))).
    + apply kmers_of_concat. unfold naive_superstep. cbn [fst].
      apply Forall2_same_length_lookup. split; [by rewrite length_map, length_imap|].
      intros r s v' Hs. rewrite list_lookup_fmap, list_lookup_imap, Hs. simpl.
      intros [= <-]. intros y.
      destruct (kmers_of_scan (naive.scan_bucket
                  (naive_boundary undef (mxx_sort pc_pn_less ws) r)) s
                  (naive_bucket_keeps _)) as (_ & H2 & H3).
      unfold naive.scan. rewrite map_app, list.elem_of_app, H2. intuition.
    + rewrite mxx_sort_concat. by rewrite std_sort_Permutation.
Qed.

(** X11.  The loop of [cluster_reads_par]: after any number of passes every
    rank holds at least as many tuples as before (no buffer shrinks, so a
    rank that passed [assert(localVector.size() > 0)] never has an empty
    range to read [*(end-1)] from), and the k-mers held across the ranks are
    the ones held at the start: the passes add copies of k-mers and never
    drop or invent one. *)
Theorem naive_loop_keeps (undef : tuple_t) (k : nat) (ws : list (list tuple_t)) :
  let ws' := after_supersteps (naive_superstep undef) k ws in
  Forall2 (fun v v' => (length v <= length v')%nat) ws ws'
  /\ forall x, x ∈ map kmer (concat ws') <-> x ∈ map kmer (concat ws).
Proof.
  revert ws. induction k as [|k IH]; intros ws.
  - simpl. split; [|done]. apply Forall2_same_length_lookup. split; [done|].
    intros r v v' Hv Hv'. rewrite Hv in Hv'. injection Hv' as <-. lia.
  - cbn [after_supersteps]. cbv zeta.
    destruct (naive_superstep_keeps undef ws) as (H1 & H2).
    destruct (IH (naive_superstep undef ws).1) as (H3 & H4). cbv zeta in H3, H4.
    split.
    + eapply Forall2_trans; [|exact H1|exact H3]. simpl. lia.
    + intros x. by rewrite H4.
Qed.

Lemma kmers_concat_lookup (vs : list (list tuple_t)) (x : Z) :
  x ∈ map kmer (concat vs) <-> exists r v, vs !! r = Some v /\ x ∈ map kmer v.
Proof.
  induction vs as [|v vs IH]; simpl.
  - split; [by intros ?%elem_of_nil|by intros (r & v & ? & _)].
  - rewrite map_app, list.elem_of_app, IH. split.
    + intros [H|(r & v' & Hr & H)]; [by exists 0%nat, v|by exists (S r), v'].
    + intros ([|r] & v' & Hr & H); simpl in Hr.
      * injection Hr as <-. by left.
      * right. eauto.
Qed.

Lemma inactive_superstep_rank (undef : tuple_t)
    (bdp : list rank_state -> list rank_state) (ws : list rank_state) (r : nat)
    (s : rank_state) :
  ws !! r = Some s ->
  exists v bd a i d,
    mxx_sort pc_pn_less (map (fun s => take s.2 s.1) ws) !! r = Some v
    /\ length v = length (take s.2 s.1)
    /\ (inactive_superstep undef bdp false ws).1 !! r = Some (a ++ i ++ d, length a)
    /\ Permutation (a ++ i) ((retire.scan bd v).1.1 ++ (retire.scan bd v).1.2)
    /\ Permutation d (drop s.2 s.1).
Proof.
  intros Hs. set (vs := mxx_sort pc_pn_less (map (fun s => take s.2 s.1) ws)).
  pose proof (mxx_sort_lengths pc_pn_less (map (fun s => take s.2 s.1) ws)) as Hlen.
  fold vs in Hlen.
  apply (f_equal (fun l => l !! r)) in Hlen.
  unfold rank_state in *.
  rewrite !list_lookup_fmap, Hs in Hlen. simpl in Hlen.
  destruct (vs !! r) as [v|] eqn:Hv; [|done]. simpl in Hlen. injection Hlen as Hlen.
  set (bd := inactive_boundary undef vs r).
  destruct (append_and_retire_spec (retire.scan bd v).1.1 (drop s.2 s.1)
              (retire.scan bd v).1.2) as (a & i & d & Heq & Hperm & Hd & _).
  exists v, bd, a, i, d. split; [done|]. split; [done|]. split; [|done].
  unfold inactive_superstep. cbn [fst]. fold vs.
  apply lookup_zip_with_Some. exists s, (retire.scan bd v).
  split; [by rewrite Heq|]. split; [done|].
  by rewrite list_lookup_imap, Hv.
Qed.

Lemma length_inactive_superstep (undef : tuple_t)
    (bdp : list rank_state -> list rank_state) (ws : list rank_state) :
  length (inactive_superstep undef bdp false ws).1 = length ws.
Proof.
  unfold inactive_superstep. cbn [fst]. rewrite length_zip_with, length_imap.
  rewrite <- (length_map length (mxx_sort _ _)), mxx_sort_lengths.
  rewrite !length_map. apply Nat.min_id.
Qed.

Lemma inactive_superstep_keeps (undef : tuple_t)
    (bdp : list rank_state -> list rank_state) (ws : list rank_state) :
  Forall2 (fun s s' : rank_state => (length s.1 <= length s'.1)%nat)
    ws (inactive_superstep undef bdp false ws).1
  /\ forall x, x ∈ map kmer (concat (map fst (inactive_superstep undef bdp false ws).1))
               <-> x ∈ map kmer (concat (map fst ws)).
Proof.
  set (vs := mxx_sort pc_pn_less (map (fun s => take s.2 s.1) ws)).
  assert (Hvs : forall x, x ∈ map kmer (concat vs)
                          <-> x ∈ map kmer (concat (map (fun s => take s.2 s.1) ws))).
  { intros x. unfold vs. rewrite mxx_sort_concat. by rewrite std_sort_Permutation. }
  assert (Hscan : forall bd v x,
            x ∈ map kmer ((retire.scan bd v).1.1 ++ (retire.scan bd v).1.2)
            <-> x ∈ map kmer v).
  { intros bd v x.
    destruct (kmers_of_scan (retire.scan_bucket bd) v (retire_bucket_keeps bd))
      as (_ & H2 & H3).
    unfold retire.scan. rewrite map_app, list.elem_of_app, H2. intuition. }
  split.
  - apply Forall2_same_length_lookup. split; [by rewrite length_inactive_superstep|].
    intros r s s' Hs Hs'.
    destruct (inactive_superstep_rank undef bdp ws r s Hs)
      as (v & bd & a & i & d & Hv & Hlen & Hr & Hperm & Hd).
    pose proof (eq_trans (eq_sym Hs') Hr) as Heq. injection Heq as ->. cbn [fst].
    rewrite app_assoc, length_app, Hperm, Hd, length_app.
    destruct (kmers_of_scan (retire.scan_bucket bd) v (retire_bucket_keeps bd))
      as (H1 & _).
    unfold retire.scan. rewrite H1, Hlen.
    rewrite <- (take_drop s.2 s.1) at 1. rewrite length_app. lia.
  - intros x. rewrite !kmers_concat_lookup. split.
    + intros (r & w & Hr & Hx).
      apply list_lookup_fmap_Some in Hr as (s' & -> & Hs').
      assert (Hsr : exists s, ws !! r = Some s).
      { apply lookup_lt_is_Some. apply lookup_lt_Some in Hs'.
        by rewrite length_inactive_superstep in Hs'. }
      destruct Hsr as (s & Hs).
      destruct (inactive_superstep_rank undef bdp ws r s Hs)
        as (v & bd & a & i & d & Hv & Hlen & Hr & Hperm & Hd).
      pose proof (eq_trans (eq_sym Hs') Hr) as Heq. injection Heq as ->. cbn [fst] in Hx.
      rewrite app_assoc, map_app, list.elem_of_app, Hperm, Hd, Hscan in Hx.
      destruct Hx as [Hx|Hx].
      * assert (Hc : x ∈ map kmer (concat vs)).
        { apply kmers_concat_lookup. by exists r, v. }
        apply Hvs, kmers_concat_lookup in Hc as (r' & t & Hr' & Ht).
        apply list_lookup_fmap_Some in Hr' as (s0 & -> & Hs0). exists r', s0.1.
        split; [exact (list_lookup_fmap_Some_2 _ _ _ _ Hs0)|].
        rewrite <- (take_drop s0.2 s0.1), map_app, list.elem_of_app. by left.
      * exists r, s.1. split; [exact (list_lookup_fmap_Some_2 _ _ _ _ Hs)|].
        rewrite <- (take_drop s.2 s.1), map_app, list.elem_of_app. by right.
    + intros (r & w & Hr & Hx).
      apply list_lookup_fmap_Some in Hr as (s & -> & Hs).
      rewrite <- (take_drop s.2 s.1), map_app, list.elem_of_app in Hx.
      destruct Hx as [Hx|Hx].
      * assert (Hc : x ∈ map kmer (concat (map (fun s => take s.2 s.1) ws))).
        { apply kmers_concat_lookup. exists r, (take s.2 s.1).
          split; [exact (list_lookup_fmap_Some_2 _ _ _ _ Hs)|done]. }
        apply Hvs, kmers_concat_lookup in Hc as (r' & v & Hr' & Hv).
        assert (Hsr : exists s0, ws !! r' = Some s0).
        { apply lookup_lt_is_Some. apply lookup_lt_Some in Hr'. unfold vs in Hr'.
          rewrite <- (length_map length (mxx_sort _ _)), mxx_sort_lengths in Hr'.
          by rewrite !length_map in Hr'. }
        destruct Hsr as (s0 & Hs0).
        destruct (inactive_superstep_rank undef bdp ws r' s0 Hs0)
          as (v0 & bd & a & i & d & Hv0 & Hlen & Hr0 & Hperm & Hd).
        fold vs in Hv0. pose proof (eq_trans (eq_sym Hr') Hv0) as Heq. injection Heq as ->.
        exists r', (a ++ i ++ d). split; [exact (list_lookup_fmap_Some_2 _ _ _ _ Hr0)|].
        rewrite app_assoc, map_app, list.elem_of_app, Hperm, Hscan. by left.
      * destruct (inactive_superstep_rank undef bdp ws r s Hs)
          as (v0 & bd & a & i & d & Hv0 & Hlen & Hr0 & Hperm & Hd).
        exists r, (a ++ i ++ d). split; [exact (list_lookup_fmap_Some_2 _ _ _ _ Hr0)|].
        rewrite app_assoc, map_app, list.elem_of_app, Hd. by right.
Qed.

(** X12.  The loop of [cluster_reads_par_inactive] without load balancing:
    after any number of passes the vector of every rank, retired tuples
    included, is at least as long as before (retiring a tuple moves it behind
    [pend] and never erases it), and the k-mers held across the ranks are the
    ones held at the start. *)
Theorem inactive_loop_keeps (undef : tuple_t)
    (bdp : list rank_state -> list rank_state) (k : nat) (ws : list rank_state) :
  let ws' := after_supersteps (inactive_superstep undef bdp false) k ws in
  Forall2 (fun s s' : rank_state => (length s.1 <= length s'.1)%nat) ws ws'
  /\ forall x, x ∈ map kmer (concat (map fst ws'))
               <-> x ∈ map kmer (concat (map fst ws)).
Proof.
  revert ws. induction k as [|k IH]; intros ws.
  - simpl. split; [|done]. apply Forall2_same_length_lookup. split; [done|].
    intros r v v' Hv Hv'. rewrite Hv in Hv'. injection Hv' as <-. lia.
  - cbn [after_supersteps]. cbv zeta.
    destruct (inactive_superstep_keeps undef bdp ws) as (H1 & H2).
    destruct (IH (inactive_superstep undef bdp false ws).1) as (H3 & H4).
    cbv zeta in H3, H4. split.
    + eapply Forall2_trans; [|exact H1|exact H3]. simpl. lia.
    + intros x. by rewrite H4.
Qed.

(** ** Seed extraction *)

Section list_facts.
Context {A : Type}.

Lemma elem_of_concat_lookup (ls : list (list A)) (x : A) :
  x ∈ concat ls <-> exists r l, ls !! r = Some l /\ x ∈ l.
Proof.
  induction ls as [|l ls IH]; simpl.
  - split; [by intros ?%elem_of_nil|by intros (r & l & ? & _)].
  - rewrite list.elem_of_app, IH. split.
    + intros [H|(r & l' & Hr & H)]; [by exists 0%nat, l|by exists (S r), l'].
    + intros ([|r] & l' & Hr & H); simpl in Hr.
      * injection Hr as <-. by left.
      * right. eauto.
Qed.

Lemma elem_of_map_concat {B : Type} (f : A -> B) (ls ls' : list (list A)) :
  Forall2 (fun l l' => forall y, y ∈ map f l' <-> y ∈ map f l) ls ls' ->
  forall y, y ∈ map f (concat ls') <-> y ∈ map f (concat ls).
Proof.
  induction 1 as [|l l' k k' Hl _ IH]; [done|]. intros y. simpl.
  rewrite !map_app, !list.elem_of_app, Hl, IH. done.
Qed.

Lemma length_chunks' (sizes : list nat) (l : list A) :
  length (chunks sizes l) = length sizes.
Proof. revert l. induction sizes as [|n ns IH]; intros l; simpl; [done|]. by rewrite IH. Qed.

Lemma elem_of_chunks (sizes : list nat) (l p : list A) (j : nat) (x : A) :
  chunks sizes l !! j = Some p -> x ∈ p -> x ∈ l.
Proof.
  revert l j. induction sizes as [|n ns IH]; intros l j; simpl; [done|].
  destruct j as [|j]; simpl.
  - intros [= <-] Hx. rewrite <- (take_drop n l), list.elem_of_app. by left.
  - intros Hp Hx. rewrite <- (take_drop n l), list.elem_of_app. right. eauto.
Qed.

Lemma chunks_sorted (R : A -> A -> Prop) (sizes : list nat) (l : list A) :
  StronglySorted R l -> Forall (StronglySorted R) (chunks sizes l).
Proof.
  revert l. induction sizes as [|n ns IH]; intros l Hl; simpl; constructor.
  - rewrite <- (take_drop n l) in Hl. by apply StronglySorted_app_1_l in Hl.
  - apply IH. rewrite <- (take_drop n l) in Hl. by apply StronglySorted_app_1_r in Hl.
Qed.

(** Every element a rank sends arrives at one rank, and nothing else
    arrives, when every rank has a count for every rank and the counts of a
    rank cover its buffer. *)
Lemma all2all_elem_of (bufs : list (list A)) (counts : list (list nat)) (x : A) :
  Forall2 (fun buf cnt => length cnt = length bufs
                          /\ (length buf <= sum_list cnt)%nat) bufs counts ->
  x ∈ concat (all2all bufs counts) <-> x ∈ concat bufs.
Proof.
  intros Hc. unfold all2all. rewrite !elem_of_concat_lookup. split.
  - intros (j & w & Hj & Hx). rewrite list_lookup_imap in Hj.
    destruct (bufs !! j) as [bj|]; [|done]. simpl in Hj. injection Hj as <-.
    apply elem_of_concat_lookup in Hx as (r & p & Hr & Hx).
    apply list_lookup_fmap_Some in Hr as (m & -> & Hm).
    apply lookup_zip_with_Some in Hm as (buf & cnt & -> & Hbuf & _).
    exists r, buf. split; [done|].
    destruct (chunks cnt buf !! j) as [p|] eqn:Hp; simpl in Hx;
      [|by apply elem_of_nil in Hx].
    by eapply elem_of_chunks.
  - intros (r & buf & Hr & Hx).
    destruct (Forall2_lookup_l _ _ _ _ _ Hc Hr) as (cnt & Hcnt & Hlen & Hsum).
    assert (Hin : x ∈ concat (chunks cnt buf)) by (by rewrite concat_chunks).
    apply elem_of_concat_lookup in Hin as (j & p & Hp & Hxp).
    assert (Hj : (j < length bufs)%nat).
    { apply lookup_lt_Some in Hp. by rewrite length_chunks', Hlen in Hp. }
    apply lookup_lt_is_Some in Hj as (bj & Hbj).
    exists j, (concat (map (fun m => default [] (m !! j))
                         (zip_with (fun buf cnt => chunks cnt buf) bufs counts))).
    split; [by rewrite list_lookup_imap, Hbj|].
    apply elem_of_concat_lookup. exists r, p. split; [|done].
    apply list_lookup_fmap_Some. exists (chunks cnt buf). split; [by rewrite Hp|].
    apply lookup_zip_with_Some. eauto.
Qed.

Lemma gather_vectors_root (xss : list (list A)) :
  xss <> [] -> gather_vectors xss !! 0%nat = Some (concat xss).
Proof. destruct xss; [done|]. intros _. done. Qed.
End list_facts.

Lemma sum_list_zeros (l : list nat) : Forall (fun n => n = 0%nat) l -> sum_list l = 0%nat.
Proof. induction 1 as [|x l -> _ IH]; [done|]. simpl. exact IH. Qed.

(** The counts a rank computes: one for every rank, and together they cover
    its seeds, whatever the searches return. *)
Lemma send_counts_loop_spec (seeds splitters : list tuple_t) (i b : nat)
    (send_counts : list nat) :
  (i + length splitters < length send_counts)%nat ->
  (b <= length seeds)%nat ->
  Forall (fun n => n = 0%nat) (drop i send_counts) ->
  length (send_counts_loop seeds splitters i b send_counts) = length send_counts
  /\ sum_list (send_counts_loop seeds splitters i b send_counts)
     = (sum_list (take i send_counts) + (length seeds - b))%nat.
Proof.
  revert i b send_counts.
  induction splitters as [|s r IH]; intros i b sc Hi Hb Hz; simpl in *.
  - split; [by rewrite length_insert|].
    rewrite insert_take_drop by lia.
    rewrite sum_list_with_app. simpl.
    rewrite (sum_list_zeros (drop (S i) sc)); [lia|].
    replace (S i) with (i + 1)%nat by lia.
      rewrite <- drop_drop. by apply Forall_drop.
  - set (e := lower_bound pc_equal seeds b (length seeds) s).
    assert (He : (b <= e <= length seeds)%nat) by (by apply lower_bound_range).
    destruct (IH (S i) e (<[i := (e - b)%nat]> sc)) as (H1 & H2).
    + rewrite length_insert. lia.
    + lia.
    + rewrite drop_insert_lt by lia.
      replace (S i) with (i + 1)%nat by lia.
      rewrite <- drop_drop. by apply Forall_drop.
    + rewrite H1, H2, length_insert. split; [done|].
      rewrite insert_take_drop by lia.
      replace (S i) with (i + 1)%nat at 1 by lia.
      rewrite (take_app_add' (take i sc)) by (rewrite length_take; lia).
      rewrite sum_list_with_app. simpl. lia.
Qed.

Lemma compute_send_counts_spec (np : nat) (seeds splitters : list tuple_t) :
  (length splitters < np)%nat ->
  length (compute_send_counts np seeds splitters) = np
  /\ sum_list (compute_send_counts np seeds splitters) = length seeds.
Proof.
  intros Hnp. unfold compute_send_counts. destruct seeds as [|x seeds].
  - rewrite length_replicate. split; [done|].
    apply sum_list_zeros, Forall_replicate. done.
  - destruct (send_counts_loop_spec (x :: seeds) splitters 0 0 (replicate np 0%nat))
      as (H1 & H2).
    + rewrite length_replicate. lia.
    + lia.
    + rewrite drop_0. by apply Forall_replicate.
    + rewrite H1, H2, length_replicate, take_0. simpl. split; [done|lia].
Qed.

Lemma length_splitters (g : nat -> list tuple_t -> list tuple_t)
    (seeds : list (list tuple_t)) (k : nat) :
  (forall r s, (length (g r s) <= 1)%nat) ->
  (length (concat (imap (fun r s => g (k + r)%nat s) seeds)) <= length seeds)%nat.
Proof.
  intros Hg. revert k. induction seeds as [|s seeds IH]; intros k; [done|].
  rewrite imap_cons. simpl. rewrite length_app.
  specialize (Hg (k + 0)%nat s). specialize (IH (S k)).
  assert (Heq : imap ((fun r s => g (k + r)%nat s) ∘ S) seeds
                = imap (fun r s => g (S k + r)%nat s) seeds).
  { apply imap_ext. intros r x _. simpl. f_equal. lia. }
  rewrite Heq. lia.
Qed.

(** On a range sorted by [Pc], the "local unique" loop and [std::unique]
    with [==] on [Pc] keep the same tuples. *)
Lemma local_unique_from_spec (prev : tuple_t) (l : list tuple_t) :
  StronglySorted (fun x y => Pc x <= Pc y) l ->
  Forall (fun x => Pc prev <= Pc x) l ->
  StronglySorted Z.lt (map Pc (local_unique_from prev l))
  /\ Forall (fun c => Pc prev < c) (map Pc (local_unique_from prev l))
  /\ (forall c, c ∈ map Pc l <-> c ∈ map Pc (local_unique_from prev l)
                                 \/ (c = Pc prev /\ c ∈ map Pc l))
  /\ unique_from pc_equal prev l = local_unique_from prev l.
Proof.
  intros Hs. revert prev. induction Hs as [|x l Hs IH Hx]; intros prev Hp.
  - simpl. split; [constructor|]. split; [constructor|]. split; [|done].
    intros c. split; [by intros ?%elem_of_nil|]. by intros [?%elem_of_nil|[_ ?%elem_of_nil]].
  - inversion Hp as [|? ? Hpx Hpl]; subst. simpl. unfold pc_equal.
    destruct (Pc prev <? Pc x) eqn:Hlt.
    + apply Z.ltb_lt in Hlt.
      destruct (IH x Hx) as (H1 & H2 & H3 & H4).
      assert (Hne : (Pc prev =? Pc x) = false) by (apply Z.eqb_neq; lia).
      rewrite Hne. simpl. split; [by constructor|]. split.
      { constructor; [done|]. eapply list.Forall_impl; [exact H2|]. simpl. lia. }
      split; [|by rewrite <- H4].
      intros c. rewrite !elem_of_cons. split.
      * intros [->|H]; [by left; left|].
        apply H3 in H as [H|[-> _]]; [by left; right|by left; left].
      * intros [[->|H]|[_ H]]; [by left| |done].
        right. apply H3. by left.
    + apply Z.ltb_ge in Hlt. assert (Heq : Pc prev = Pc x) by lia.
      assert (He : (Pc prev =? Pc x) = true) by (by apply Z.eqb_eq).
      rewrite He.
      destruct (IH prev Hpl) as (H1 & H2 & H3 & H4).
      split; [done|]. split; [done|]. split; [|done].
      intros c. rewrite !elem_of_cons. split.
      * intros [->|H]; [right; split; [done|by left]|].
        apply H3 in H as [H|[-> H]]; [by left|].
        right. split; [done|by right].
      * intros [H|[_ H]]; [|done].
        right. apply H3. by left.
Qed.

Lemma local_unique_spec (l : list tuple_t) :
  StronglySorted (fun x y => Pc x <= Pc y) l ->
  StronglySorted Z.lt (map Pc (local_unique l))
  /\ (forall c, c ∈ map Pc (local_unique l) <-> c ∈ map Pc l)
  /\ std_unique pc_equal l = local_unique l.
Proof.
  intros Hs. destruct l as [|x l]; [by repeat constructor|].
  inversion Hs as [|? ? Hl Hx]; subst.
  destruct (local_unique_from_spec x l Hl Hx) as (H1 & H2 & H3 & H4).
  simpl. split; [by constructor|]. split; [|by rewrite H4].
  intros c. rewrite !elem_of_cons, H3. intuition.
Qed.

Lemma Pc_set_Pn (l : list tuple_t) :
  map Pc (map (fun t => set_Pn (Pc t) t) l) = map Pc l.
Proof. rewrite map_map. apply map_ext. by intros []. Qed.

(** The vectors after the block decomposition and the sort by [Pc]. *)
Lemma seeds_of_sorted_ranks (vs2 : list (list tuple_t)) :
  Forall (StronglySorted (fun x y => Pc x <= Pc y)) vs2 ->
  Forall (fun s => StronglySorted Z.lt (map Pc s)) (map local_unique vs2)
  /\ forall c, c ∈ map Pc (concat (map local_unique vs2)) <-> c ∈ map Pc (concat vs2).
Proof.
  intros Hs. split.
  - apply list.Forall_fmap. eapply list.Forall_impl; [exact Hs|].
    intros l Hl. by apply local_unique_spec.
  - apply elem_of_map_concat. induction Hs as [|l ls Hl _ IH]; simpl; constructor; [|done].
    by apply local_unique_spec.
Qed.

Lemma get_partition_seeds_spec (vs : list (list tuple_t)) :
  let seeds := (get_partition_seeds vs).1 in
  (forall c, c ∈ seed_file seeds <-> c ∈ map Pc (concat vs))
  /\ Forall (fun s => StronglySorted Z.lt (map Pc s)) seeds.
Proof.
  unfold get_partition_seeds.
  set (np := length vs).
  set (vs1 := map (map (fun t => set_Pn (Pc t) t)) vs).
  assert (Hvs1 : forall c, c ∈ map Pc (concat vs1) <-> c ∈ map Pc (concat vs)).
  { intros c. unfold vs1. by rewrite <- concat_map, Pc_set_Pn. }
  destruct (1 <? np)%nat eqn:Hnp.
  - apply Nat.ltb_lt in Hnp.
    assert (Hlen1 : length vs1 = np) by (unfold vs1; by rewrite length_map).
    set (vs2 := mxx_sort pc_less (block_decompose vs1)).
    assert (Hlen2 : length vs2 = np).
    { unfold vs2. rewrite <- (length_map length), mxx_sort_lengths.
      rewrite block_decompose_lengths by lia.
      unfold block_sizes. by rewrite length_map, length_seq. }
    assert (Hsorted : Forall (StronglySorted (fun x y => Pc x <= Pc y)) vs2).
    { unfold vs2, mxx_sort. apply chunks_sorted, pc_less_sorted. }
    assert (Hvs2 : forall c, c ∈ map Pc (concat vs2) <-> c ∈ map Pc (concat vs1)).
    { intros c. unfold vs2. rewrite mxx_sort_concat, std_sort_Permutation.
      by rewrite block_decompose_concat by lia. }
    destruct (seeds_of_sorted_ranks vs2 Hsorted) as (_ & Hseeds).
    set (seeds := map local_unique vs2) in *.
    assert (Hlens : length seeds = np) by (unfold seeds; by rewrite length_map).
    set (splitters := allgatherv _).
    set (send_counts := zip_with (compute_send_counts np) seeds splitters).
    assert (Hcounts : Forall2 (fun buf cnt => length cnt = length seeds
                          /\ (length buf <= sum_list cnt)%nat) seeds send_counts).
    { apply Forall2_same_length_lookup. split.
      - unfold send_counts, splitters, allgatherv.
        rewrite length_zip_with, length_replicate, length_imap. lia.
      - intros k buf cnt Hbuf Hcnt.
        apply lookup_zip_with_Some in Hcnt as (buf' & spl & -> & Hbuf' & HS).
        rewrite Hbuf in Hbuf'. injection Hbuf' as <-.
        apply lookup_replicate_1 in HS as [-> _].
        destruct (compute_send_counts_spec np buf
          (concat (imap (fun r s => match s with
                                   | x :: _ => if (0 <? r)%nat then [x] else []
                                   | [] => []
                                   end) seeds))) as (H1 & H2).
        + destruct seeds as [|s0 seeds']; [simpl in Hlens; lia|].
          rewrite imap_cons. cbn [concat].
          assert (Hfirst : match s0 with
                           | [] => []
                           | x :: _ => if (0 <? 0)%nat then [x] else []
                           end = @nil tuple_t) by (by destruct s0).
          rewrite Hfirst. cbn [app].
          pose proof (length_splitters
            (fun r s => match s with
                        | x :: _ => if (0 <? r)%nat then [x] else []
                        | [] => []
                        end) seeds' 1) as Hsp.
          simpl in Hlens. cbn [Nat.add] in Hsp.
          assert (Hle : (length (concat (imap (fun r s =>
                    match s with
                    | [] => []
                    | x :: _ => if (0 <? S r)%nat then [x] else []
                    end) seeds')) <= length seeds')%nat).
          { apply Hsp. intros r s. destruct s; [simpl; lia|].
            destruct (0 <? r)%nat; simpl; lia. }
          unfold compose. lia.
        + rewrite H1, H2, Hlens. split; [done|lia]. }
    set (seeds' := all2all seeds send_counts).
    cbn [fst]. split.
    + intros c. unfold seed_file.
      assert (Hl : length (map (fun s => std_unique pc_equal (std_sort pc_less s)) seeds')
                   = np).
      { unfold seeds', all2all. by rewrite length_map, length_imap. }
      rewrite Hl. apply Nat.ltb_lt in Hnp. rewrite Hnp.
      rewrite gather_vectors_root
        by (intros H0; rewrite H0 in Hl; simpl in Hl; apply Nat.ltb_lt in Hnp; lia).
      cbn [default from_option id].
      transitivity (c ∈ map Pc (concat seeds')).
      { apply elem_of_map_concat. apply Forall2_fmap_r, Forall_Forall2_diag.
        apply Forall_true. intros s y.
        destruct (local_unique_spec (std_sort pc_less s) (pc_less_sorted s))
          as (_ & H2 & ->).
        rewrite H2. by rewrite std_sort_Permutation. }
      rewrite <- Hvs1, <- Hvs2, <- Hseeds.
      rewrite !list_elem_of_fmap. unfold seeds'.
      by setoid_rewrite (all2all_elem_of seeds send_counts _ Hcounts).
    + apply list.Forall_fmap, Forall_true. intros s. simpl.
      destruct (local_unique_spec (std_sort pc_less s) (pc_less_sorted s))
        as (H1 & _ & ->). done.
  - cbn [fst].
    assert (Hsorted : Forall (StronglySorted (fun x y => Pc x <= Pc y))
                        (map (std_sort pc_less) vs1)).
    { apply list.Forall_fmap, Forall_true. intros s. apply pc_less_sorted. }
    destruct (seeds_of_sorted_ranks _ Hsorted) as (Hstrict & Hseeds).
    split; [|done]. intros c. rewrite <- Hvs1.
    transitivity (c ∈ map Pc (concat (map (std_sort pc_less) vs1))).
    + rewrite <- Hseeds. unfold seed_file, vs1. rewrite !length_map.
      fold np. rewrite Hnp.
      apply Nat.ltb_ge in Hnp.
      destruct vs as [|v [|v' vs']]; [done| |simpl in np; unfold np in Hnp; simpl in Hnp; lia].
      simpl. by rewrite app_nil_r.
    + apply elem_of_map_concat. apply Forall2_fmap_r, Forall_Forall2_diag.
      apply Forall_true. intros s y. by rewrite std_sort_Permutation.
Qed.

(** X13.  [get_partition_seeds] on any number of ranks: the seed file names
    exactly the partitions of the tuples given, no [Pc] is lost and none is
    invented, and the seeds a rank returns are strictly increasing in [Pc],
    so a [Pc] is repeated in the file only if two ranks return it. *)
Theorem seeds_cover_partitions (vs : list (list tuple_t)) :
  (forall c, c ∈ seed_file (get_partition_seeds vs).1 <-> c ∈ map Pc (concat vs))
  /\ Forall (fun s => StronglySorted Z.lt (map Pc s)) (get_partition_seeds vs).1.
Proof. exact (get_partition_seeds_spec vs). Qed.

(** X14.  [get_partition_seeds] on one rank: the seed file holds every [Pc]
    of the vector exactly once, in increasing order. *)
Theorem seeds_single_rank (v : list tuple_t) :
  StronglySorted Z.lt (seed_file (get_partition_seeds [v]).1)
  /\ forall c, c ∈ seed_file (get_partition_seeds [v]).1 <-> c ∈ map Pc v.
Proof.
  destruct (get_partition_seeds_spec [v]) as (H1 & H2). cbv zeta in H1, H2.
  split.
  - unfold get_partition_seeds, seed_file in *. simpl in *.
    by inversion H2.
  - intros c. rewrite H1. simpl. by rewrite app_nil_r.
Qed.

(** X15.  The two de-duplications of [get_partition_seeds] agree on a range
    sorted by [Pc]: the "local unique" loop, which keeps a tuple when its
    [Pc] is above the [Pc] of the last tuple kept, keeps the tuples that
    [std::unique] with [==] on [Pc] keeps. *)
Theorem local_unique_is_std_unique (l : list tuple_t) :
  StronglySorted (fun x y => Pc x <= Pc y) l ->
  std_unique pc_equal l = local_unique l.
Proof. intros Hs. by apply local_unique_spec. Qed.

Lemma local_unique_is_std_unique_witness :
  let l := [mk_tuple 1 1 1; mk_tuple 2 3 3; mk_tuple 4 3 3; mk_tuple 3 5 5] in
  StronglySorted (fun x y => Pc x <= Pc y) l
  /\ std_unique pc_equal l = local_unique l.
Proof.
  intros l.
  assert (H : StronglySorted (fun x y => Pc x <= Pc y) l)
    by (repeat constructor; simpl; lia).
  split; [exact H|]. exact (local_unique_is_std_unique l H).
Defined.

(** X16.  "compute the send count" of [get_partition_seeds], with fewer
    splitters than ranks (rank 0 contributes none, every other rank at
    most one): whatever the searches return, every write to [send_counts]
    is within its [p] entries, and the counts add up to the number of seeds
    of the rank, so the exchange sends every seed of the rank to exactly one
    rank. *)
Theorem send_counts_cover_seeds (np : nat) (seeds splitters : list tuple_t) :
  (length splitters < np)%nat ->
  length (compute_send_counts np seeds splitters) = np
  /\ sum_list (compute_send_counts np seeds splitters) = length seeds
  /\ concat (chunks (compute_send_counts np seeds splitters) seeds) = seeds.
Proof.
  intros Hnp. destruct (compute_send_counts_spec np seeds splitters Hnp) as (H1 & H2).
  split; [done|]. split; [done|]. apply concat_chunks. lia.
Qed.

Lemma send_counts_cover_seeds_witness :
  let seeds := [mk_tuple 1 1 1; mk_tuple 2 3 3; mk_tuple 3 5 5] in
  let splitters := [mk_tuple 4 5 5] in
  (length splitters < 2)%nat
  /\ concat (chunks (compute_send_counts 2 seeds splitters) seeds) = seeds.
Proof.
  intros seeds splitters.
  assert (H : (length splitters < 2)%nat) by (simpl; lia).
  split; [exact H|].
  exact (proj2 (proj2 (send_counts_cover_seeds 2 seeds splitters H))).
Defined.

(** ** Labels *)

Lemma flip_loop_labelled (P : Z -> Prop) restore m ff prev its :
  P m -> Forall (labelled P) its ->
  Forall (labelled P) (flip_loop restore m ff prev its).1.
Proof.
  intros Hm H. revert ff prev.
  induction H as [|it0 r [H1 H2] _ IH]; intros ff prev; simpl; [constructor|].
  set (it := if restore && (Pn it0 =? inactive_partition - 1) then _ else _).
  assert (Hit : labelled P it) by (unfold it; by destruct (_ && _)).
  destruct Hit as [Hn Hc].
  destruct ((Pn it =? prev) || (Pn it =? Pc it)).
  - destruct ff; simpl.
    + specialize (IH true (to_uint32 (Pn it))).
      destruct (flip_loop restore m true _ r). by constructor.
    + specialize (IH true (to_uint32 (Pn it))).
      destruct (flip_loop restore m true _ r). by constructor.
  - specialize (IH ff (to_uint32 (Pn it))).
    destruct (flip_loop restore m ff _ r). by constructor.
Qed.

Lemma naive_bucket_labelled (P : Z -> Prop) (bd : boundary) (first : tuple_t)
    (rest : list tuple_t) :
  ((rank bd >? 0) = true -> P (Pn (prev_min bd))) ->
  Forall (labelled P) (first :: rest) ->
  Forall (labelled P) (naive.scan_bucket bd first rest).1.1
  /\ Forall (labelled P) (naive.scan_bucket bd first rest).1.2.
Proof.
  intros Hbd Hb. inversion Hb as [|? ? Hf Hr]; subst.
  assert (Hm : P (naive.min_pn bd first)).
  { unfold naive.min_pn. destruct (rank bd >? 0); simpl; [|apply Hf].
    destruct (Pc (prev_min bd) =? Pc first); [by apply Hbd|apply Hf]. }
  unfold naive.scan_bucket.
  destruct (naive.is_single bd first rest).
  { simpl. split; [|constructor]. constructor; [|constructor]. split; apply Hf. }
  destruct (naive.min_pn bd first =? naive.max_pn bd first rest).
  { cbn [fst snd]. split; [|constructor].
    apply list.Forall_fmap. eapply list.Forall_impl; [exact Hb|].
    intros t [Ht _]. by split. }
  unfold naive.flip_bucket. destruct (naive.starts_here bd first).
  - pose proof (flip_loop_labelled P false (naive.min_pn bd first) false
                  (to_uint32 (naive.min_pn bd first)) rest Hm Hr) as H.
    destruct (flip_loop false _ false _ rest) as [its' ff]. simpl in *.
    split; [by constructor|].
    destruct ff; constructor; [|constructor]. split; apply Hf.
  - pose proof (flip_loop_labelled P false (naive.min_pn bd first) false
                  (to_uint32 (Pn (prev_el bd))) (first :: rest) Hm Hb) as H.
    destruct (flip_loop false _ false _ (first :: rest)) as [its' ff].
    cbn [fst snd app] in *. split; [done|].
    destruct ff; constructor; [|constructor].
    destruct its' as [|y its']; simpl; [split; apply Hf|].
    inversion H as [|? ? Hy _]; subst. split; apply Hy.
Qed.

Lemma naive_scan_labelled (P : Z -> Prop) (bd : boundary) (l : list tuple_t) :
  ((rank bd >? 0) = true -> P (Pn (prev_min bd))) ->
  Forall (labelled P) l ->
  Forall (labelled P) ((naive.scan bd l).1.1 ++ (naive.scan bd l).1.2).
Proof.
  intros Hbd Hl. unfold naive.scan. rewrite scan_loop_buckets by done. cbn [fst snd].
  pose proof (buckets_loop_concat (length l) l (le_n _)) as Hc.
  rewrite <- Hc in Hl. clear Hc.
  induction (buckets_loop (length l) l) as [|[first rest] bs IH]; [constructor|].
  cbn [map concat fst snd] in *.
  apply list.Forall_app in Hl as [Hb Hl]. specialize (IH Hl).
  apply list.Forall_app in IH as [IH1 IH2].
  destruct (naive_bucket_labelled P bd first rest Hbd Hb) as [H1 H2].
  rewrite !list.Forall_app. auto.
Qed.

Section choice_facts.
Context {A : Type}.

Lemma foldl_choice (op : A -> A -> A) (x : A) (l : list A) :
  (forall a b, op a b = a \/ op a b = b) -> foldl op x l ∈ x :: l.
Proof.
  intros Hop. revert x. induction l as [|y l IH]; intros x; simpl.
  - apply list_elem_of_here.
  - specialize (IH (op x y)). apply elem_of_cons in IH as [->|IH].
    + destruct (Hop x y) as [->| ->].
      * apply list_elem_of_here.
      * apply list_elem_of_further, list_elem_of_here.
    + by do 2 apply list_elem_of_further.
Qed.

Lemma exscan_choice `{!Inhabited A} (u : A) (op : A -> A -> A) (xs : list A) (r : nat) :
  (forall a b, op a b = a \/ op a b = b) ->
  (0 < r < length xs)%nat -> exscan u op xs !!! r ∈ xs.
Proof.
  intros Hop Hr. rewrite list_lookup_total_alt. unfold exscan.
  rewrite list_lookup_imap.
  destruct (lookup_lt_is_Some_2 xs r) as [y Hy]; [lia|]. rewrite Hy. simpl.
  destruct (take r xs) as [|x rest] eqn:Ht.
  { apply (f_equal length) in Ht. rewrite length_take in Ht. simpl in Ht. lia. }
  assert (Hin : foldl op x rest ∈ take r xs) by (rewrite Ht; by apply foldl_choice).
  rewrite <- (take_drop r xs). apply list.elem_of_app. by left.
Qed.

Lemma lower_bound_loop_lt fuel (comp : A -> A -> bool) (l : list A) (val : A)
    (first len : nat) :
  len <> 0%nat -> (first + len <= length l)%nat ->
  (forall m, l !! (first + len - 1)%nat = Some m -> comp m val = false) ->
  (lower_bound_loop fuel comp l val first len < first + len)%nat.
Proof.
  revert first len. induction fuel as [|fuel IH]; intros first len Hlen Hl Hlast;
    cbn [lower_bound_loop]; [lia|].
  destruct (len =? 0)%nat eqn:H0; [apply Nat.eqb_eq in H0; lia|].
  assert (Hhalf : (len / 2 < len)%nat) by (apply Nat.div_lt; lia).
  destruct (l !! (first + len / 2)%nat) as [m|] eqn:Hm; [|lia].
  destruct (comp m val) eqn:Hc.
  - destruct (decide (len - len / 2 - 1 = 0)%nat) as [Hz|Hz].
    + replace (first + len / 2)%nat with (first + len - 1)%nat in Hm by lia.
      rewrite (Hlast m Hm) in Hc. done.
    + specialize (IH (S (first + len / 2)) (len - len / 2 - 1)%nat Hz).
      replace (S (first + len / 2) + (len - len / 2 - 1))%nat
        with (first + len)%nat in IH by lia.
      apply IH; [lia|done].
  - pose proof (lower_bound_loop_range fuel comp l val first (len / 2)). lia.
Qed.
End choice_facts.

Lemma last_min_elem (v : list tuple_t) : v <> [] -> last_min v ∈ v.
Proof.
  intros Hv. unfold last_min, lower_bound. rewrite Nat.sub_0_r.
  assert (Hlen : length v <> 0%nat) by (by destruct v).
  pose proof (lower_bound_loop_lt (S (length v)) pc_comp v (back v) 0 (length v)
                Hlen (le_n _)) as Hlt.
  destruct (v !! lower_bound_loop (S (length v)) pc_comp v (back v) 0 (length v))
    as [t|] eqn:Ht.
  - simpl. by eapply list_elem_of_lookup_2.
  - apply lookup_ge_None in Ht. exfalso.
    assert (lower_bound_loop (S (length v)) pc_comp v (back v) 0 (length v)
            < 0 + length v)%nat; [|lia].
    apply Hlt. intros m Hm. unfold back.
    rewrite last_lookup. replace (pred (length v)) with (0 + length v - 1)%nat by lia.
    rewrite Hm. simpl. unfold pc_comp. apply Z.ltb_irrefl.
Qed.

Lemma exscan_op_choice (a b : tuple_t) : exscan_op a b = a \/ exscan_op a b = b.
Proof. unfold exscan_op. destruct (_ || _); auto. Qed.

Lemma Forall_concat_iff {A : Type} (P : A -> Prop) (ls : list (list A)) :
  Forall (Forall P) ls <-> Forall P (concat ls).
Proof.
  induction ls as [|l ls IH]; simpl.
  - split; constructor.
  - rewrite list.Forall_cons, list.Forall_app, IH. done.
Qed.

Lemma mxx_sort_nonempty {A : Type} (comp : A -> A -> bool) (vs : list (list A)) :
  Forall (fun v => v <> []) vs -> Forall (fun v => v <> []) (mxx_sort comp vs).
Proof.
  intros H. pose proof (mxx_sort_lengths comp vs) as Hlen.
  apply list.Forall_lookup. intros r v Hv.
  apply (f_equal (fun l => l !! r)) in Hlen.
  rewrite !list_lookup_fmap, Hv in Hlen.
  destruct (vs !! r) as [w|] eqn:Hw; [|done]. simpl in Hlen. injection Hlen as Hlen.
  rewrite list.Forall_lookup in H. specialize (H r w Hw).
  destruct v; [|done]. by destruct w.
Qed.

Lemma naive_superstep_labelled (P : Z -> Prop) (undef : tuple_t)
    (ws : list (list tuple_t)) :
  Forall (fun v => v <> []) ws ->
  Forall (Forall (labelled P)) ws ->
  Forall (Forall (labelled P)) (naive_superstep undef ws).1.
Proof.
  intros Hne Hl. unfold naive_superstep. cbn [fst].
  set (vs := mxx_sort pc_pn_less ws).
  assert (Hne' : Forall (fun v => v <> []) vs) by (by apply mxx_sort_nonempty).
  assert (Hl' : Forall (Forall (labelled P)) vs).
  { apply Forall_concat_iff. unfold vs. rewrite mxx_sort_concat, std_sort_Permutation.
    by apply Forall_concat_iff. }
  apply list.Forall_lookup. intros r v' Hr.
  rewrite list_lookup_fmap, list_lookup_imap in Hr.
  destruct (vs !! r) as [v|] eqn:Hv; [|done]. simpl in Hr. injection Hr as <-.
  apply naive_scan_labelled.
  - simpl. intros Hpos. apply Z.gtb_lt in Hpos.
    assert (Hin : exscan undef exscan_op (map last_min vs) !!! r ∈ map last_min vs).
    { apply exscan_choice; [apply exscan_op_choice|].
      apply lookup_lt_Some in Hv. rewrite length_map. lia. }
    apply list_elem_of_fmap in Hin as (w & -> & Hw).
    rewrite list.Forall_forall in Hne', Hl'.
    pose proof (last_min_elem w (Hne' w Hw)) as Hin.
    specialize (Hl' w Hw). rewrite list.Forall_forall in Hl'.
    apply (Hl' _ Hin).
  - rewrite list.Forall_lookup in Hl'. by apply (Hl' r v).
Qed.

Lemma after_naive_supersteps_labelled (P : Z -> Prop) (undef : tuple_t) (k : nat)
    (ws : list (list tuple_t)) :
  Forall (fun v => v <> []) ws ->
  Forall (Forall (labelled P)) ws ->
  Forall (Forall (labelled P)) (after_supersteps (naive_superstep undef) k ws).
Proof.
  revert ws. induction k as [|k IH]; intros ws Hne Hl; [done|].
  cbn [after_supersteps]. apply IH.
  - destruct (naive_superstep_keeps undef ws) as [Hlen _].
    clear IH Hl. induction Hlen as [|v v' l l' Hv _ IH']; [done|].
    inversion Hne as [|? ? Hv0 Hl0]; subst. constructor; [|by apply IH'].
    destruct v'; [|done]. destruct v; [done|simpl in Hv; lia].
  - by apply naive_superstep_labelled.
Qed.

(** X17.  The loop of [cluster_reads_par], started with no rank empty (as
    the assertion before it ensures): the labels [Pn] and [Pc] a tuple
    carries after any number of passes are labels that some tuple carried
    at the start.  No pass invents a label, whatever value the first rank
    receives from the scans and the shift. *)
Theorem naive_loop_labels (P : Z -> Prop) (undef : tuple_t) (k : nat)
    (ws : list (list tuple_t)) :
  Forall (fun v => v <> []) ws ->
  Forall (Forall (fun t => P (Pn t) /\ P (Pc t))) ws ->
  Forall (Forall (fun t => P (Pn t) /\ P (Pc t)))
    (after_supersteps (naive_superstep undef) k ws).
Proof. apply after_naive_supersteps_labelled. Qed.

Lemma naive_loop_labels_witness :
  let ws := [[mk_tuple 1 1 2; mk_tuple 1 1 1]; [mk_tuple 2 2 2; mk_tuple 3 0 3]] in
  Forall (fun v => v <> []) ws
  /\ Forall (Forall (fun t => 0 <= Pn t <= 3 /\ 0 <= Pc t <= 3)) ws
  /\ Forall (Forall (fun t => 0 <= Pn t <= 3 /\ 0 <= Pc t <= 3))
       (after_supersteps (naive_superstep tuple_zero) 4 ws).
Proof.
  intros ws.
  assert (H1 : Forall (fun v => v <> []) ws) by (repeat constructor; discriminate).
  assert (H2 : Forall (Forall (fun t => 0 <= Pn t <= 3 /\ 0 <= Pc t <= 3)) ws)
    by (repeat constructor; simpl; lia).
  split; [exact H1|]. split; [exact H2|].
  exact (naive_loop_labels (fun z => 0 <= z <= 3) tuple_zero 4 ws H1 H2).
Defined.

(** X18.  [cluster_reads_par] from the start of its loop to the seed file:
    when the loop, started with no rank empty, ends, every partition id
    written to the seed file is the [Pn] or the [Pc] of a tuple the loop
    started from. *)
Theorem naive_seeds_from_start (undef : tuple_t) (fuel n m : nat)
    (ws ws' : list (list tuple_t)) (c : Z) :
  Forall (fun v => v <> []) ws ->
  while_keepGoing (naive_superstep undef) fuel n ws = Finished ws' m ->
  c ∈ seed_file (get_partition_seeds ws').1 ->
  exists t, t ∈ concat ws /\ (c = Pn t \/ c = Pc t).
Proof.
  intros Hne Hfin Hc.
  apply (proj2 (while_keepGoing_exits (naive_superstep undef) fuel n ws)) in Hfin
    as (k & _ & _ & -> & _).
  apply (proj1 (get_partition_seeds_spec _)) in Hc.
  apply list_elem_of_fmap in Hc as (t' & -> & Ht').
  set (P := fun z => exists t, t ∈ concat ws /\ (z = Pn t \/ z = Pc t)).
  assert (Hstart : Forall (Forall (labelled P)) ws).
  { apply Forall_concat_iff, list.Forall_forall. intros t Ht.
    split; exists t; auto. }
  pose proof (after_naive_supersteps_labelled P undef (S k) ws Hne Hstart) as Hend.
  apply Forall_concat_iff in Hend. rewrite list.Forall_forall in Hend.
  exact (proj2 (Hend t' Ht')).
Qed.

Lemma naive_seeds_from_start_witness :
  let ws := [[mk_tuple 1 1 2; mk_tuple 1 1 1]; [mk_tuple 2 2 2; mk_tuple 3 0 3]] in
  exists t, t ∈ concat ws /\ (0 = Pn t \/ 0 = Pc t).
Proof.
  intros ws.
  eapply (naive_seeds_from_start tuple_zero 10 0 _ ws _ 0).
  - repeat constructor; discriminate.
  - vm_compute. reflexivity.
  - vm_compute. repeat constructor.
Defined.

(** ** statAndCompare *)

Lemma multimap_insert_Permutation (m : list (Z * Z)) (kv : Z * Z) :
  multimap_insert m kv ≡ₚ kv :: m.
Proof.
  induction m as [|e r IH]; simpl; [done|].
  destruct (kv.1 <? e.1); [done|]. rewrite IH. apply perm_swap.
Qed.

Lemma multimap_insert_sorted (m : list (Z * Z)) (kv : Z * Z) :
  StronglySorted by_key m -> StronglySorted by_key (multimap_insert m kv).
Proof.
  induction 1 as [|e r Hr IH He]; simpl; [by repeat constructor|].
  destruct (kv.1 <? e.1) eqn:Hlt.
  - apply Z.ltb_lt in Hlt. constructor; [by constructor|].
    constructor; [unfold by_key; lia|].
    eapply list.Forall_impl; [exact He|]. unfold by_key. intros x. lia.
  - apply Z.ltb_ge in Hlt. constructor; [done|].
    rewrite multimap_insert_Permutation. by constructor.
Qed.

Lemma filter_key_none (p : Z) (l : list (Z * Z)) :
  Forall (fun e => e.1 <> p) l -> filter (fun e => e.1 = p) l = [].
Proof.
  induction 1 as [|e l He _ IH]; [done|]. by rewrite filter_cons_False.
Qed.

(** Insertion is stable: among the elements of a key, the new one is last. *)
Lemma multimap_insert_filter (m : list (Z * Z)) (kv : Z * Z) (p : Z) :
  StronglySorted by_key m ->
  filter (fun e => e.1 = p) (multimap_insert m kv)
  = filter (fun e => e.1 = p) m ++ filter (fun e => e.1 = p) [kv].
Proof.
  induction 1 as [|e r Hr IH He]; cbn [multimap_insert]; [done|].
  destruct (kv.1 <? e.1) eqn:Hlt.
  - apply Z.ltb_lt in Hlt.
    destruct (decide (kv.1 = p)) as [Hp|Hp].
    + rewrite (filter_cons_True _ kv); [|done].
      rewrite (filter_cons_True _ kv []); [|done].
      rewrite (filter_key_none p (e :: r)); [done|].
      constructor; [lia|].
      eapply list.Forall_impl; [exact He|]. unfold by_key. intros x. lia.
    + rewrite (filter_cons_False _ kv); [|done].
      rewrite (filter_cons_False _ kv []); [|done]. by rewrite app_nil_r.
  - rewrite (filter_cons _ e), (filter_cons _ e r), IH.
    by destruct (decide (e.1 = p)).
Qed.

Lemma read_file_spec (file : list (Z * Z)) (m : list (Z * Z)) :
  StronglySorted by_key m ->
  let m' := foldl (fun m rec => multimap_insert m (rec.2, rec.1)) m file in
  StronglySorted by_key m'
  /\ m' ≡ₚ m ++ map (fun rec => (rec.2, rec.1)) file
  /\ forall p, filter (fun e => e.1 = p) m'
               = filter (fun e => e.1 = p) m
                 ++ map (fun rec => (rec.2, rec.1)) (filter (fun rec => rec.2 = p) file).
Proof.
  revert m. induction file as [|rec file IH]; intros m Hm; simpl.
  - split; [done|]. split; [by rewrite app_nil_r|]. intros p. by rewrite app_nil_r.
  - destruct (IH (multimap_insert m (rec.2, rec.1)) (multimap_insert_sorted _ _ Hm))
      as (H1 & H2 & H3).
    split; [done|]. split.
    + rewrite H2, multimap_insert_Permutation. simpl. by rewrite Permutation_middle.
    + intros p. rewrite H3, multimap_insert_filter by done. rewrite <- app_assoc.
      f_equal. rewrite (filter_cons _ rec), (filter_cons _ (rec.2, rec.1)). simpl.
      by destruct (decide (rec.2 = p)).
Qed.

(** Two multimaps that hold, for every key, the same elements in the same
    order, iterate in the same order. *)
Lemma sorted_filters_eq (l1 l2 : list (Z * Z)) :
  StronglySorted by_key l1 -> StronglySorted by_key l2 ->
  (forall p, filter (fun e => e.1 = p) l1 = filter (fun e => e.1 = p) l2) ->
  l1 = l2.
Proof.
  intros H1. revert l2. induction H1 as [|x l1 Hl1 IH Hx]; intros l2 H2 Hf.
  - destruct l2 as [|y l2]; [done|].
    specialize (Hf y.1). rewrite filter_cons_True in Hf; [done..].
  - destruct l2 as [|y l2].
    { specialize (Hf x.1). rewrite filter_cons_True in Hf; [done..]. }
    inversion H2 as [|? ? Hl2 Hy]; subst.
    assert (Hk : x.1 = y.1).
    { destruct (decide (x.1 = y.1)) as [|Hne]; [done|]. exfalso.
      assert (Hxin : x ∈ l2).
      { pose proof (Hf x.1) as Hfx.
        rewrite filter_cons_True, (filter_cons_False _ y) in Hfx; [|auto|done].
        assert (Hin : x ∈ filter (fun e : Z * Z => e.1 = x.1) l2)
          by (rewrite <- Hfx; apply list_elem_of_here).
        by apply list_elem_of_filter in Hin as [_ ?]. }
      assert (Hyin : y ∈ l1).
      { pose proof (Hf y.1) as Hfy.
        rewrite (filter_cons_True _ y), (filter_cons_False _ x) in Hfy; [|auto|done].
        assert (Hin : y ∈ filter (fun e : Z * Z => e.1 = y.1) l1)
          by (rewrite Hfy; apply list_elem_of_here).
        by apply list_elem_of_filter in Hin as [_ ?]. }
      rewrite list.Forall_forall in Hx, Hy.
      pose proof (Hx y Hyin). pose proof (Hy x Hxin). unfold by_key in *. lia. }
    pose proof (Hf x.1) as Hfx.
    rewrite filter_cons_True, (filter_cons_True _ y) in Hfx; [|done..].
    injection Hfx as -> Hfx. f_equal. apply IH; [done|]. intros p.
    destruct (decide (y.1 = p)) as [<-|Hne]; [done|].
    specialize (Hf p). rewrite !filter_cons_False in Hf; [done|congruence..].
Qed.

Lemma multimap_upper_bound_spec (k : Z) (m : list (Z * Z)) :
  StronglySorted by_key m ->
  StronglySorted by_key (multimap_upper_bound k m)
  /\ (length (multimap_upper_bound k m) <= length m)%nat
  /\ Forall (fun e => k < e.1) (multimap_upper_bound k m)
  /\ forall x, x ∈ map fst m <-> (x <= k /\ x ∈ map fst m)
                                 \/ x ∈ map fst (multimap_upper_bound k m).
Proof.
  induction 1 as [|e r Hr IH He]; simpl.
  - split; [constructor|]. split; [done|]. split; [constructor|].
    intros x. split; [by intros ?%elem_of_nil|]. by intros [[_ ?]|?].
  - destruct IH as (H1 & H2 & H3 & H4). destruct (k <? e.1) eqn:Hlt.
    + apply Z.ltb_lt in Hlt. split; [by constructor|]. split; [done|]. split.
      * constructor; [done|]. eapply list.Forall_impl; [exact He|].
        unfold by_key. intros x. lia.
      * intros x. simpl. tauto.
    + apply Z.ltb_ge in Hlt. split; [done|]. split; [lia|]. split; [done|].
      intros x. cbn [map]. rewrite !elem_of_cons. split.
      * intros [->|H]; [left; split; [done|by left]|].
        apply H4 in H as [[? ?]|?]; [|by right].
        left. split; [done|by right].
      * intros [[_ H]|H]; [done|]. right. apply H4. by right.
Qed.

Lemma length_remove_dups_Permutation (l k : list Z) :
  (forall x, x ∈ l <-> x ∈ k) -> length (remove_dups l) = length (remove_dups k).
Proof.
  intros H. apply Permutation_length, NoDup_Permutation; [apply NoDup_remove_dups..|].
  intros x. by rewrite !elem_of_remove_dups.
Qed.

Lemma count_partitions_spec (fuel : nat) (m : list (Z * Z)) :
  (length m <= fuel)%nat -> StronglySorted by_key m ->
  count_partitions fuel m = length (remove_dups (map fst m)).
Proof.
  revert m. induction fuel as [|fuel IH]; intros m Hlen Hm.
  { destruct m; [done|simpl in Hlen; lia]. }
  destruct m as [|e r]; [done|]. cbn [count_partitions].
  destruct (multimap_upper_bound_spec e.1 (e :: r) Hm) as (H1 & H2 & H3 & H4).
  assert (Hub : multimap_upper_bound e.1 (e :: r) = multimap_upper_bound e.1 r).
  { simpl. by rewrite Z.ltb_irrefl. }
  rewrite IH; [|rewrite Hub; inversion Hm; subst;
                 destruct (multimap_upper_bound_spec e.1 r) as (_ & ? & _);
                 [done|simpl in Hlen; lia]|done].
  set (u := multimap_upper_bound e.1 (e :: r)) in *.
  symmetry.
  transitivity (length (e.1 :: remove_dups (map fst u))); [|done].
  apply Permutation_length, NoDup_Permutation.
  - apply NoDup_remove_dups.
  - constructor; [|apply NoDup_remove_dups].
    rewrite elem_of_remove_dups. intros Hin.
    apply list_elem_of_fmap in Hin as (y & Hy & Hyu).
    rewrite list.Forall_forall in H3. specialize (H3 y Hyu). lia.
  - intros x. rewrite elem_of_remove_dups, elem_of_cons, elem_of_remove_dups.
    split.
    + intros Hx. apply H4 in Hx as [[Hle Hx]|Hx]; [|by right]. left.
      simpl in Hx. apply elem_of_cons in Hx as [->|Hx]; [done|].
      apply list_elem_of_fmap in Hx as (y & -> & Hy).
      inversion Hm as [|? ? _ He]; subst.
      rewrite list.Forall_forall in He. specialize (He y Hy).
      unfold by_key in He. lia.
    + intros [->|Hx]; [simpl; by left|]. apply H4. by right.
Qed.

(** X19.  [createPartitionKmerMap] of statAndCompare: the number it prints
    is the number of distinct partition ids among the records of the file,
    and the map iterates over the records by partition id, the records of
    one partition in the order of the file. *)
Theorem createPartitionKmerMap_counts (file : list (Z * Z)) :
  (createPartitionKmerMap file).2 = length (remove_dups (map snd file))
  /\ StronglySorted (fun a b => a.1 <= b.1) (createPartitionKmerMap file).1
  /\ forall p, filter (fun e => e.1 = p) (createPartitionKmerMap file).1
               = map (fun rec => (rec.2, rec.1)) (filter (fun rec => rec.2 = p) file).
Proof.
  unfold createPartitionKmerMap. cbn [fst snd].
  destruct (read_file_spec file []) as (H1 & H2 & H3); [constructor|].
  cbv zeta in H1, H2, H3. split; [|split; [exact H1|exact H3]].
  rewrite count_partitions_spec by done.
  apply length_remove_dups_Permutation. intros x.
  rewrite H2. simpl. by rewrite map_map.
Qed.

(** The two maps are equal exactly when, for every partition id, the
    records read from the two files list the same k-mers in the same order. *)
Lemma resultsAreSame_filters (file1 file2 : list (Z * Z)) :
  resultsAreSame file1 file2 = true
  <-> forall p, filter (fun rec => rec.2 = p) file1 = filter (fun rec => rec.2 = p) file2.
Proof.
  unfold resultsAreSame, createPartitionKmerMap. cbn [fst].
  rewrite bool_decide_eq_true.
  destruct (read_file_spec file1 []) as (S1 & _ & F1); [constructor|].
  destruct (read_file_spec file2 []) as (S2 & _ & F2); [constructor|].
  cbv zeta in S1, S2, F1, F2. simpl in F1, F2.
  assert (Hinj : forall l1 l2 : list (Z * Z),
            map (fun rec : Z * Z => (rec.2, rec.1)) l1
            = map (fun rec : Z * Z => (rec.2, rec.1)) l2 -> l1 = l2).
  { induction l1 as [|[a b] l1 IH]; intros [|[c d] l2]; simpl; try done.
    intros [= -> -> H]. f_equal. by apply IH. }
  split.
  - intros Heq p. apply Hinj. by rewrite <- F1, <- F2, Heq.
  - intros Hf. apply sorted_filters_eq; [done..|].
    intros p. by rewrite F1, F2, Hf.
Qed.

(** What the reading loop takes from a file: the records up to the first
    numeral that does not fit its type, or up to an unpaired last numeral. *)
Lemma read_records_prefix (n : nat) (file : list N) :
  (length file <= n)%nat ->
  exists (recs : list (N * N)) (rest : list N),
    file = concat (map (fun rec : N * N => [rec.1; rec.2]) recs) ++ rest
    /\ read_records file = map (fun rec : N * N => (Z.of_N rec.1, Z.of_N rec.2)) recs
    /\ Forall (fun rec : N * N => (rec.1 < 2 ^ 64 /\ rec.2 < 2 ^ 32)%N) recs
    /\ (rest = [] \/ (exists k, rest = [k])
        \/ exists k p r, rest = k :: p :: r /\ ~ (k < 2 ^ 64 /\ p < 2 ^ 32)%N).
Proof.
  revert file. induction n as [|n IH]; intros file Hlen.
  { destruct file; [|simpl in Hlen; lia]. exists [], []. by repeat split; auto. }
  destruct file as [|k [|p r]].
  - exists [], []. by repeat split; auto.
  - exists [], [k]. repeat split; [constructor|]. right. left. by exists k.
  - cbn [read_records].
    destruct ((k <? 2 ^ 64) && (p <? 2 ^ 32))%N eqn:Hfit.
    + apply andb_true_iff in Hfit as [Hk Hp].
      apply N.ltb_lt in Hk. apply N.ltb_lt in Hp.
      destruct (IH r) as (recs & rest & -> & Hread & Hfits & Hrest);
        [simpl in Hlen; lia|].
      exists ((k, p) :: recs), rest. split; [done|]. split; [simpl; by rewrite Hread|].
      split; [by constructor|done].
    + exists [], (k :: p :: r). split; [done|]. split; [done|]. split; [constructor|].
      right. right. exists k, p, r. split; [done|]. intros [Hk Hp].
      apply N.ltb_lt in Hk. apply N.ltb_lt in Hp. by rewrite Hk, Hp in Hfit.
Qed.

(** X20.  [main] of statAndCompare on two files of unsigned decimal
    numerals.  The reading loop takes the records of a file up to the first
    numeral that does not fit its type ([uint64_t] for the k-mer, [uint32_t]
    for the partition id) or up to an unpaired last numeral, and nothing
    behind it.  [main] reports SUCCESS exactly when, for every partition id,
    the records read from the two files list the same k-mers in the same
    order: the order of the records of different partitions is immaterial,
    the order within a partition and the partition ids themselves are not,
    and what stands behind a numeral that does not fit is not compared, as
    for the files [1 5, 2 4294967296, 3 5] and [1 5]. *)
Theorem statAndCompare_success_iff (file1 file2 : list N) :
  (statAndCompare_main file1 file2 = true
   <-> forall p, filter (fun rec => rec.2 = p) (read_records file1)
                 = filter (fun rec => rec.2 = p) (read_records file2))
  /\ (exists (recs : list (N * N)) (rest : list N),
        file1 = concat (map (fun rec : N * N => [rec.1; rec.2]) recs) ++ rest
        /\ read_records file1
           = map (fun rec : N * N => (Z.of_N rec.1, Z.of_N rec.2)) recs
        /\ Forall (fun rec : N * N => (rec.1 < 2 ^ 64 /\ rec.2 < 2 ^ 32)%N) recs
        /\ (rest = [] \/ (exists k, rest = [k])
            \/ exists k p r, rest = k :: p :: r /\ ~ (k < 2 ^ 64 /\ p < 2 ^ 32)%N))
  /\ statAndCompare_main [1; 5; 2; 4294967296; 3; 5]%N [1; 5]%N = true
  /\ statAndCompare_main [1; 5; 2; 7]%N [2; 7; 1; 5]%N = true
  /\ statAndCompare_main [1; 5; 2; 5]%N [2; 5; 1; 5]%N = false.
Proof.
  split; [apply resultsAreSame_filters|].
  split; [by apply (read_records_prefix (length file1))|].
  vm_compute. by repeat split.
Qed.
